(** * SceneJS draw list: a shallow embedding of [drawList.js]

    The draw list collects the states exported during scene traversal
    (the "state soup"), snapshots them into display nodes when a geometry
    is exported, sorts the nodes to minimise GL state changes, renders
    them and resolves picks.

    JavaScript objects that are shared and mutated (state objects, display
    nodes, shader programs) live in explicit heaps; every reference is a
    heap location.  Functions that read or write the module's variables are
    written in a state-and-exception monad: a thrown exception aborts the
    computation.

    The maps of the draw list are plain objects, so a lookup of a key the
    map does not hold reaches [Object.prototype]; the model follows such a
    lookup as far as the draw list's own data describe the outcome and
    stops with [Unmodelled] where they no longer do.

    Outside the model: shader source composition and the shader objects of
    a program (created by [_getProgram], destroyed by the RESET listener),
    the ray-pick branch of [pick] (floating point), and listeners of the
    SCENE_RENDERING event (their setter calls appear as separate
    operations). *)

From stdpp Require Import base gmap strings list fin_maps sorting pretty.
From Stdlib Require Import ZArith Lia.

Open Scope Z_scope.

(** ** JavaScript values the draw list inspects *)

(** Heap locations: indices into the heaps below. *)
Abbreviation loc := nat (only parsing).

(** Owner ids as passed by callers: a scene node id (a string), a number
    (the default states carry numeric ids), [null] or [undefined]. *)
Inductive JsId :=
| IdUndefined
| IdNull
| IdStr (s : string)
| IdNum (z : Z).

#[global] Instance JsId_eq_dec : EqDecision JsId.
Proof. solve_decision. Defined.

(** [!id] is false exactly for truthy ids. *)
Definition truthy (i : JsId) : bool :=
  match i with
  | IdUndefined | IdNull => false
  | IdStr s => negb (String.eqb s "")
  | IdNum z => negb (z =? 0)
  end.

(** Property-key coercion of [obj[id]]. *)
Definition toKey (i : JsId) : string :=
  match i with
  | IdUndefined => "undefined"
  | IdNull => "null"
  | IdStr s => s
  | IdNum z => pretty z
  end.

(** Numbers that may be [NaN] ([undefined++] yields [NaN]). *)
Inductive JsNum :=
| NaN
| Num (z : Z).

(** [a != b] on numbers: [NaN] differs from everything. *)
Definition num_neq (a b : JsNum) : bool :=
  match a, b with
  | Num x, Num y => negb (x =? y)
  | _, _ => true
  end.

(** [n++]: the value read and the value stored. *)
Definition post_incr (n : JsNum) : JsNum * JsNum :=
  match n with
  | NaN => (NaN, NaN)
  | Num z => (Num z, Num (z + 1))
  end.

(** A flag that is compared with [===]: [true], [false], or anything else
    (absent, or not a boolean). *)
Inductive JsFlag := FTrue | FFalse | FOther.

Definition is_true_strict (f : JsFlag) : bool :=
  match f with FTrue => true | _ => false end.
Definition is_false_strict (f : JsFlag) : bool :=
  match f with FFalse => true | _ => false end.

(** [Array.prototype.join]: [undefined] elements print as the empty string. *)
Fixpoint join (sep : string) (l : list (option string)) : string :=
  match l with
  | [] => ""
  | [x] => default "" x
  | x :: rest => default "" x +:+ sep +:+ join sep rest
  end.

(** [arr[i] = v] on an array: writing past the end extends the array with
    holes; a hole reads as [undefined]. *)
Definition js_set {A} (l : list (option A)) (i : nat) (v : option A)
  : list (option A) :=
  if decide (i < length l)%nat then <[i := v]> l
  else l ++ replicate (i - length l) None ++ [v].

(** [arr[i]] for a possibly out-of-range index. *)
Definition js_get {A} (l : list (option A)) (i : nat) : option A :=
  mjoin (l !! i).

(** [arr.length = n]. *)
Definition js_set_length {A} (l : list (option A)) (n : nat)
  : list (option A) :=
  take n l ++ replicate (n - length l) None.

(** ** Plain objects used as maps

    [_sceneStates], [_programs], a scene's [nodeMap] and [geoNodesMap] and
    the type maps of its [stateMap] are plain objects ([{}]) indexed by
    caller-supplied strings.  [obj[key]] yields the object's own property
    if it has one, and otherwise what every plain object inherits from
    [Object.prototype]: a function for each of its methods, and the
    prototype object itself for [__proto__].  All of these are truthy.  An
    assignment [obj[key] = v] creates or overwrites an own property, except
    for the key [__proto__], where it replaces the object's prototype. *)

Inductive Inherited :=
| InheritedFunction (arity : nat)   (* a method; [arity] is its [length] *)
| InheritedPrototype.               (* [Object.prototype] itself *)

Definition Object_prototype_properties : list (string * Inherited) :=
  [("constructor", InheritedFunction 1);
   ("toString", InheritedFunction 0);
   ("toLocaleString", InheritedFunction 0);
   ("valueOf", InheritedFunction 0);
   ("hasOwnProperty", InheritedFunction 1);
   ("isPrototypeOf", InheritedFunction 1);
   ("propertyIsEnumerable", InheritedFunction 1);
   ("__defineGetter__", InheritedFunction 2);
   ("__defineSetter__", InheritedFunction 2);
   ("__lookupGetter__", InheritedFunction 1);
   ("__lookupSetter__", InheritedFunction 1);
   ("__proto__", InheritedPrototype)].

(** What [{}[key]] yields; [None] stands for [undefined]. *)
Definition Object_prototype (key : string) : option Inherited :=
  snd <$> List.find (λ p, String.eqb (fst p) key)
            Object_prototype_properties.

(** Whether [obj[key] = v] replaces the prototype of [obj]. *)
Definition sets_prototype (key : string) : bool :=
  match Object_prototype key with
  | Some InheritedPrototype => true
  | _ => false
  end.

(** ** Exceptions and the state monad *)

(** [Unmodelled] is not an exception of the source: it marks the points
    where the source goes on in a way the data of this model cannot
    describe (an object inherited from [Object.prototype] used as a state,
    a scene or a program, or a map whose prototype is replaced).  A run
    that reaches such a point is not followed further, and no statement
    below speaks about it. *)
Inductive Error :=
| TypeError                      (* property access on null or undefined *)
| RangeError                     (* invalid array length *)
| FatalError (msg : string)      (* SceneJS_errorModule.fatalError *)
| Thrown (msg : string)          (* throw "..." *)
| Unmodelled (what : string).

Inductive Result (A : Type) :=
| Ok (a : A)
| Err (e : Error).
Arguments Ok {A} a.
Arguments Err {A} e.

Section Monad.
Context {S : Type}.

Definition M (A : Type) : Type := S → Result (A * S).

Definition ret {A} (a : A) : M A := λ s, Ok (a, s).
Definition throw {A} (e : Error) : M A := λ _, Err e.
Definition bind {A B} (m : M A) (k : A → M B) : M B :=
    λ s, match m s with
         | Ok (a, s') => k a s'
         | Err e => Err e
         end.
Definition get : M S := λ s, Ok (s, s).
Definition gets {A} (f : S → A) : M A := λ s, Ok (f s, s).
Definition modify (f : S → S) : M unit := λ s, Ok (tt, f s).

  (** Dereference: [null] and [undefined] raise a TypeError. *)
Definition deref {A} (o : option A) : M A :=
    match o with
    | Some a => ret a
    | None => throw TypeError
    end.

  (** [for (i = start; i < start + n; i++) acc = body(i, acc)]. *)
Fixpoint for_loop {A} (body : nat → A → M A) (start n : nat) (acc : A)
    : M A :=
    match n with
    | O => ret acc
    | Datatypes.S n' =>
        bind (body start acc) (for_loop body (Datatypes.S start) n')
    end.

  (** [for (x of xs) body(x)]. *)
Fixpoint for_each {A} (body : A → M unit) (xs : list A) : M unit :=
    match xs with
    | [] => ret tt
    | x :: rest => bind (body x) (λ _, for_each body rest)
    end.
End Monad.

Arguments M S A : clear implicits.

Notation "x <- m ;;; k" := (bind m (λ x, k))
  (at level 20, m at level 99, k at level 200, only parsing).
Notation "' p <- m ;;; k" := (bind m (λ x, match x with p => k end))
  (at level 20, p pattern, m at level 99, k at level 200, only parsing).
Notation "m ;;; k" := (bind m (λ _, k))
  (at level 100, k at level 200, only parsing, right associativity).

(** ** Payloads

    Only the fields the draw list reads are kept; values it merely stores
    (matrices, materials, listeners) are opaque tokens.  Fields tested for
    truthiness are booleans. *)

Inductive Opaque := opaque (n : N).

Record Clip := { clip_mode : string }.

Record Light := {
  light_mode : string;
  light_specular : bool;
  light_diffuse : bool
}.

Record MorphTarget := {
  mt_vertexBuf : bool;
  mt_normalBuf : bool;
  mt_uvBuf : bool;
  mt_uvBuf2 : bool
}.

Record Morph := { targets : list MorphTarget }.

Record TexLayer := {
  applyFrom : string;
  applyTo : string;
  blendMode : string;
  matrix : bool
}.

Record TexCore := { layers : list TexLayer }.

Record Shader := { shader_hash : option string }.

Record Geo := {
  normalBuf : bool;
  uvBuf : bool;
  uvBuf2 : bool;
  colorBuf : bool;
  primitive : string
}.

Module Flags.
Record t := {
    picking : JsFlag;
    enabled : JsFlag;
    transparent : JsFlag
  }.
End Flags.

Module LayerCore.
Record t := { priority : Z; enabled : bool }.
End LayerCore.

Module TagCore.
Record t := { tag : string; mask : option string; matches : bool }.
End TagCore.

(** The category-specific fields of a state object.  A state object only
    ever receives the fields of the category it was created for. *)
Inductive Payload :=
| PUnset
| PClips (clips : list Clip)
| PColortrans (core : option Opaque)
| PFlags (flags : Flags.t)
| PLayer (core : option LayerCore.t)
| PFrameBuf (frameBuf : option Opaque)
| PLights (lights : list Light)
| PMaterial (material : Opaque)
| PMorph (morph : option Morph)
| PPickColor (pickColor : option Opaque)
| PListeners (listeners : list Opaque)
| PName (name : option string)
| PTag (core : option TagCore.t)
| PTexture (core : option TexCore)
| PRenderer (props : option Opaque)
| PModelTransform (mat normalMat : Opaque)
| PProjTransform (mat optics : Opaque)
| PViewTransform (mat normalMat lookAt : Opaque)
| PShader (shader : Shader)
| PShaderParams (paramsStack : option Opaque)
| PGeo (geo : Geo).

(** ** Heap objects *)

Module State.
Record t := {
    _id : JsId;
    _stateId : JsNum;
    _stateType : option nat;     (* undefined on the default states *)
    _nodeCount : Z;
    _default : bool;
    _sortId : option Z;          (* absent until a sort-id pass assigns it *)
    hash : option string;
    payload : Payload
  }.

Definition with_nodeCount (c : Z) (s : t) : t :=
    {| _id := _id s; _stateId := _stateId s; _stateType := _stateType s;
       _nodeCount := c; _default := _default s; _sortId := _sortId s;
       hash := hash s; payload := payload s |}.
Definition with_sortId (v : option Z) (s : t) : t :=
    {| _id := _id s; _stateId := _stateId s; _stateType := _stateType s;
       _nodeCount := _nodeCount s; _default := _default s; _sortId := v;
       hash := hash s; payload := payload s |}.
Definition with_hash (h : option string) (s : t) : t :=
    {| _id := _id s; _stateId := _stateId s; _stateType := _stateType s;
       _nodeCount := _nodeCount s; _default := _default s;
       _sortId := _sortId s; hash := h; payload := payload s |}.
Definition with_payload (p : Payload) (s : t) : t :=
    {| _id := _id s; _stateId := _stateId s; _stateType := _stateType s;
       _nodeCount := _nodeCount s; _default := _default s;
       _sortId := _sortId s; hash := hash s; payload := p |}.
End State.

Module Program.
  (** The compiled [render] and [pick] shaders are left out. *)
Record t := {
    id : Z;
    stateHash : string;
    refCount : Z;
    _sortId : option Z           (* absent until a sort-id pass assigns it *)
  }.

Definition with_refCount (c : Z) (p : t) : t :=
    {| id := id p; stateHash := stateHash p; refCount := c;
       _sortId := _sortId p |}.
Definition with_sortId (v : option Z) (p : t) : t :=
    {| id := id p; stateHash := stateHash p; refCount := refCount p;
       _sortId := v |}.
End Program.

Module Node.
Record t := {
    id : JsId;
    sortId : Z;
    stateHash : string;
    program : loc;
    destroyed : bool;              (* absent until removeGeometry sets it *)
    geoState : loc;
    layerState : loc;
    flagsState : loc;
    rendererState : loc;
    lightState : loc;
    colortransState : loc;
    materialState : loc;
    modelXFormState : loc;
    viewXFormState : loc;
    projXFormState : loc;
    texState : loc;
    pickColorState : loc;
    frameBufState : loc;
    clipState : loc;
    morphState : loc;
    nameState : loc;
    tagState : loc;
    renderListenersState : loc;
    shaderState : loc;
    shaderParamsState : loc
  }.

Definition with_sortId (v : Z) (n : t) : t :=
    {| id := id n; sortId := v; stateHash := stateHash n;
       program := program n; destroyed := destroyed n;
       geoState := geoState n; layerState := layerState n;
       flagsState := flagsState n; rendererState := rendererState n;
       lightState := lightState n; colortransState := colortransState n;
       materialState := materialState n;
       modelXFormState := modelXFormState n;
       viewXFormState := viewXFormState n;
       projXFormState := projXFormState n; texState := texState n;
       pickColorState := pickColorState n; frameBufState := frameBufState n;
       clipState := clipState n; morphState := morphState n;
       nameState := nameState n; tagState := tagState n;
       renderListenersState := renderListenersState n;
       shaderState := shaderState n;
       shaderParamsState := shaderParamsState n |}.
Definition with_destroyed (v : bool) (n : t) : t :=
    {| id := id n; sortId := sortId n; stateHash := stateHash n;
       program := program n; destroyed := v;
       geoState := geoState n; layerState := layerState n;
       flagsState := flagsState n; rendererState := rendererState n;
       lightState := lightState n; colortransState := colortransState n;
       materialState := materialState n;
       modelXFormState := modelXFormState n;
       viewXFormState := viewXFormState n;
       projXFormState := projXFormState n; texState := texState n;
       pickColorState := pickColorState n; frameBufState := frameBufState n;
       clipState := clipState n; morphState := morphState n;
       nameState := nameState n; tagState := tagState n;
       renderListenersState := renderListenersState n;
       shaderState := shaderState n;
       shaderParamsState := shaderParamsState n |}.
Definition with_flagsState (v : loc) (n : t) : t :=
    {| id := id n; sortId := sortId n; stateHash := stateHash n;
       program := program n; destroyed := destroyed n;
       geoState := geoState n; layerState := layerState n;
       flagsState := v; rendererState := rendererState n;
       lightState := lightState n; colortransState := colortransState n;
       materialState := materialState n;
       modelXFormState := modelXFormState n;
       viewXFormState := viewXFormState n;
       projXFormState := projXFormState n; texState := texState n;
       pickColorState := pickColorState n; frameBufState := frameBufState n;
       clipState := clipState n; morphState := morphState n;
       nameState := nameState n; tagState := tagState n;
       renderListenersState := renderListenersState n;
       shaderState := shaderState n;
       shaderParamsState := shaderParamsState n |}.
Definition with_renderListenersState (v : loc) (n : t) : t :=
    {| id := id n; sortId := sortId n; stateHash := stateHash n;
       program := program n; destroyed := destroyed n;
       geoState := geoState n; layerState := layerState n;
       flagsState := flagsState n; rendererState := rendererState n;
       lightState := lightState n; colortransState := colortransState n;
       materialState := materialState n;
       modelXFormState := modelXFormState n;
       viewXFormState := viewXFormState n;
       projXFormState := projXFormState n; texState := texState n;
       pickColorState := pickColorState n; frameBufState := frameBufState n;
       clipState := clipState n; morphState := morphState n;
       nameState := nameState n; tagState := tagState n;
       renderListenersState := v;
       shaderState := shaderState n;
       shaderParamsState := shaderParamsState n |}.
End Node.

(** ** State types

    The numeric ID of each state type, as in the source. *)

Definition _GEO : nat := 0.
Definition _CLIPS : nat := 1.
Definition _COLORTRANS : nat := 2.
Definition _FLAGS : nat := 3.
Definition _LAYER : nat := 4.
Definition _FRAMEBUF : nat := 5.
Definition _LIGHTS : nat := 6.
Definition _MATERIAL : nat := 7.
Definition _MORPH : nat := 8.
Definition _PICKCOLOR : nat := 9.
Definition _TEXTURE : nat := 10.
Definition _RENDERER : nat := 11.
Definition _MODEL_TRANSFORM : nat := 12.
Definition _PROJ_TRANSFORM : nat := 13.
Definition _VIEW_TRANSFORM : nat := 14.
Definition _PICK_LISTENERS : nat := 15.
Definition _NAME : nat := 16.
Definition _TAG : nat := 17.
Definition _RENDER_LISTENERS : nat := 18.
Definition _SHADER : nat := 19.
Definition _SHADER_PARAMS : nat := 20.

Definition COMPILE_SCENE : nat := 0.
Definition COMPILE_BRANCH : nat := 1.
Definition COMPILE_NODES : nat := 2.

(** ** Collaborators

    The node renderer, the GL context and the pick buffer are not part of
    this module.  The calls the draw list makes to them are logged in order;
    what they do in response is modelled further below. *)

Inductive Call :=
| RendererInit (picking : bool)
| RenderNode (node : loc)
| RendererCleanup
| Enable_BLEND
| BlendFunc_SRC_ALPHA
| Disable_BLEND
| PickBufBind
| PickBufClear
| PickBufUnbind.

Module Renderer.
Record t := {
    picking : bool;
    pickNameStates : list loc
  }.
End Renderer.

(** The per-scene state set.  [geoNodesMap] maps an owner id to its array
    of display nodes, or to [null] once they were removed.  [pickBuf] is
    [None] until the pick buffer is created; it then holds the nodes drawn
    into the buffer since it was last cleared, with their pick indices. *)
Module Scene.
Record t := {
    sceneId : string;
    canvasId : string;
    nodeRenderer : Renderer.t;
    calls : list Call;
    bin : list (option loc);
    lenBin : nat;
    visibleCacheBin : list (option loc);
    lenVisibleCacheBin : nat;
    nodeMap : gmap string loc;
    geoNodesMap : gmap string (option (list loc));
    stateMap : gmap nat (gmap string loc);
    pickCallListDirty : bool;
    pickBufDirty : bool;
    pickCallFuncsDirty : bool;
    stateSortDirty : bool;
    stateSortIDsDirty : bool;
    pickBuf : option (list (loc * nat))
  }.

Definition with_nodeRenderer (v : Renderer.t) (x : t) : t :=
    {| sceneId := sceneId x; canvasId := canvasId x; nodeRenderer := v;
       calls := calls x; bin := bin x; lenBin := lenBin x;
       visibleCacheBin := visibleCacheBin x;
       lenVisibleCacheBin := lenVisibleCacheBin x; nodeMap := nodeMap x;
       geoNodesMap := geoNodesMap x; stateMap := stateMap x;
       pickCallListDirty := pickCallListDirty x;
       pickBufDirty := pickBufDirty x;
       pickCallFuncsDirty := pickCallFuncsDirty x;
       stateSortDirty := stateSortDirty x;
       stateSortIDsDirty := stateSortIDsDirty x; pickBuf := pickBuf x |}.
Definition with_calls (v : list Call) (x : t) : t :=
    {| sceneId := sceneId x; canvasId := canvasId x;
       nodeRenderer := nodeRenderer x; calls := v; bin := bin x;
       lenBin := lenBin x; visibleCacheBin := visibleCacheBin x;
       lenVisibleCacheBin := lenVisibleCacheBin x; nodeMap := nodeMap x;
       geoNodesMap := geoNodesMap x; stateMap := stateMap x;
       pickCallListDirty := pickCallListDirty x;
       pickBufDirty := pickBufDirty x;
       pickCallFuncsDirty := pickCallFuncsDirty x;
       stateSortDirty := stateSortDirty x;
       stateSortIDsDirty := stateSortIDsDirty x; pickBuf := pickBuf x |}.
Definition with_bin (v : list (option loc)) (x : t) : t :=
    {| sceneId := sceneId x; canvasId := canvasId x;
       nodeRenderer := nodeRenderer x; calls := calls x; bin := v;
       lenBin := lenBin x; visibleCacheBin := visibleCacheBin x;
       lenVisibleCacheBin := lenVisibleCacheBin x; nodeMap := nodeMap x;
       geoNodesMap := geoNodesMap x; stateMap := stateMap x;
       pickCallListDirty := pickCallListDirty x;
       pickBufDirty := pickBufDirty x;
       pickCallFuncsDirty := pickCallFuncsDirty x;
       stateSortDirty := stateSortDirty x;
       stateSortIDsDirty := stateSortIDsDirty x; pickBuf := pickBuf x |}.
Definition with_lenBin (v : nat) (x : t) : t :=
    {| sceneId := sceneId x; canvasId := canvasId x;
       nodeRenderer := nodeRenderer x; calls := calls x; bin := bin x;
       lenBin := v; visibleCacheBin := visibleCacheBin x;
       lenVisibleCacheBin := lenVisibleCacheBin x; nodeMap := nodeMap x;
       geoNodesMap := geoNodesMap x; stateMap := stateMap x;
       pickCallListDirty := pickCallListDirty x;
       pickBufDirty := pickBufDirty x;
       pickCallFuncsDirty := pickCallFuncsDirty x;
       stateSortDirty := stateSortDirty x;
       stateSortIDsDirty := stateSortIDsDirty x; pickBuf := pickBuf x |}.
Definition with_visibleCacheBin (v : list (option loc)) (x : t) : t :=
    {| sceneId := sceneId x; canvasId := canvasId x;
       nodeRenderer := nodeRenderer x; calls := calls x; bin := bin x;
       lenBin := lenBin x; visibleCacheBin := v;
       lenVisibleCacheBin := lenVisibleCacheBin x; nodeMap := nodeMap x;
       geoNodesMap := geoNodesMap x; stateMap := stateMap x;
       pickCallListDirty := pickCallListDirty x;
       pickBufDirty := pickBufDirty x;
       pickCallFuncsDirty := pickCallFuncsDirty x;
       stateSortDirty := stateSortDirty x;
       stateSortIDsDirty := stateSortIDsDirty x; pickBuf := pickBuf x |}.
Definition with_lenVisibleCacheBin (v : nat) (x : t) : t :=
    {| sceneId := sceneId x; canvasId := canvasId x;
       nodeRenderer := nodeRenderer x; calls := calls x; bin := bin x;
       lenBin := lenBin x; visibleCacheBin := visibleCacheBin x;
       lenVisibleCacheBin := v; nodeMap := nodeMap x;
       geoNodesMap := geoNodesMap x; stateMap := stateMap x;
       pickCallListDirty := pickCallListDirty x;
       pickBufDirty := pickBufDirty x;
       pickCallFuncsDirty := pickCallFuncsDirty x;
       stateSortDirty := stateSortDirty x;
       stateSortIDsDirty := stateSortIDsDirty x; pickBuf := pickBuf x |}.
Definition with_nodeMap (v : gmap string loc) (x : t) : t :=
    {| sceneId := sceneId x; canvasId := canvasId x;
       nodeRenderer := nodeRenderer x; calls := calls x; bin := bin x;
       lenBin := lenBin x; visibleCacheBin := visibleCacheBin x;
       lenVisibleCacheBin := lenVisibleCacheBin x; nodeMap := v;
       geoNodesMap := geoNodesMap x; stateMap := stateMap x;
       pickCallListDirty := pickCallListDirty x;
       pickBufDirty := pickBufDirty x;
       pickCallFuncsDirty := pickCallFuncsDirty x;
       stateSortDirty := stateSortDirty x;
       stateSortIDsDirty := stateSortIDsDirty x; pickBuf := pickBuf x |}.
Definition with_geoNodesMap (v : gmap string (option (list loc))) (x : t) : t :=
    {| sceneId := sceneId x; canvasId := canvasId x;
       nodeRenderer := nodeRenderer x; calls := calls x; bin := bin x;
       lenBin := lenBin x; visibleCacheBin := visibleCacheBin x;
       lenVisibleCacheBin := lenVisibleCacheBin x; nodeMap := nodeMap x;
       geoNodesMap := v; stateMap := stateMap x;
       pickCallListDirty := pickCallListDirty x;
       pickBufDirty := pickBufDirty x;
       pickCallFuncsDirty := pickCallFuncsDirty x;
       stateSortDirty := stateSortDirty x;
       stateSortIDsDirty := stateSortIDsDirty x; pickBuf := pickBuf x |}.
Definition with_stateMap (v : gmap nat (gmap string loc)) (x : t) : t :=
    {| sceneId := sceneId x; canvasId := canvasId x;
       nodeRenderer := nodeRenderer x; calls := calls x; bin := bin x;
       lenBin := lenBin x; visibleCacheBin := visibleCacheBin x;
       lenVisibleCacheBin := lenVisibleCacheBin x; nodeMap := nodeMap x;
       geoNodesMap := geoNodesMap x; stateMap := v;
       pickCallListDirty := pickCallListDirty x;
       pickBufDirty := pickBufDirty x;
       pickCallFuncsDirty := pickCallFuncsDirty x;
       stateSortDirty := stateSortDirty x;
       stateSortIDsDirty := stateSortIDsDirty x; pickBuf := pickBuf x |}.
Definition with_pickCallListDirty (v : bool) (x : t) : t :=
    {| sceneId := sceneId x; canvasId := canvasId x;
       nodeRenderer := nodeRenderer x; calls := calls x; bin := bin x;
       lenBin := lenBin x; visibleCacheBin := visibleCacheBin x;
       lenVisibleCacheBin := lenVisibleCacheBin x; nodeMap := nodeMap x;
       geoNodesMap := geoNodesMap x; stateMap := stateMap x;
       pickCallListDirty := v; pickBufDirty := pickBufDirty x;
       pickCallFuncsDirty := pickCallFuncsDirty x;
       stateSortDirty := stateSortDirty x;
       stateSortIDsDirty := stateSortIDsDirty x; pickBuf := pickBuf x |}.
Definition with_pickBufDirty (v : bool) (x : t) : t :=
    {| sceneId := sceneId x; canvasId := canvasId x;
       nodeRenderer := nodeRenderer x; calls := calls x; bin := bin x;
       lenBin := lenBin x; visibleCacheBin := visibleCacheBin x;
       lenVisibleCacheBin := lenVisibleCacheBin x; nodeMap := nodeMap x;
       geoNodesMap := geoNodesMap x; stateMap := stateMap x;
       pickCallListDirty := pickCallListDirty x; pickBufDirty := v;
       pickCallFuncsDirty := pickCallFuncsDirty x;
       stateSortDirty := stateSortDirty x;
       stateSortIDsDirty := stateSortIDsDirty x; pickBuf := pickBuf x |}.
Definition with_pickCallFuncsDirty (v : bool) (x : t) : t :=
    {| sceneId := sceneId x; canvasId := canvasId x;
       nodeRenderer := nodeRenderer x; calls := calls x; bin := bin x;
       lenBin := lenBin x; visibleCacheBin := visibleCacheBin x;
       lenVisibleCacheBin := lenVisibleCacheBin x; nodeMap := nodeMap x;
       geoNodesMap := geoNodesMap x; stateMap := stateMap x;
       pickCallListDirty := pickCallListDirty x;
       pickBufDirty := pickBufDirty x; pickCallFuncsDirty := v;
       stateSortDirty := stateSortDirty x;
       stateSortIDsDirty := stateSortIDsDirty x; pickBuf := pickBuf x |}.
Definition with_stateSortDirty (v : bool) (x : t) : t :=
    {| sceneId := sceneId x; canvasId := canvasId x;
       nodeRenderer := nodeRenderer x; calls := calls x; bin := bin x;
       lenBin := lenBin x; visibleCacheBin := visibleCacheBin x;
       lenVisibleCacheBin := lenVisibleCacheBin x; nodeMap := nodeMap x;
       geoNodesMap := geoNodesMap x; stateMap := stateMap x;
       pickCallListDirty := pickCallListDirty x;
       pickBufDirty := pickBufDirty x;
       pickCallFuncsDirty := pickCallFuncsDirty x; stateSortDirty := v;
       stateSortIDsDirty := stateSortIDsDirty x; pickBuf := pickBuf x |}.
Definition with_stateSortIDsDirty (v : bool) (x : t) : t :=
    {| sceneId := sceneId x; canvasId := canvasId x;
       nodeRenderer := nodeRenderer x; calls := calls x; bin := bin x;
       lenBin := lenBin x; visibleCacheBin := visibleCacheBin x;
       lenVisibleCacheBin := lenVisibleCacheBin x; nodeMap := nodeMap x;
       geoNodesMap := geoNodesMap x; stateMap := stateMap x;
       pickCallListDirty := pickCallListDirty x;
       pickBufDirty := pickBufDirty x;
       pickCallFuncsDirty := pickCallFuncsDirty x;
       stateSortDirty := stateSortDirty x; stateSortIDsDirty := v;
       pickBuf := pickBuf x |}.
Definition with_pickBuf (v : option (list (loc * nat))) (x : t) : t :=
    {| sceneId := sceneId x; canvasId := canvasId x;
       nodeRenderer := nodeRenderer x; calls := calls x; bin := bin x;
       lenBin := lenBin x; visibleCacheBin := visibleCacheBin x;
       lenVisibleCacheBin := lenVisibleCacheBin x; nodeMap := nodeMap x;
       geoNodesMap := geoNodesMap x; stateMap := stateMap x;
       pickCallListDirty := pickCallListDirty x;
       pickBufDirty := pickBufDirty x;
       pickCallFuncsDirty := pickCallFuncsDirty x;
       stateSortDirty := stateSortDirty x;
       stateSortIDsDirty := stateSortIDsDirty x; pickBuf := v |}.
End Scene.

(** The module's variables.  [_states], [_nodeMap] and [_stateMap] are
    references to a scene's state set and to the node map and state map
    inside it; they are represented by the id of that scene ([bindScene]
    replaces a scene's maps and these references together).  The soup
    variables [clipState], [flagsState], ... form an environment indexed by
    state type; a variable that is [undefined] has no entry. *)
Module DL.
Record t := {
    stateHeap : list State.t;
    nodeHeap : list Node.t;
    programHeap : list Program.t;
    _programs : gmap string loc;
    nextProgramId : Z;
    _sceneStates : gmap string Scene.t;
    _states : option string;
    _nodeMap : option string;
    _stateMap : option string;
    nextStateId : JsNum;
    compileMode : option nat;
    picking : bool;
    soup : gmap nat loc;
    _stateHash : option string;
    transparentBin : list (option loc)
  }.

Definition with_stateHeap (v : list State.t) (x : t) : t :=
    {| stateHeap := v; nodeHeap := nodeHeap x; programHeap := programHeap x;
       _programs := _programs x; nextProgramId := nextProgramId x;
       _sceneStates := _sceneStates x; _states := _states x;
       _nodeMap := _nodeMap x; _stateMap := _stateMap x;
       nextStateId := nextStateId x; compileMode := compileMode x;
       picking := picking x; soup := soup x; _stateHash := _stateHash x;
       transparentBin := transparentBin x |}.
Definition with_nodeHeap (v : list Node.t) (x : t) : t :=
    {| stateHeap := stateHeap x; nodeHeap := v;
       programHeap := programHeap x; _programs := _programs x;
       nextProgramId := nextProgramId x; _sceneStates := _sceneStates x;
       _states := _states x; _nodeMap := _nodeMap x;
       _stateMap := _stateMap x; nextStateId := nextStateId x;
       compileMode := compileMode x; picking := picking x; soup := soup x;
       _stateHash := _stateHash x; transparentBin := transparentBin x |}.
Definition with_programHeap (v : list Program.t) (x : t) : t :=
    {| stateHeap := stateHeap x; nodeHeap := nodeHeap x; programHeap := v;
       _programs := _programs x; nextProgramId := nextProgramId x;
       _sceneStates := _sceneStates x; _states := _states x;
       _nodeMap := _nodeMap x; _stateMap := _stateMap x;
       nextStateId := nextStateId x; compileMode := compileMode x;
       picking := picking x; soup := soup x; _stateHash := _stateHash x;
       transparentBin := transparentBin x |}.
Definition with__programs (v : gmap string loc) (x : t) : t :=
    {| stateHeap := stateHeap x; nodeHeap := nodeHeap x;
       programHeap := programHeap x; _programs := v;
       nextProgramId := nextProgramId x; _sceneStates := _sceneStates x;
       _states := _states x; _nodeMap := _nodeMap x;
       _stateMap := _stateMap x; nextStateId := nextStateId x;
       compileMode := compileMode x; picking := picking x; soup := soup x;
       _stateHash := _stateHash x; transparentBin := transparentBin x |}.
Definition with_nextProgramId (v : Z) (x : t) : t :=
    {| stateHeap := stateHeap x; nodeHeap := nodeHeap x;
       programHeap := programHeap x; _programs := _programs x;
       nextProgramId := v; _sceneStates := _sceneStates x;
       _states := _states x; _nodeMap := _nodeMap x;
       _stateMap := _stateMap x; nextStateId := nextStateId x;
       compileMode := compileMode x; picking := picking x; soup := soup x;
       _stateHash := _stateHash x; transparentBin := transparentBin x |}.
Definition with__sceneStates (v : gmap string Scene.t) (x : t) : t :=
    {| stateHeap := stateHeap x; nodeHeap := nodeHeap x;
       programHeap := programHeap x; _programs := _programs x;
       nextProgramId := nextProgramId x; _sceneStates := v;
       _states := _states x; _nodeMap := _nodeMap x;
       _stateMap := _stateMap x; nextStateId := nextStateId x;
       compileMode := compileMode x; picking := picking x; soup := soup x;
       _stateHash := _stateHash x; transparentBin := transparentBin x |}.
Definition with__states (v : option string) (x : t) : t :=
    {| stateHeap := stateHeap x; nodeHeap := nodeHeap x;
       programHeap := programHeap x; _programs := _programs x;
       nextProgramId := nextProgramId x; _sceneStates := _sceneStates x;
       _states := v; _nodeMap := _nodeMap x; _stateMap := _stateMap x;
       nextStateId := nextStateId x; compileMode := compileMode x;
       picking := picking x; soup := soup x; _stateHash := _stateHash x;
       transparentBin := transparentBin x |}.
Definition with__nodeMap (v : option string) (x : t) : t :=
    {| stateHeap := stateHeap x; nodeHeap := nodeHeap x;
       programHeap := programHeap x; _programs := _programs x;
       nextProgramId := nextProgramId x; _sceneStates := _sceneStates x;
       _states := _states x; _nodeMap := v; _stateMap := _stateMap x;
       nextStateId := nextStateId x; compileMode := compileMode x;
       picking := picking x; soup := soup x; _stateHash := _stateHash x;
       transparentBin := transparentBin x |}.
Definition with__stateMap (v : option string) (x : t) : t :=
    {| stateHeap := stateHeap x; nodeHeap := nodeHeap x;
       programHeap := programHeap x; _programs := _programs x;
       nextProgramId := nextProgramId x; _sceneStates := _sceneStates x;
       _states := _states x; _nodeMap := _nodeMap x; _stateMap := v;
       nextStateId := nextStateId x; compileMode := compileMode x;
       picking := picking x; soup := soup x; _stateHash := _stateHash x;
       transparentBin := transparentBin x |}.
Definition with_nextStateId (v : JsNum) (x : t) : t :=
    {| stateHeap := stateHeap x; nodeHeap := nodeHeap x;
       programHeap := programHeap x; _programs := _programs x;
       nextProgramId := nextProgramId x; _sceneStates := _sceneStates x;
       _states := _states x; _nodeMap := _nodeMap x;
       _stateMap := _stateMap x; nextStateId := v;
       compileMode := compileMode x; picking := picking x; soup := soup x;
       _stateHash := _stateHash x; transparentBin := transparentBin x |}.
Definition with_compileMode (v : option nat) (x : t) : t :=
    {| stateHeap := stateHeap x; nodeHeap := nodeHeap x;
       programHeap := programHeap x; _programs := _programs x;
       nextProgramId := nextProgramId x; _sceneStates := _sceneStates x;
       _states := _states x; _nodeMap := _nodeMap x;
       _stateMap := _stateMap x; nextStateId := nextStateId x;
       compileMode := v; picking := picking x; soup := soup x;
       _stateHash := _stateHash x; transparentBin := transparentBin x |}.
Definition with_picking (v : bool) (x : t) : t :=
    {| stateHeap := stateHeap x; nodeHeap := nodeHeap x;
       programHeap := programHeap x; _programs := _programs x;
       nextProgramId := nextProgramId x; _sceneStates := _sceneStates x;
       _states := _states x; _nodeMap := _nodeMap x;
       _stateMap := _stateMap x; nextStateId := nextStateId x;
       compileMode := compileMode x; picking := v; soup := soup x;
       _stateHash := _stateHash x; transparentBin := transparentBin x |}.
Definition with_soup (v : gmap nat loc) (x : t) : t :=
    {| stateHeap := stateHeap x; nodeHeap := nodeHeap x;
       programHeap := programHeap x; _programs := _programs x;
       nextProgramId := nextProgramId x; _sceneStates := _sceneStates x;
       _states := _states x; _nodeMap := _nodeMap x;
       _stateMap := _stateMap x; nextStateId := nextStateId x;
       compileMode := compileMode x; picking := picking x; soup := v;
       _stateHash := _stateHash x; transparentBin := transparentBin x |}.
Definition with__stateHash (v : option string) (x : t) : t :=
    {| stateHeap := stateHeap x; nodeHeap := nodeHeap x;
       programHeap := programHeap x; _programs := _programs x;
       nextProgramId := nextProgramId x; _sceneStates := _sceneStates x;
       _states := _states x; _nodeMap := _nodeMap x;
       _stateMap := _stateMap x; nextStateId := nextStateId x;
       compileMode := compileMode x; picking := picking x; soup := soup x;
       _stateHash := v; transparentBin := transparentBin x |}.
Definition with_transparentBin (v : list (option loc)) (x : t) : t :=
    {| stateHeap := stateHeap x; nodeHeap := nodeHeap x;
       programHeap := programHeap x; _programs := _programs x;
       nextProgramId := nextProgramId x; _sceneStates := _sceneStates x;
       _states := _states x; _nodeMap := _nodeMap x;
       _stateMap := _stateMap x; nextStateId := nextStateId x;
       compileMode := compileMode x; picking := picking x; soup := soup x;
       _stateHash := _stateHash x; transparentBin := v |}.
End DL.

Abbreviation DrawList := DL.t.
Abbreviation Op := (M DrawList).

(** ** Default state values *)

(** [createState]: the closure's counter starts at -1 and decreases. *)
Definition createState (stateId : Z) (data : option string * Payload)
  : State.t :=
  {| State._id := IdNum stateId; State._stateId := Num stateId;
     State._stateType := None; State._nodeCount := 0;
     State._default := true; State._sortId := None; State.hash := data.1;
     State.payload := data.2 |}.

Fixpoint createStates (stateId : Z) (datas : list (option string * Payload))
  : list State.t :=
  match datas with
  | [] => []
  | d :: rest => createState stateId d :: createStates (stateId - 1) rest
  end.

Definition _DEFAULT_MAT : Opaque := opaque 0.
Definition _DEFAULT_NORMAL_MAT : Opaque := opaque 1.
Definition SceneJS_math_ORTHO_OBJ : Opaque := opaque 2.
Definition SceneJS_math_LOOKAT_ARRAYS : Opaque := opaque 3.
Definition DEFAULT_PROJ_MAT : Opaque := opaque 4.
Definition DEFAULT_MATERIAL : Opaque := opaque 5.

Definition DEFAULT_FLAGS : Flags.t :=
  {| Flags.picking := FTrue; Flags.enabled := FTrue;
     Flags.transparent := FFalse |}.

(** The default states in the order the module creates them; the position
    in this list is the heap location. *)
Definition default_states : list State.t :=
  createStates (-1) [
    (Some "", PClips []);
    (Some "f", PColortrans None);
    (None, PFlags DEFAULT_FLAGS);
    (None, PLayer (Some {| LayerCore.priority := 0;
                           LayerCore.enabled := true |}));
    (None, PFrameBuf None);
    (Some "", PLights []);
    (None, PMaterial DEFAULT_MATERIAL);
    (Some "", PMorph None);
    (Some "", PPickColor None);
    (None, PListeners []);
    (None, PName None);
    (None, PTag None);
    (Some "", PTexture None);
    (None, PRenderer None);
    (None, PModelTransform _DEFAULT_MAT _DEFAULT_NORMAL_MAT);
    (None, PProjTransform DEFAULT_PROJ_MAT SceneJS_math_ORTHO_OBJ);
    (None, PViewTransform _DEFAULT_MAT _DEFAULT_NORMAL_MAT
             SceneJS_math_LOOKAT_ARRAYS);
    (None, PListeners []);
    (Some "", PShader {| shader_hash := None |});
    (None, PShaderParams None)
  ].

Definition _DEFAULT_CLIP_STATE : loc := 0%nat.
Definition _DEFAULT_COLORTRANS_STATE : loc := 1%nat.
Definition _DEFAULT_FLAGS_STATE : loc := 2%nat.
Definition _DEFAULT_LAYER_STATE : loc := 3%nat.
Definition _DEFAULT_FRAMEBUF_STATE : loc := 4%nat.
Definition _DEFAULT_LIGHTS_STATE : loc := 5%nat.
Definition _DEFAULT_MATERIAL_STATE : loc := 6%nat.
Definition _DEFAULT_MORPH_STATE : loc := 7%nat.
Definition _DEFAULT_PICK_COLOR_STATE : loc := 8%nat.
Definition _DEFAULT_PICK_LISTENERS_STATE : loc := 9%nat.
Definition _DEFAULT_NAME_STATE : loc := 10%nat.
Definition _DEFAULT_TAG_STATE : loc := 11%nat.
Definition _DEFAULT_TEXTURE_STATE : loc := 12%nat.
Definition _DEFAULT_RENDERER_STATE : loc := 13%nat.
Definition _DEFAULT_MODEL_TRANSFORM_STATE : loc := 14%nat.
Definition _DEFAULT_PROJ_TRANSFORM_STATE : loc := 15%nat.
Definition _DEFAULT_VIEW_TRANSFORM_STATE : loc := 16%nat.
Definition _DEFAULT_RENDER_LISTENERS_STATE : loc := 17%nat.
Definition _DEFAULT_SHADER_STATE : loc := 18%nat.
Definition _DEFAULT_SHADER_PARAMS_STATE : loc := 19%nat.

(** The module right after it is loaded. *)
Definition initial : DrawList :=
  {| DL.stateHeap := default_states;
     DL.nodeHeap := [];
     DL.programHeap := [];
     DL._programs := ∅;
     DL.nextProgramId := 0;
     DL._sceneStates := ∅;
     DL._states := None;
     DL._nodeMap := None;
     DL._stateMap := None;
     DL.nextStateId := NaN;
     DL.compileMode := None;
     DL.picking := false;
     DL.soup := ∅;
     DL._stateHash := None;
     DL.transparentBin := [] |}.

(** ** Access to the heaps and to scene state sets *)

Definition state_at (l : loc) : Op State.t :=
  s <- get ;;; deref (DL.stateHeap s !! l).

Definition upd_state (l : loc) (f : State.t → State.t) : Op unit :=
  modify (λ s, DL.with_stateHeap (alter f l (DL.stateHeap s)) s).

Definition node_at (l : loc) : Op Node.t :=
  s <- get ;;; deref (DL.nodeHeap s !! l).

Definition upd_node (l : loc) (f : Node.t → Node.t) : Op unit :=
  modify (λ s, DL.with_nodeHeap (alter f l (DL.nodeHeap s)) s).

Definition program_at (l : loc) : Op Program.t :=
  s <- get ;;; deref (DL.programHeap s !! l).

Definition upd_program (l : loc) (f : Program.t → Program.t) : Op unit :=
  modify (λ s, DL.with_programHeap (alter f l (DL.programHeap s)) s).

Definition scene_at (sceneId : string) : Op Scene.t :=
  s <- get ;;; deref (DL._sceneStates s !! sceneId).

Definition upd_scene (sceneId : string) (f : Scene.t → Scene.t) : Op unit :=
  modify (λ s, DL.with__sceneStates (alter f sceneId (DL._sceneStates s)) s).

(** [this._states], [this._stateMap]: a TypeError when used while null. *)
Definition bound_states : Op string := s <- get ;;; deref (DL._states s).
Definition bound_stateMap : Op string := s <- get ;;; deref (DL._stateMap s).
Definition bound_nodeMap : Op string := s <- get ;;; deref (DL._nodeMap s).

Definition soup_var (stateType : nat) : Op (option loc) :=
  gets (λ s, DL.soup s !! stateType).

Definition set_soup (stateType : nat) (l : loc) : Op unit :=
  modify (λ s, DL.with_soup (<[stateType := l]> (DL.soup s)) s).

Definition is_compile_scene (mode : option nat) : bool :=
  bool_decide (mode = Some COMPILE_SCENE).

(** ** Module reset (the RESET listener) *)

(** The program cache is emptied and program ids start
    again at 0.  The programs themselves stay with the display nodes that
    reference them; their shaders, which the listener destroys, are not part
    of the model. *)
Definition reset : Op unit :=
  modify (DL.with__programs ∅) ;;;
  modify (DL.with_nextProgramId 0).

(** ** Scene creation (the SCENE_CREATED listener) *)

Definition new_scene (sceneId canvasId : string) : Scene.t :=
  {| Scene.sceneId := sceneId;
     Scene.canvasId := canvasId;
     Scene.nodeRenderer :=
       {| Renderer.picking := false; Renderer.pickNameStates := [] |};
     Scene.calls := [];
     Scene.bin := [];
     Scene.lenBin := 0;
     Scene.visibleCacheBin := [];
     Scene.lenVisibleCacheBin := 0;
     Scene.nodeMap := ∅;
     Scene.geoNodesMap := ∅;
     Scene.stateMap := ∅;
     Scene.pickCallListDirty := true;
     Scene.pickBufDirty := true;
     Scene.pickCallFuncsDirty := false;
     Scene.stateSortDirty := false;
     Scene.stateSortIDsDirty := false;
     Scene.pickBuf := None |}.

Definition sceneCreated (sceneId canvasId : string) : Op unit :=
  s <- get ;;;
  match DL._sceneStates s !! sceneId with
  | Some _ => ret tt
  | None =>
      match Object_prototype sceneId with
      | Some _ => ret tt      (* the inherited value is truthy *)
      | None =>
          modify (DL.with__sceneStates
                    (<[sceneId := new_scene sceneId canvasId]>
                       (DL._sceneStates s)))
      end
  end.

(** ** bindScene *)

Definition _forceStateSort (rebuildSortIDs : bool) : Op unit :=
  sid <- bound_states ;;;
  (if rebuildSortIDs
   then upd_scene sid (Scene.with_stateSortIDsDirty rebuildSortIDs)
   else ret tt) ;;;
  upd_scene sid (Scene.with_stateSortDirty true).

(** [this._states = this._sceneStates[sceneId]] followed by the first read
    of [this._states.nodeMap]: a TypeError when there is no such scene.  An
    inherited function would be taken for the scene's state set. *)
Definition scene_to_bind (sceneId : string) : Op Scene.t :=
  s <- get ;;;
  match DL._sceneStates s !! sceneId with
  | Some sc => ret sc
  | None =>
      match Object_prototype sceneId with
      | Some _ => throw (Unmodelled "inherited value bound as scene state")
      | None => throw TypeError
      end
  end.

Definition bindScene (sceneId : string) (compileMode : option nat)
    (resort : bool) : Op unit :=
  _ <- scene_to_bind sceneId ;;;
  modify (DL.with__states (Some sceneId)) ;;;
  modify (DL.with__nodeMap (Some sceneId)) ;;;
  modify (DL.with__stateMap (Some sceneId)) ;;;
  modify (DL.with__stateHash None) ;;;
  (if bool_decide (compileMode = Some COMPILE_SCENE
                   ∨ compileMode = Some COMPILE_BRANCH)
   then
     set_soup _CLIPS _DEFAULT_CLIP_STATE ;;;
     set_soup _COLORTRANS _DEFAULT_COLORTRANS_STATE ;;;
     set_soup _FLAGS _DEFAULT_FLAGS_STATE ;;;
     set_soup _LAYER _DEFAULT_LAYER_STATE ;;;
     set_soup _FRAMEBUF _DEFAULT_FRAMEBUF_STATE ;;;
     set_soup _LIGHTS _DEFAULT_LIGHTS_STATE ;;;
     set_soup _MATERIAL _DEFAULT_MATERIAL_STATE ;;;
     set_soup _MORPH _DEFAULT_MORPH_STATE ;;;
     set_soup _PICKCOLOR _DEFAULT_PICK_COLOR_STATE ;;;
     set_soup _RENDERER _DEFAULT_RENDERER_STATE ;;;
     set_soup _TEXTURE _DEFAULT_TEXTURE_STATE ;;;
     set_soup _MODEL_TRANSFORM _DEFAULT_MODEL_TRANSFORM_STATE ;;;
     set_soup _PROJ_TRANSFORM _DEFAULT_PROJ_TRANSFORM_STATE ;;;
     set_soup _VIEW_TRANSFORM _DEFAULT_VIEW_TRANSFORM_STATE ;;;
     set_soup _NAME _DEFAULT_NAME_STATE ;;;
     set_soup _TAG _DEFAULT_TAG_STATE ;;;
     set_soup _RENDER_LISTENERS _DEFAULT_RENDER_LISTENERS_STATE ;;;
     set_soup _SHADER _DEFAULT_SHADER_STATE ;;;
     set_soup _SHADER_PARAMS _DEFAULT_SHADER_PARAMS_STATE ;;;
     _forceStateSort true ;;;
     (if bool_decide (compileMode = Some COMPILE_SCENE)
      then
        upd_scene sceneId (Scene.with_lenBin 0%nat) ;;;
        modify (DL.with_nextStateId (Num 0)) ;;;
        upd_scene sceneId (Scene.with_nodeMap ∅) ;;;
        upd_scene sceneId (Scene.with_stateMap ∅) ;;;
        upd_scene sceneId (Scene.with_geoNodesMap ∅)
      else ret tt)
   else ret tt) ;;;
  (if bool_decide (compileMode = Some COMPILE_NODES)
   then (if resort then _forceStateSort true else ret tt)
   else ret tt) ;;;
  modify (DL.with_compileMode compileMode) ;;;
  modify (DL.with_picking false).

(** ** State setting/updating *)

(** What [_getState] returns: a state object, or, when [typeMap[id]] is
    inherited from [Object.prototype], that inherited value. *)
Inductive StateRef :=
| OwnState (l : loc)
| InheritedValue (i : Inherited).

(** The callers of [_getState] go on to write the payload on what it
    returned; an inherited value is not a state of this model. *)
Definition own_state (r : StateRef) : Op loc :=
  match r with
  | OwnState l => ret l
  | InheritedValue _ =>
      throw (Unmodelled "inherited value used as state object")
  end.

(** Find or create a state of the given state type and node id. *)
Definition _getState (stateType : nat) (id : JsId) : Op StateRef :=
  sid <- bound_stateMap ;;;
  sc <- scene_at sid ;;;
  let typeMap := default ∅ (Scene.stateMap sc !! stateType) in
  upd_scene sid (λ sc, Scene.with_stateMap
                         (<[stateType := typeMap]> (Scene.stateMap sc)) sc) ;;;
  s <- get ;;;
  let fresh : Op loc :=
    let '(stateId, next) := post_incr (DL.nextStateId s) in
    let state := {| State._id := id; State._stateId := stateId;
                    State._stateType := Some stateType;
                    State._nodeCount := 0; State._default := false;
                    State._sortId := None; State.hash := None;
                    State.payload := PUnset |} in
    modify (DL.with_nextStateId next) ;;;
    modify (λ s, DL.with_stateHeap (DL.stateHeap s ++ [state]) s) ;;;
    ret (length (DL.stateHeap s)) in
  let register (l : loc) : Op unit :=
    upd_scene sid (λ sc, Scene.with_stateMap
                           (<[stateType := <[toKey id := l]> typeMap]>
                              (Scene.stateMap sc)) sc) in
  if negb (is_compile_scene (DL.compileMode s)) then
    match typeMap !! toKey id with
    | Some l => ret (OwnState l)
    | None =>
        match Object_prototype (toKey id) with
        | Some i => ret (InheritedValue i)
        | None => l <- fresh ;;; register l ;;; ret (OwnState l)
        end
    end
  else
    l <- fresh ;;;
    (if truthy id then
       if sets_prototype (toKey id)
       then throw (Unmodelled "type map prototype replaced")
       else register l
     else ret tt) ;;;
    ret (OwnState l).

(** Release a state after detach from a display node.  The entry deleted
    from the type map is [state.id]; state objects have no [id] property
    (their owner id is [_id]), so the key is ["undefined"]. *)
Definition _releaseState (state : loc) : Op unit :=
  st <- state_at state ;;;
  match State._stateType st with
  | None => ret tt
  | Some stateType =>
      if State._nodeCount st <=? 0 then ret tt
      else
        upd_state state (State.with_nodeCount (State._nodeCount st - 1)) ;;;
        if State._nodeCount st - 1 =? 0 then
          sid <- bound_stateMap ;;;
          upd_scene sid (λ sc,
            match Scene.stateMap sc !! stateType with
            | Some typeMap =>
                Scene.with_stateMap
                  (<[stateType := delete (toKey IdUndefined) typeMap]>
                     (Scene.stateMap sc)) sc
            | None => sc
            end)
        else ret tt
  end.

(** ** The category setters

    A setter is called with no arguments at all ([NoArgs]) or with an owner
    id and a payload; a payload that is [null] or [undefined] is [None]. *)

Inductive Args (P : Type) :=
| NoArgs
| WithArgs (id : JsId) (payload : P).
Arguments NoArgs {P}.
Arguments WithArgs {P} id payload.

(** The value of the [id] parameter. *)
Definition arg_id {P} (a : Args P) : JsId :=
  match a with
  | NoArgs => IdUndefined
  | WithArgs id _ => id
  end.

Definition arg_payload {P} (a : Args (option P)) : option P :=
  match a with
  | NoArgs => None
  | WithArgs _ p => p
  end.

Definition compiling_scene : Op bool :=
  gets (λ s, is_compile_scene (DL.compileMode s)).

Definition flag_char (b : bool) : option string :=
  Some (if b then "t" else "f").

Definition setClips (a : Args (option (list Clip))) : Op unit :=
  let id := arg_id a in
  if negb (truthy id) then
    set_soup _CLIPS _DEFAULT_CLIP_STATE ;;;
    modify (DL.with__stateHash None)
  else
    clipState <- bind (_getState _CLIPS id) own_state ;;;
    set_soup _CLIPS clipState ;;;
    let clips := default [] (arg_payload a) in
    full <- compiling_scene ;;;
    (if full then
       upd_state clipState
         (State.with_hash
            (Some (if decide (0 < length clips)%nat
                   then join "" (map (λ clip, Some (clip_mode clip)) clips)
                   else ""))) ;;;
       modify (DL.with__stateHash None)
     else ret tt) ;;;
    upd_state clipState (State.with_payload (PClips clips)).

Definition setColortrans (a : Args (option Opaque)) : Op unit :=
  let id := arg_id a in
  if negb (truthy id) then
    set_soup _COLORTRANS _DEFAULT_COLORTRANS_STATE ;;;
    modify (DL.with__stateHash None)
  else
    colortransState <- bind (_getState _COLORTRANS id) own_state ;;;
    set_soup _COLORTRANS colortransState ;;;
    let core := arg_payload a in
    upd_state colortransState (State.with_payload (PColortrans core)) ;;;
    full <- compiling_scene ;;;
    if full then
      upd_state colortransState
        (State.with_hash (flag_char (bool_decide (is_Some core)))) ;;;
      modify (DL.with__stateHash None)
    else ret tt.

Definition setFlags (a : Args (option Flags.t)) : Op unit :=
  match a with
  | NoArgs => set_soup _FLAGS _DEFAULT_FLAGS_STATE
  | WithArgs id flags =>
      flagsState <- bind (_getState _FLAGS id) own_state ;;;
      set_soup _FLAGS flagsState ;;;
      upd_state flagsState
        (State.with_payload (PFlags (default DEFAULT_FLAGS flags)))
  end.

Definition setLayer (a : Args (option LayerCore.t)) : Op unit :=
  match a with
  | NoArgs => set_soup _LAYER _DEFAULT_LAYER_STATE
  | WithArgs id core =>
      layerState <- bind (_getState _LAYER id) own_state ;;;
      set_soup _LAYER layerState ;;;
      upd_state layerState (State.with_payload (PLayer core))
  end.

Definition setFrameBuf (a : Args (option Opaque)) : Op unit :=
  match a with
  | NoArgs => set_soup _FRAMEBUF _DEFAULT_FRAMEBUF_STATE
  | WithArgs id frameBuf =>
      frameBufState <- bind (_getState _FRAMEBUF id) own_state ;;;
      set_soup _FRAMEBUF frameBufState ;;;
      upd_state frameBufState (State.with_payload (PFrameBuf frameBuf))
  end.

Definition light_hash (light : Light) : list (option string) :=
  [Some (light_mode light)]
  ++ (if light_specular light then [Some "s"] else [])
  ++ (if light_diffuse light then [Some "d"] else []).

Definition setLights (a : Args (option (list Light))) : Op unit :=
  match a with
  | NoArgs =>
      set_soup _LIGHTS _DEFAULT_LIGHTS_STATE ;;;
      modify (DL.with__stateHash None)
  | WithArgs id lights =>
      lightState <- bind (_getState _LIGHTS id) own_state ;;;
      set_soup _LIGHTS lightState ;;;
      let lights := default [] lights in
      full <- compiling_scene ;;;
      (if full then
         upd_state lightState
           (State.with_hash (Some (join "" (lights ≫= light_hash)))) ;;;
         modify (DL.with__stateHash None)
       else ret tt) ;;;
      upd_state lightState (State.with_payload (PLights lights))
  end.

Definition setMaterial (a : Args (option Opaque)) : Op unit :=
  match a with
  | NoArgs => set_soup _MATERIAL _DEFAULT_MATERIAL_STATE
  | WithArgs id material =>
      materialState <- bind (_getState _MATERIAL id) own_state ;;;
      set_soup _MATERIAL materialState ;;;
      upd_state materialState
        (State.with_payload (PMaterial (default DEFAULT_MATERIAL material)))
  end.

Definition setMorph (a : Args (option Morph)) : Op unit :=
  match a with
  | NoArgs =>
      set_soup _MORPH _DEFAULT_MORPH_STATE ;;;
      modify (DL.with__stateHash None)
  | WithArgs id morph =>
      morphState <- bind (_getState _MORPH id) own_state ;;;
      set_soup _MORPH morphState ;;;
      full <- compiling_scene ;;;
      (if full then
         (match morph with
          | Some m =>
              target0 <- deref (targets m !! 0%nat) ;;;
              upd_state morphState
                (State.with_hash
                   (Some (join "" [flag_char (mt_vertexBuf target0);
                                   flag_char (mt_normalBuf target0);
                                   flag_char (mt_uvBuf target0);
                                   flag_char (mt_uvBuf2 target0)])))
          | None => upd_state morphState (State.with_hash (Some ""))
          end) ;;;
         modify (DL.with__stateHash None)
       else ret tt) ;;;
      upd_state morphState (State.with_payload (PMorph morph))
  end.

Definition layer_hash (layer : TexLayer) : list (option string) :=
  [Some "/"; Some (applyFrom layer); Some "/"; Some (applyTo layer);
   Some "/"; Some (blendMode layer)]
  ++ (if matrix layer then [Some "/anim"] else []).

Definition setTexture (a : Args (option TexCore)) : Op unit :=
  match a with
  | NoArgs =>
      set_soup _TEXTURE _DEFAULT_TEXTURE_STATE ;;;
      modify (DL.with__stateHash None)
  | WithArgs id core =>
      texState <- bind (_getState _TEXTURE id) own_state ;;;
      set_soup _TEXTURE texState ;;;
      full <- compiling_scene ;;;
      (if full then
         let hashStr :=
           match core with
           | Some c =>
               if decide (0 < length (layers c))%nat
               then join "" (layers c ≫= layer_hash)
               else "__scenejs_no_tex"
           | None => "__scenejs_no_tex"
           end in
         upd_state texState (State.with_hash (Some hashStr)) ;;;
         modify (DL.with__stateHash None)
       else ret tt) ;;;
      upd_state texState (State.with_payload (PTexture core))
  end.

Definition setRenderer (a : Args (option Opaque)) : Op unit :=
  match a with
  | NoArgs => set_soup _RENDERER _DEFAULT_RENDERER_STATE
  | WithArgs id props =>
      rendererState <- bind (_getState _RENDERER id) own_state ;;;
      set_soup _RENDERER rendererState ;;;
      upd_state rendererState (State.with_payload (PRenderer props)) ;;;
      modify (DL.with__stateHash None)
  end.

Definition setModelTransform (a : Args (option Opaque * option Opaque))
  : Op unit :=
  match a with
  | NoArgs => set_soup _MODEL_TRANSFORM _DEFAULT_MODEL_TRANSFORM_STATE
  | WithArgs id (mat, normalMat) =>
      modelXFormState <- bind (_getState _MODEL_TRANSFORM id) own_state ;;;
      set_soup _MODEL_TRANSFORM modelXFormState ;;;
      upd_state modelXFormState
        (State.with_payload
           (PModelTransform (default _DEFAULT_MAT mat)
              (default _DEFAULT_NORMAL_MAT normalMat)))
  end.

(** [transform] is dereferenced, so it must be an object; its two fields
    may be absent. *)
Definition setProjectionTransform
    (a : Args (option (option Opaque * option Opaque))) : Op unit :=
  match a with
  | NoArgs => set_soup _PROJ_TRANSFORM _DEFAULT_PROJ_TRANSFORM_STATE
  | WithArgs id transform =>
      projXFormState <- bind (_getState _PROJ_TRANSFORM id) own_state ;;;
      set_soup _PROJ_TRANSFORM projXFormState ;;;
      tr <- deref transform ;;;
      let '(matrixAsArray, optics) := tr in
      upd_state projXFormState
        (State.with_payload
           (PProjTransform (default DEFAULT_PROJ_MAT matrixAsArray)
              (default SceneJS_math_ORTHO_OBJ optics)))
  end.

Definition setViewTransform
    (a : Args (option Opaque * option Opaque * option Opaque)) : Op unit :=
  match a with
  | NoArgs => set_soup _VIEW_TRANSFORM _DEFAULT_VIEW_TRANSFORM_STATE
  | WithArgs id (mat, normalMat, lookAt) =>
      viewXFormState <- bind (_getState _VIEW_TRANSFORM id) own_state ;;;
      set_soup _VIEW_TRANSFORM viewXFormState ;;;
      upd_state viewXFormState
        (State.with_payload
           (PViewTransform (default _DEFAULT_MAT mat)
              (default _DEFAULT_NORMAL_MAT normalMat)
              (default SceneJS_math_LOOKAT_ARRAYS lookAt)))
  end.

Definition setName (a : Args (option string)) : Op unit :=
  match a with
  | NoArgs => set_soup _NAME _DEFAULT_NAME_STATE
  | WithArgs id name =>
      nameState <- bind (_getState _NAME id) own_state ;;;
      set_soup _NAME nameState ;;;
      upd_state nameState (State.with_payload (PName name))
  end.

Definition setTag (a : Args (option TagCore.t)) : Op unit :=
  match a with
  | NoArgs => set_soup _TAG _DEFAULT_TAG_STATE
  | WithArgs id core =>
      tagState <- bind (_getState _TAG id) own_state ;;;
      set_soup _TAG tagState ;;;
      upd_state tagState (State.with_payload (PTag core))
  end.

Definition setRenderListeners (a : Args (option (list Opaque))) : Op unit :=
  match a with
  | NoArgs => set_soup _RENDER_LISTENERS _DEFAULT_RENDER_LISTENERS_STATE
  | WithArgs id listeners =>
      renderListenersState <-
        bind (_getState _RENDER_LISTENERS id) own_state ;;;
      set_soup _RENDER_LISTENERS renderListenersState ;;;
      upd_state renderListenersState
        (State.with_payload (PListeners (default [] listeners)))
  end.

Definition setShader (a : Args (option Shader)) : Op unit :=
  match a with
  | NoArgs =>
      set_soup _SHADER _DEFAULT_SHADER_STATE ;;;
      modify (DL.with__stateHash None)
  | WithArgs id shader =>
      shaderState <- bind (_getState _SHADER id) own_state ;;;
      set_soup _SHADER shaderState ;;;
      upd_state shaderState
        (State.with_payload
           (PShader (default {| shader_hash := None |} shader))) ;;;
      sh <- deref shader ;;;
      upd_state shaderState (State.with_hash (shader_hash sh)) ;;;
      modify (DL.with__stateHash None)
  end.

Definition setShaderParams (a : Args (option Opaque)) : Op unit :=
  match a with
  | NoArgs => set_soup _SHADER_PARAMS _DEFAULT_SHADER_PARAMS_STATE
  | WithArgs id paramsStack =>
      shaderParamsState <- bind (_getState _SHADER_PARAMS id) own_state ;;;
      set_soup _SHADER_PARAMS shaderParamsState ;;;
      upd_state shaderParamsState
        (State.with_payload (PShaderParams paramsStack))
  end.

(** ** Shader programs *)

(** [x.hash] for a soup variable [x]. *)
Definition soup_hash (stateType : nat) : Op (option string) :=
  v <- soup_var stateType ;;;
  l <- deref v ;;;
  st <- state_at l ;;;
  ret (State.hash st).

Definition _getSceneHash : Op string :=
  sid <- bound_states ;;;
  sc <- scene_at sid ;;;
  clip <- soup_hash _CLIPS ;;;
  colortrans <- soup_hash _COLORTRANS ;;;
  light <- soup_hash _LIGHTS ;;;
  morph <- soup_hash _MORPH ;;;
  tex <- soup_hash _TEXTURE ;;;
  shader <- soup_hash _SHADER ;;;
  renderer <- soup_hash _RENDERER ;;;
  geo <- soup_hash _GEO ;;;
  ret (join ";" [Some (Scene.canvasId sc); clip; colortrans; light; morph;
                 tex; shader; renderer; geo]).

(** Find or create the program for a state hash.  The program's render and
    pick shaders, composed from the soup, are not part of the model. *)
Definition _getProgram (stateHash : string) : Op loc :=
  s <- get ;;;
  program <-
    match DL._programs s !! stateHash with
    | Some program => ret program
    | None =>
        match Object_prototype stateHash with
        | Some _ => throw (Unmodelled "inherited value used as program")
        | None =>
            let program := length (DL.programHeap s) in
            modify (λ s, DL.with_programHeap
                           (DL.programHeap s
                              ++ [{| Program.id := DL.nextProgramId s;
                                     Program.stateHash := stateHash;
                                     Program.refCount := 0;
                                     Program._sortId := None |}]) s) ;;;
            modify (λ s, DL.with_nextProgramId (DL.nextProgramId s + 1) s) ;;;
            modify (λ s, DL.with__programs
                           (<[stateHash := program]> (DL._programs s)) s) ;;;
            ret program
        end
    end ;;;
  upd_program program
    (λ p, Program.with_refCount (Program.refCount p + 1) p) ;;;
  ret program.

Definition _releaseProgram (program : loc) : Op unit :=
  _ <- program_at program ;;;
  upd_program program
    (λ p, Program.with_refCount (Program.refCount p - 1) p).

(** ** Display nodes *)

(** [x._nodeCount++] for a soup variable [x]; yields the state referenced. *)
Definition count_node (stateType : nat) : Op loc :=
  v <- soup_var stateType ;;;
  l <- deref v ;;;
  st <- state_at l ;;;
  upd_state l (State.with_nodeCount (State._nodeCount st + 1)) ;;;
  ret l.

Definition geo_hash (geo : Geo) : string :=
  join "" [flag_char (normalBuf geo); flag_char (uvBuf geo);
           flag_char (uvBuf2 geo); flag_char (colorBuf geo);
           Some (primitive geo)].

(** [!this._stateHash]. *)
Definition no_hash (h : option string) : bool :=
  match h with
  | None => true
  | Some h => String.eqb h ""
  end.

(** Add a geometry and link it to the currently active states. *)
Definition setGeometry (id : JsId) (geo : Geo) : Op unit :=
  full <- compiling_scene ;;;
  if negb full then
    (* Dynamic state reattachment for scene branch compilation. *)
    nm <- bound_nodeMap ;;;
    sc <- scene_at nm ;;;
    node <- deref (Scene.nodeMap sc !! toKey id) ;;;
    n <- node_at node ;;;
    old <- state_at (Node.renderListenersState n) ;;;
    v <- soup_var _RENDER_LISTENERS ;;;
    renderListenersState <- deref v ;;;
    new <- state_at renderListenersState ;;;
    (if num_neq (State._stateId old) (State._stateId new) then
       _releaseState (Node.renderListenersState n) ;;;
       upd_node node (Node.with_renderListenersState renderListenersState) ;;;
       _ <- count_node _RENDER_LISTENERS ;;; ret tt
     else ret tt) ;;;
    n <- node_at node ;;;
    old <- state_at (Node.flagsState n) ;;;
    v <- soup_var _FLAGS ;;;
    flagsState <- deref v ;;;
    new <- state_at flagsState ;;;
    (if num_neq (State._stateId old) (State._stateId new) then
       _releaseState (Node.flagsState n) ;;;
       upd_node node (Node.with_flagsState flagsState) ;;;
       _ <- count_node _FLAGS ;;; ret tt
     else ret tt)
  else
    old <- soup_var _GEO ;;;
    oldGeoHash <-
      match old with
      | Some l => st <- state_at l ;;; ret (State.hash st)
      | None => ret None
      end ;;;
    geoState <- bind (_getState _GEO id) own_state ;;;
    set_soup _GEO geoState ;;;
    upd_state geoState (State.with_payload (PGeo geo)) ;;;
    upd_state geoState (State.with_hash (Some (geo_hash geo))) ;;;
    (* Identify what GLSL is required for the current state soup elements *)
    s <- get ;;;
    (if no_hash (DL._stateHash s)
        || negb (bool_decide (oldGeoHash = Some (geo_hash geo)))
     then h <- _getSceneHash ;;; modify (DL.with__stateHash (Some h))
     else ret tt) ;;;
    (* Create or re-use a program *)
    s <- get ;;;
    let stateHash := default "" (DL._stateHash s) in
    program <- _getProgram stateHash ;;;
    geoState <- count_node _GEO ;;;
    flagsState <- count_node _FLAGS ;;;
    layerState <- count_node _LAYER ;;;
    rendererState <- count_node _RENDERER ;;;
    lightState <- count_node _LIGHTS ;;;
    colortransState <- count_node _COLORTRANS ;;;
    materialState <- count_node _MATERIAL ;;;
    modelXFormState <- count_node _MODEL_TRANSFORM ;;;
    viewXFormState <- count_node _VIEW_TRANSFORM ;;;
    projXFormState <- count_node _PROJ_TRANSFORM ;;;
    texState <- count_node _TEXTURE ;;;
    pickColorState <- count_node _PICKCOLOR ;;;
    frameBufState <- count_node _FRAMEBUF ;;;
    clipState <- count_node _CLIPS ;;;
    morphState <- count_node _MORPH ;;;
    nameState <- count_node _NAME ;;;
    tagState <- count_node _TAG ;;;
    renderListenersState <- count_node _RENDER_LISTENERS ;;;
    shaderState <- count_node _SHADER ;;;
    shaderParamsState <- count_node _SHADER_PARAMS ;;;
    s <- get ;;;
    let node := length (DL.nodeHeap s) in
    modify (λ s, DL.with_nodeHeap
      (DL.nodeHeap s
         ++ [{| Node.id := id;
                Node.sortId := 0;
                Node.stateHash := stateHash;
                Node.program := program;
                Node.destroyed := false;
                Node.geoState := geoState;
                Node.layerState := layerState;
                Node.flagsState := flagsState;
                Node.rendererState := rendererState;
                Node.lightState := lightState;
                Node.colortransState := colortransState;
                Node.materialState := materialState;
                Node.modelXFormState := modelXFormState;
                Node.viewXFormState := viewXFormState;
                Node.projXFormState := projXFormState;
                Node.texState := texState;
                Node.pickColorState := pickColorState;
                Node.frameBufState := frameBufState;
                Node.clipState := clipState;
                Node.morphState := morphState;
                Node.nameState := nameState;
                Node.tagState := tagState;
                Node.renderListenersState := renderListenersState;
                Node.shaderState := shaderState;
                Node.shaderParamsState := shaderParamsState |}]) s) ;;;
    sid <- bound_states ;;;
    upd_scene sid (λ sc, Scene.with_nodeMap
                           (<[toKey id := node]> (Scene.nodeMap sc)) sc) ;;;
    upd_scene sid (λ sc, Scene.with_lenBin (S (Scene.lenBin sc))
                           (Scene.with_bin
                              (js_set (Scene.bin sc) (Scene.lenBin sc)
                                 (Some node)) sc)) ;;;
    (* Make the display list node findable by its geometry scene node; an
       inherited [geoNodesMap[id]] is truthy and has no [push] *)
    sc <- scene_at sid ;;;
    (match Scene.geoNodesMap sc !! toKey id, Object_prototype (toKey id) with
     | None, Some _ => throw TypeError
     | _, _ => ret tt
     end) ;;;
    upd_scene sid (λ sc,
      let nodes :=
        match Scene.geoNodesMap sc !! toKey id with
        | Some (Some nodes) => nodes
        | _ => []
        end in
      Scene.with_geoNodesMap
        (<[toKey id := Some (nodes ++ [node])]> (Scene.geoNodesMap sc)) sc).

(** Removes a geometry: marks its display nodes destroyed and releases
    their program and states.  The nodes stay in the bin until the next
    bin walk. *)
Definition removeGeometry (sceneId : string) (id : JsId) : Op unit :=
  sceneState <- scene_at sceneId ;;;
  let unregister : Op unit :=
    upd_scene sceneId (λ sc, Scene.with_geoNodesMap
                               (<[toKey id := None]> (Scene.geoNodesMap sc))
                               sc) ;;;
    upd_scene sceneId (Scene.with_lenVisibleCacheBin 0%nat) in
  match Scene.geoNodesMap sceneState !! toKey id with
  | Some None => ret tt
  | Some (Some nodes) =>
      for_each (λ node,
        upd_node node (Node.with_destroyed true) ;;;
        n <- node_at node ;;;
        _releaseProgram (Node.program n) ;;;
        _releaseState (Node.geoState n) ;;;
        _releaseState (Node.flagsState n) ;;;
        _releaseState (Node.layerState n) ;;;
        _releaseState (Node.rendererState n) ;;;
        _releaseState (Node.lightState n) ;;;
        _releaseState (Node.colortransState n) ;;;
        _releaseState (Node.materialState n) ;;;
        _releaseState (Node.modelXFormState n) ;;;
        _releaseState (Node.viewXFormState n) ;;;
        _releaseState (Node.projXFormState n) ;;;
        _releaseState (Node.texState n) ;;;
        _releaseState (Node.pickColorState n) ;;;
        _releaseState (Node.frameBufState n) ;;;
        _releaseState (Node.clipState n) ;;;
        _releaseState (Node.morphState n) ;;;
        _releaseState (Node.nameState n) ;;;
        _releaseState (Node.tagState n) ;;;
        _releaseState (Node.renderListenersState n) ;;;
        _releaseState (Node.shaderState n) ;;;
        _releaseState (Node.shaderParamsState n)) nodes ;;;
      unregister
  | None =>
      (* [nodes] is what [Object.prototype] has under the key *)
      match Object_prototype (toKey id) with
      | None => ret tt
      | Some (InheritedFunction 0) =>
          (* a function whose [length] is 0: the loop does not run *)
          unregister
      | Some (InheritedFunction _) =>
          (* [nodes[0]] is [undefined] *)
          throw TypeError
      | Some InheritedPrototype =>
          (* [nodes.length] is [undefined]: the loop does not run, and
             the assignment replaces the prototype of [geoNodesMap] *)
          throw (Unmodelled "geoNodesMap prototype replaced")
      end
  end.

(** ** Bin pre-sorting *)

(** [node.layerState.core]. *)
Definition layer_core (n : Node.t) : Op LayerCore.t :=
  st <- state_at (Node.layerState n) ;;;
  match State.payload st with
  | PLayer (Some core) => ret core
  | _ => throw TypeError
  end.

Definition _createStateStateSortIDs (bin : list (option loc)) : Op unit :=
  sid <- bound_states ;;;
  sc <- scene_at sid ;;;
  if Scene.stateSortIDsDirty sc then
    for_each (λ entry,
      node <- deref entry ;;;
      n <- node_at node ;;;
      core <- layer_core n ;;;
      program <- program_at (Node.program n) ;;;
      upd_node node
        (Node.with_sortId
           (LayerCore.priority core * 100000 + Program.id program))) bin ;;;
    upd_scene sid (Scene.with_stateSortIDsDirty false)
  else ret tt.

(** [a != b] where [b] may still be [undefined]. *)
Definition changed {A} `{EqDecision A} (a : A) (last : option A) : bool :=
  negb (bool_decide (last = Some a)).

(** The tiered sort ids.  Nothing in the module calls this function.  Both
    loops run from the end of the bin to its start.  (A [_sortId] that is
    still absent in the second loop would make the sum [NaN]; here it
    raises.) *)
Definition _createStateStateSortIDsNew (bin : list (option loc)) : Op unit :=
  sid <- bound_states ;;;
  sc <- scene_at sid ;;;
  if Scene.stateSortIDsDirty sc then
    counts <-
      for_loop (λ k '(lastProgramId, lastTextureId, lastGeometryId,
                       numPrograms, numTextures, numGeometries),
        let i := (length bin - 1 - k)%nat in
        node <- deref (js_get bin i) ;;;
        n <- node_at node ;;;
        program <- program_at (Node.program n) ;;;
        '(lastProgramId, numPrograms) <-
          (if changed (Program.id program) lastProgramId then
             upd_program (Node.program n)
               (Program.with_sortId (Some numPrograms)) ;;;
             ret (Some (Program.id program), numPrograms + 1)
           else ret (lastProgramId, numPrograms)) ;;;
        texState <- state_at (Node.texState n) ;;;
        '(lastTextureId, numTextures) <-
          (if match lastTextureId with
              | Some last => num_neq (State._stateId texState) last
              | None => true
              end then
             upd_state (Node.texState n)
               (State.with_sortId (Some numTextures)) ;;;
             ret (Some (State._stateId texState), numTextures + 1)
           else ret (lastTextureId, numTextures)) ;;;
        geoState <- state_at (Node.geoState n) ;;;
        '(lastGeometryId, numGeometries) <-
          (if match lastGeometryId with
              | Some last => num_neq (State._stateId geoState) last
              | None => true
              end then
             upd_state (Node.geoState n)
               (State.with_sortId (Some numGeometries)) ;;;
             ret (Some (State._stateId geoState), numGeometries + 1)
           else ret (lastGeometryId, numGeometries)) ;;;
        ret (lastProgramId, lastTextureId, lastGeometryId,
             numPrograms, numTextures, numGeometries))
        0 (length bin) (None, None, None, 0, 0, 0) ;;;
    let '(_, _, _, numPrograms, numTextures, numGeometries) := counts in
    for_loop (λ k _,
      let i := (length bin - 1 - k)%nat in
      node <- deref (js_get bin i) ;;;
      n <- node_at node ;;;
      core <- layer_core n ;;;
      program <- program_at (Node.program n) ;;;
      texState <- state_at (Node.texState n) ;;;
      geoState <- state_at (Node.geoState n) ;;;
      texSortId <- deref (State._sortId texState) ;;;
      geoSortId <- deref (State._sortId geoState) ;;;
      upd_node node
        (Node.with_sortId
           (LayerCore.priority core * numPrograms * numTextures
            + Program.id program * numTextures
            + texSortId * numGeometries
            + geoSortId)))
      0 (length bin) tt ;;;
    upd_scene sid (Scene.with_stateSortIDsDirty false)
  else ret tt.

Definition sortId_of (nodes : list Node.t) (node : loc) : Z :=
  default 0 (Node.sortId <$> nodes !! node).

Definition _stateSortNodes (nodes : list Node.t) (a b : loc) : Z :=
  sortId_of nodes a - sortId_of nodes b.

(** [Array.prototype.sort]: the defined elements in comparator order, then
    the holes.  The order among elements that compare equal is up to the
    engine; a merge sort stands for it. *)
Definition cmp_le (cmp : loc → loc → Z) (a b : loc) : Prop := cmp a b ≤ 0.

#[global] Instance cmp_le_dec cmp a b : Decision (cmp_le cmp a b).
Proof. unfold cmp_le. apply _. Defined.

Definition js_sort (cmp : loc → loc → Z) (l : list (option loc))
  : list (option loc) :=
  (Some <$> merge_sort (cmp_le cmp) (omap id l))
  ++ replicate (length l - length (omap id l)) None.

(** Presorts the bin by layer and shader program. *)
Definition _stateSortBins : Op unit :=
  sid <- bound_states ;;;
  states <- scene_at sid ;;;
  (if Scene.stateSortIDsDirty states
   then _createStateStateSortIDs (Scene.bin states)
   else ret tt) ;;;
  upd_scene sid (λ sc, Scene.with_bin
                         (js_set_length (Scene.bin sc) (Scene.lenBin sc)) sc) ;;;
  s <- get ;;;
  upd_scene sid (λ sc, Scene.with_bin
                         (js_sort (_stateSortNodes (DL.nodeHeap s))
                            (Scene.bin sc)) sc) ;;;
  upd_scene sid (Scene.with_lenVisibleCacheBin 0%nat).

(** ** The collaborators' side *)

Definition log_call (sceneId : string) (c : Call) : Op unit :=
  upd_scene sceneId (λ sc, Scene.with_calls (Scene.calls sc ++ [c]) sc).

(** Modelled from the spec: the node renderer (SceneJS_DrawListRenderer is
    not among the sources).  In picking mode "nodes are assigned picking
    colors by their rendering order in this pass": the node drawn gets the
    next free index of [pickNameStates], which records its name state, and
    the pick buffer receives the node under that index.  A pass that starts
    in picking mode starts a new [pickNameStates]. *)
Definition renderer_init (sceneId : string) (picking : bool) : Op unit :=
  log_call sceneId (RendererInit picking) ;;;
  upd_scene sceneId (λ sc,
    Scene.with_nodeRenderer
      {| Renderer.picking := picking;
         Renderer.pickNameStates :=
           if picking then []
           else Renderer.pickNameStates (Scene.nodeRenderer sc) |} sc).

(** Modelled from the spec: [nodeRenderer.renderNode(node)], see
    [renderer_init]. *)
Definition renderNode (sceneId : string) (node : loc) : Op unit :=
  log_call sceneId (RenderNode node) ;;;
  sc <- scene_at sceneId ;;;
  let r := Scene.nodeRenderer sc in
  if Renderer.picking r then
    n <- node_at node ;;;
    let index := length (Renderer.pickNameStates r) in
    upd_scene sceneId (λ sc,
      Scene.with_pickBuf
        ((λ drawn, drawn ++ [(node, index)]) <$> Scene.pickBuf sc)
        (Scene.with_nodeRenderer
           {| Renderer.picking := true;
              Renderer.pickNameStates :=
                Renderer.pickNameStates r ++ [Node.nameState n] |} sc))
  else ret tt.

Definition renderer_cleanup (sceneId : string) : Op unit :=
  log_call sceneId RendererCleanup.

(** A pixel as read back: four bytes. *)
Record Pixel := { pix0 : Z; pix1 : Z; pix2 : Z; pix3 : Z }.

(** Modelled from the spec: the pick colour of the node with pick index
    [k] is [(k+1) mod 256, ((k+1)>>8) mod 256, ((k+1)>>16) mod 256]. *)
Definition encodePickColor (k : Z) : Pixel :=
  {| pix0 := (k + 1) mod 256;
     pix1 := ((k + 1) ≫ 8) mod 256;
     pix2 := ((k + 1) ≫ 16) mod 256;
     pix3 := 255 |}.

(** The GPU's rasterisation: given the nodes drawn into a buffer since it
    was cleared, in drawing order, and a pixel position, the position in
    that list of the node whose fragment is visible there, if any. *)
Definition Raster := list loc → Z → Z → option nat.

(** Modelled from the spec: [pickBuf.read(x, y)] (SceneJS_PickBuffer is not
    among the sources).  A cleared pixel is black. *)
Definition pickBuf_read (raster : Raster) (drawn : list (loc * nat))
    (canvasX canvasY : Z) : Pixel :=
  match raster (drawn.*1) canvasX canvasY ≫= (drawn !!.) with
  | Some (_, index) => encodePickColor (Z.of_nat index)
  | None => {| pix0 := 0; pix1 := 0; pix2 := 0; pix3 := 0 |}
  end.

(** ** Rendering *)

Record TagSelector := { ts_mask : string; ts_regex : string → bool }.

(** [node.flagsState.flags]. *)
Definition node_flags (n : Node.t) : Op Flags.t :=
  st <- state_at (Node.flagsState n) ;;;
  match State.payload st with
  | PFlags flags => ret flags
  | _ => throw TypeError
  end.

(** The tag-matching block of the bin walk: whether the node is skipped.
    The match result is cached on the tag core together with the mask it
    was computed for. *)
Definition skip_unmatched_tag (tagSelector : option TagSelector) (n : Node.t)
  : Op bool :=
  match tagSelector with
  | None => ret false
  | Some sel =>
      if String.eqb (ts_mask sel) "" then ret false
      else
        st <- state_at (Node.tagState n) ;;;
        match State.payload st with
        | PTag (Some tagCore) =>
            if negb (bool_decide (TagCore.mask tagCore = Some (ts_mask sel)))
            then
              let matches := ts_regex sel (TagCore.tag tagCore) in
              upd_state (Node.tagState n)
                (State.with_payload
                   (PTag (Some {| TagCore.tag := TagCore.tag tagCore;
                                  TagCore.mask := Some (ts_mask sel);
                                  TagCore.matches := matches |}))) ;;;
              ret (negb matches)
            else ret (negb (TagCore.matches tagCore))
        | _ => ret false
        end
  end.

Definition _renderDrawList (sceneId : string) (picking : bool)
    (tagSelector : option TagSelector) : Op unit :=
  states <- scene_at sceneId ;;;
  let lenVisibleCacheBin := Scene.lenVisibleCacheBin states in
  nTransparent <-
    (if decide (0 < lenVisibleCacheBin)%nat then
       (* Render visible cache bin, build transparent bin *)
       for_loop (λ i nTransparent,
         node <- deref (js_get (Scene.visibleCacheBin states) i) ;;;
         n <- node_at node ;;;
         flags <- node_flags n ;;;
         if picking && is_false_strict (Flags.picking flags) then
           ret nTransparent
         else if negb picking && is_true_strict (Flags.transparent flags)
         then
           modify (λ s, DL.with_transparentBin
                          (js_set (DL.transparentBin s) nTransparent
                             (Some node)) s) ;;;
           ret (S nTransparent)
         else
           renderNode sceneId node ;;; ret nTransparent)
         0 lenVisibleCacheBin 0%nat
     else
       (* Render main node bin, build visible cache bin and transparent
          bin; destroyed nodes are sliced out of the bin array *)
       let len := Scene.lenBin states in
       '(countDestroyed, nTransparent) <-
         for_loop (λ i '(countDestroyed, nTransparent),
           sc <- scene_at sceneId ;;;
           node <- deref (js_get (Scene.bin sc) i) ;;;
           n <- node_at node ;;;
           if Node.destroyed n then
             if decide (i < len)%nat then
               let countDestroyed := S countDestroyed in
               upd_scene sceneId (λ sc,
                 Scene.with_bin
                   (js_set (Scene.bin sc) i
                      (js_get (Scene.bin sc) (i + countDestroyed))) sc) ;;;
               ret (countDestroyed, nTransparent)
             else ret (countDestroyed, nTransparent)
           else
             (if decide (0 < countDestroyed)%nat then
                upd_scene sceneId (λ sc,
                  Scene.with_bin
                    (js_set (Scene.bin sc) i
                       (js_get (Scene.bin sc) (i + countDestroyed))) sc)
              else ret tt) ;;;
             flags <- node_flags n ;;;
             if is_false_strict (Flags.enabled flags) then
               ret (countDestroyed, nTransparent)
             else
               skip <- skip_unmatched_tag tagSelector n ;;;
               if skip : bool then ret (countDestroyed, nTransparent)
               else
                 core <- layer_core n ;;;
                 if negb (LayerCore.enabled core) then
                   ret (countDestroyed, nTransparent)
                 else if picking && is_false_strict (Flags.picking flags)
                 then ret (countDestroyed, nTransparent)
                 else
                   nTransparent <-
                     (if negb picking
                         && is_true_strict (Flags.transparent flags)
                      then
                        modify (λ s, DL.with_transparentBin
                                       (js_set (DL.transparentBin s)
                                          nTransparent (Some node)) s) ;;;
                        ret (S nTransparent)
                      else
                        renderNode sceneId node ;;; ret nTransparent) ;;;
                   upd_scene sceneId (λ sc,
                     Scene.with_lenVisibleCacheBin
                       (S (Scene.lenVisibleCacheBin sc))
                       (Scene.with_visibleCacheBin
                          (js_set (Scene.visibleCacheBin sc)
                             (Scene.lenVisibleCacheBin sc) (Some node))
                          sc)) ;;;
                   ret (countDestroyed, nTransparent))
           0 len (0%nat, 0%nat) ;;;
       (if decide (0 < countDestroyed)%nat then
          sc <- scene_at sceneId ;;;
          if decide (length (Scene.bin sc) < countDestroyed)%nat
          then throw RangeError
          else
            let n := (length (Scene.bin sc) - countDestroyed)%nat in
            upd_scene sceneId (λ sc,
              Scene.with_lenBin n
                (Scene.with_bin (js_set_length (Scene.bin sc) n) sc))
        else ret tt) ;;;
       ret nTransparent) ;;;
  (* Render transparent bin, blending enabled *)
  if decide (0 < nTransparent)%nat then
    log_call sceneId Enable_BLEND ;;;
    log_call sceneId BlendFunc_SRC_ALPHA ;;;
    for_loop (λ i _,
      s <- get ;;;
      node <- deref (js_get (DL.transparentBin s) i) ;;;
      renderNode sceneId node) 0 nTransparent tt ;;;
    log_call sceneId Disable_BLEND
  else ret tt.

Record RenderParams := {
  profileFunc : bool;                    (* whether a callback is given *)
  rp_tagSelector : option TagSelector
}.

Definition renderFrame (params : RenderParams) : Op unit :=
  s <- get ;;;
  match DL._states s with
  | None => throw (FatalError "No scene bound")
  | Some sid =>
      upd_scene sid (Scene.with_pickBufDirty true) ;;;
      states <- scene_at sid ;;;
      sorted <-
        (if Scene.stateSortDirty states then
           _stateSortBins ;;;
           upd_scene sid (Scene.with_stateSortDirty false) ;;;
           ret true
         else ret false) ;;;
      let drawCallListDirty :=
        sorted
        || bool_decide (DL.compileMode s = Some COMPILE_SCENE)
        || bool_decide (DL.compileMode s = Some COMPILE_BRANCH) in
      let drawCallFuncsDirty :=
        bool_decide (DL.compileMode s = Some COMPILE_SCENE) in
      (if drawCallListDirty then
         upd_scene sid (Scene.with_pickCallListDirty drawCallListDirty) ;;;
         upd_scene sid (Scene.with_pickCallFuncsDirty drawCallFuncsDirty)
       else ret tt) ;;;
      renderer_init sid false ;;;
      _renderDrawList sid false (rp_tagSelector params) ;;;
      renderer_cleanup sid ;;;
      modify (DL.with__states None)  (* Unbind scene *)
  end.

(** ** Picking *)

Record Hit := { name : option string }.

Definition pickedNodeIndex (pix : Pixel) : Z :=
  pix0 pix + pix1 pix * 256 + pix2 pix * 65536.

Definition pickIndex (pix : Pixel) : Z :=
  if 1 <=? pickedNodeIndex pix then pickedNodeIndex pix - 1 else -1.

(** [nodeRenderer.pickNameStates[pickIndex]]: map pixel to name state. *)
Definition pickNameState (pickNameStates : list loc) (pix : Pixel)
  : option loc :=
  if pickIndex pix <? 0 then None
  else pickNameStates !! Z.to_nat (pickIndex pix).

(** The colour-indexed pick.  The ray-pick branch is not modelled:
    [params.rayPick] is taken to be absent. *)
Definition pick (raster : Raster) (sceneId : string) (canvasX canvasY : Z)
    (tagSelector : option TagSelector) : Op (option Hit) :=
  s <- get ;;;
  match DL._sceneStates s !! sceneId with
  | None =>
      match Object_prototype sceneId with
      | Some _ => throw TypeError   (* [states.canvas] is [undefined] *)
      | None =>
          throw (Thrown ("No drawList found for scene '" +:+ sceneId
                         +:+ "'"))
      end
  | Some states =>
      (* Lazy-create pick buffer *)
      (match Scene.pickBuf states with
       | Some _ => ret tt
       | None =>
           upd_scene sceneId (Scene.with_pickBuf (Some [])) ;;;
           upd_scene sceneId (Scene.with_pickBufDirty true)
       end) ;;;
      log_call sceneId PickBufBind ;;;
      states <- scene_at sceneId ;;;
      (if Scene.pickCallListDirty states || Scene.pickBufDirty states then
         (* Render pick buffer *)
         log_call sceneId PickBufClear ;;;
         upd_scene sceneId (Scene.with_pickBuf (Some [])) ;;;
         renderer_init sceneId true ;;;
         _renderDrawList sceneId true tagSelector ;;;
         renderer_cleanup sceneId ;;;
         upd_scene sceneId (Scene.with_pickCallListDirty false) ;;;
         upd_scene sceneId (Scene.with_pickCallFuncsDirty false) ;;;
         upd_scene sceneId (Scene.with_pickBufDirty false)
       else ret tt) ;;;
      states <- scene_at sceneId ;;;
      let pix := pickBuf_read raster (default [] (Scene.pickBuf states))
                   canvasX canvasY in
      log_call sceneId PickBufUnbind ;;;
      match pickNameState
              (Renderer.pickNameStates (Scene.nodeRenderer states)) pix with
      | Some l =>
          st <- state_at l ;;;
          ret (Some {| name := match State.payload st with
                               | PName name => name
                               | _ => None
                               end |})
      | None => ret None
      end
  end.

(** * Properties *)

(** ** Reasoning about monadic code *)

Section MonadLemmas.
Context {S : Type}.
Implicit Types s : S.

Lemma bind_Ok {A B} (m : M S A) (k : A → M S B) s r :
    bind m k s = Ok r ↔ ∃ a s', m s = Ok (a, s') ∧ k a s' = Ok r.
  Proof.
    unfold bind. destruct (m s) as [[a s']|e]; split.
    - eauto.
    - by intros (? & ? & [= -> ->] & ?).
    - done.
    - by intros (? & ? & ? & ?).
  Qed.

Lemma bind_Err {A B} (m : M S A) (k : A → M S B) s e :
    m s = Err e → bind m k s = Err e.
  Proof. unfold bind. by intros ->. Qed.

Lemma bind_step {A B} (m : M S A) (k : A → M S B) s a s' :
    m s = Ok (a, s') → bind m k s = k a s'.
  Proof. unfold bind. by intros ->. Qed.

Lemma deref_Ok {A} (o : option A) s a s' :
    deref o s = Ok (a, s') ↔ o = Some a ∧ s' = s.
  Proof.
    destruct o; unfold deref, ret, throw; split; try naive_solver.
  Qed.
End MonadLemmas.

(** Decompose a hypothesis stating that a monadic computation succeeded. *)
Ltac inv_op_step :=
  match goal with
  | H : bind _ _ _ = Ok _ |- _ =>
      apply bind_Ok in H; destruct H as (? & ? & ? & H)
  | H : deref _ _ = Ok _ |- _ =>
      apply deref_Ok in H; destruct H as [? ?]; subst
  | H : ret _ _ = Ok _ |- _ => unfold ret in H; simplify_eq
  | H : get _ = Ok _ |- _ => unfold get in H; simplify_eq
  | H : gets _ _ = Ok _ |- _ => unfold gets in H; simplify_eq
  | H : modify _ _ = Ok _ |- _ => unfold modify in H; simplify_eq
  | H : throw _ _ = Ok _ |- _ => discriminate H
  | H : Ok _ = Ok _ |- _ => simplify_eq
  | H : Err _ = Ok _ |- _ => discriminate H
  end.
Ltac inv_op := repeat inv_op_step.

(** ** Pick ids *)

Lemma pickedNodeIndex_encode (k : Z) :
  0 ≤ k ≤ 16777214 → pickedNodeIndex (encodePickColor k) = k + 1.
Proof.
  intros Hk. unfold pickedNodeIndex, encodePickColor; simpl.
  rewrite !Z.shiftr_div_pow2 by lia.
  change (2 ^ 8) with 256. change (2 ^ 16) with 65536.
  assert (H1 : (k + 1) / 65536 < 256)
    by (apply Z.div_lt_upper_bound; lia).
  assert (H0 : 0 ≤ (k + 1) / 65536) by (apply Z.div_pos; lia).
  rewrite (Z.mod_small ((k + 1) / 65536) 256) by lia.
  pose proof (Z.div_mod (k + 1) 256 ltac:(lia)) as E1.
  pose proof (Z.div_mod ((k + 1) / 256) 256 ltac:(lia)) as E2.
  rewrite Z.div_div in E2 by lia. change (256 * 256) with 65536 in E2.
  lia.
Qed.

(** What [pick] returns, in terms of the scene state it leaves behind. *)
Lemma pick_hit_spec raster sceneId canvasX canvasY tagSelector s hit s' :
  pick raster sceneId canvasX canvasY tagSelector s = Ok (hit, s') →
  ∃ states,
    DL._sceneStates s' !! sceneId = Some states
    ∧ match pickNameState
              (Renderer.pickNameStates (Scene.nodeRenderer states))
              (pickBuf_read raster (default [] (Scene.pickBuf states))
                 canvasX canvasY) with
      | Some l => ∃ st, DL.stateHeap s' !! l = Some st
                        ∧ hit = Some {| name := match State.payload st with
                                                | PName name => name
                                                | _ => None
                                                end |}
      | None => hit = None
      end.
Proof.
  intros Hpick. unfold pick in Hpick. inv_op.
  destruct (DL._sceneStates _ !! sceneId) as [st0|] eqn:Hst0;
    [|by destruct (Object_prototype sceneId)].
  inv_op. unfold scene_at in *. inv_op.
  match goal with
  | H : log_call _ PickBufUnbind _ = Ok _ |- _ =>
      unfold log_call, upd_scene in H; inv_op
  end.
  match goal with
  | Hp : match pickNameState (Renderer.pickNameStates
                                (Scene.nodeRenderer ?st)) _ with _ => _ end
           _ = _,
    H : DL._sceneStates _ !! sceneId = Some ?st |- _ =>
      exists (Scene.with_calls (Scene.calls st ++ [PickBufUnbind]) st);
      destruct (pickNameState _ _) as [l|] eqn:Hl;
      unfold state_at in Hp; inv_op; simpl;
      rewrite lookup_alter_eq, H; simpl; try rewrite Hl; eauto
  end.
Qed.

(** C2.  For every node index [k] in [[0, 16777214]], the pick colour
    [(k+1) mod 256, ((k+1)>>8) mod 256, ((k+1)>>16) mod 256] decodes under
    the pick routine's [r + g*256 + b*65536] to [k + 1], so subtracting 1
    recovers [k] and the routine's pick index is [k]; and whenever the pixel
    read back decodes to 0, no name state is looked up and [pick] returns
    [null]. *)
Theorem C2_pick_id_roundtrip (k : Z) :
  0 ≤ k ≤ 16777214 →
  pickedNodeIndex (encodePickColor k) - 1 = k
  ∧ pickIndex (encodePickColor k) = k
  ∧ (∀ pickNameStates pix,
       pickedNodeIndex pix = 0 → pickNameState pickNameStates pix = None)
  ∧ (∀ raster sceneId canvasX canvasY tagSelector s hit s' states,
       pick raster sceneId canvasX canvasY tagSelector s = Ok (hit, s') →
       DL._sceneStates s' !! sceneId = Some states →
       pickedNodeIndex
         (pickBuf_read raster (default [] (Scene.pickBuf states))
            canvasX canvasY) = 0 →
       hit = None).
Proof.
  intros Hk. pose proof (pickedNodeIndex_encode k Hk) as E.
  assert (Hzero : ∀ pns pix,
             pickedNodeIndex pix = 0 → pickNameState pns pix = None).
  { intros pns pix H0. unfold pickNameState, pickIndex. rewrite H0. done. }
  repeat split.
  - lia.
  - unfold pickIndex. rewrite E.
    destruct (1 <=? k + 1) eqn:Hle; [lia|]. apply Z.leb_gt in Hle. lia.
  - exact Hzero.
  - intros raster sceneId x y sel s hit s' states Hpick Hsc Hpix.
    apply pick_hit_spec in Hpick as (states' & Hsc' & Hhit).
    rewrite Hsc in Hsc'. injection Hsc' as <-.
    by rewrite (Hzero _ _ Hpix) in Hhit.
Qed.

(** C2 at node index 70000. *)
Lemma C2_pick_id_roundtrip_witness :
  pickIndex (encodePickColor 70000) = 70000.
Proof. apply (C2_pick_id_roundtrip 70000). lia. Defined.

(** ** The composite scene hash *)

(** The hash fragment of a soup variable: [None] if the variable is
    undefined, [Some None] if the state it points to has no [hash]. *)
Definition soup_hash_of (s : DrawList) (stateType : nat)
  : option (option string) :=
  DL.soup s !! stateType ≫= λ l, State.hash <$> DL.stateHeap s !! l.

Lemma soup_hash_Ok s stateType h :
  soup_hash_of s stateType = Some h → soup_hash stateType s = Ok (h, s).
Proof.
  unfold soup_hash_of, soup_hash, soup_var, state_at, gets, get, bind.
  destruct (DL.soup s !! stateType) as [l|]; [simpl|done].
  destruct (DL.stateHeap s !! l) as [st|]; [simpl|done].
  by intros [= <-].
Qed.

(** C5.  Whenever a scene is bound and the eight soup variables are set,
    [_getSceneHash] returns, without changing any state, the canvas id
    followed by the clip, colour-transform, lights, morph, texture, shader,
    renderer and geometry hash fragments, in exactly this order, separated
    by [";"] (a state without a hash contributes the empty fragment). *)
Theorem C5_scene_hash_order s sid sc clip colortrans light morph tex shader
    renderer geo :
  DL._states s = Some sid →
  DL._sceneStates s !! sid = Some sc →
  soup_hash_of s _CLIPS = Some clip →
  soup_hash_of s _COLORTRANS = Some colortrans →
  soup_hash_of s _LIGHTS = Some light →
  soup_hash_of s _MORPH = Some morph →
  soup_hash_of s _TEXTURE = Some tex →
  soup_hash_of s _SHADER = Some shader →
  soup_hash_of s _RENDERER = Some renderer →
  soup_hash_of s _GEO = Some geo →
  _getSceneHash s
  = Ok (Scene.canvasId sc +:+ ";" +:+ default "" clip
        +:+ ";" +:+ default "" colortrans
        +:+ ";" +:+ default "" light
        +:+ ";" +:+ default "" morph
        +:+ ";" +:+ default "" tex
        +:+ ";" +:+ default "" shader
        +:+ ";" +:+ default "" renderer
        +:+ ";" +:+ default "" geo, s).
Proof.
  intros Hb Hsc H1 H2 H3 H4 H5 H6 H7 H8. unfold _getSceneHash.
  rewrite (bind_step _ _ s sid s)
    by (unfold bound_states, get, bind; by rewrite Hb).
  rewrite (bind_step _ _ s sc s)
    by (unfold scene_at, get, bind; by rewrite Hsc).
  rewrite (bind_step _ _ s _ s (soup_hash_Ok _ _ _ H1)).
  rewrite (bind_step _ _ s _ s (soup_hash_Ok _ _ _ H2)).
  rewrite (bind_step _ _ s _ s (soup_hash_Ok _ _ _ H3)).
  rewrite (bind_step _ _ s _ s (soup_hash_Ok _ _ _ H4)).
  rewrite (bind_step _ _ s _ s (soup_hash_Ok _ _ _ H5)).
  rewrite (bind_step _ _ s _ s (soup_hash_Ok _ _ _ H6)).
  rewrite (bind_step _ _ s _ s (soup_hash_Ok _ _ _ H7)).
  rewrite (bind_step _ _ s _ s (soup_hash_Ok _ _ _ H8)).
  reflexivity.
Qed.

(** ** Frame reasoning

    [frame f m]: the computation [m], when it returns, leaves the
    observation [f] of the state as it was. *)

Definition frame {X A} (f : DrawList → X) (m : Op A) : Prop :=
  ∀ s a s', m s = Ok (a, s') → f s' = f s.

Section Frame.
Context {X : Type} (f : DrawList → X).

Lemma frame_ret {A} (a : A) : frame f (ret a).
  Proof. intros s b s' H. unfold ret in H. by simplify_eq. Qed.

Lemma frame_throw {A} e : frame f (throw e : Op A).
  Proof. intros s b s' H. discriminate H. Qed.

Lemma frame_get : frame f get.
  Proof. intros s b s' H. unfold get in H. by simplify_eq. Qed.

Lemma frame_gets {A} (g : DrawList → A) : frame f (gets g).
  Proof. intros s b s' H. unfold gets in H. by simplify_eq. Qed.

Lemma frame_deref {A} (o : option A) : frame f (deref o).
  Proof. intros s b s' H. apply deref_Ok in H as [_ ->]. done. Qed.

Lemma frame_modify (g : DrawList → DrawList) :
    (∀ s, f (g s) = f s) → frame f (modify g).
  Proof. intros Hg s b s' H. unfold modify in H. simplify_eq. apply Hg. Qed.

Lemma frame_bind {A B} (m : Op A) (k : A → Op B) :
    frame f m → (∀ a, frame f (k a)) → frame f (bind m k).
  Proof.
    intros Hm Hk s b s' H. apply bind_Ok in H as (a & s1 & H1 & H2).
    rewrite (Hk _ _ _ _ H2). eauto.
  Qed.

Lemma frame_for_each {A} (body : A → Op unit) xs :
    (∀ x, frame f (body x)) → frame f (for_each body xs).
  Proof.
    intros Hb. induction xs as [|x xs IH]; simpl.
    - apply frame_ret.
    - apply frame_bind; auto.
  Qed.

Lemma frame_for_loop {A} (body : nat → A → Op A) start n acc :
    (∀ i a, frame f (body i a)) → frame f (for_loop body start n acc).
  Proof.
    intros Hb. revert start acc.
    induction n as [|n IH]; intros start acc; simpl.
    - apply frame_ret.
    - apply frame_bind; auto.
  Qed.
End Frame.

(** Observations of the state. *)
Definition geoMaps (s : DrawList) : gmap string (gmap string (option (list loc))) :=
  Scene.geoNodesMap <$> DL._sceneStates s.

Lemma fmap_alter_same {A B} (g : A → B) (h : A → A) (i : string)
    (m : gmap string A) :
  (∀ x, g (h x) = g x) → g <$> alter h i m = g <$> m.
Proof.
  intros Hg. apply map_eq. intros j. rewrite !lookup_fmap.
  destruct (decide (i = j)) as [->|Hne].
  - rewrite lookup_alter_eq. destruct (m !! j); simpl; by rewrite ?Hg.
  - by rewrite lookup_alter_ne.
Qed.

Lemma frame_upd_scene {B} (g : Scene.t → B) sceneId (h : Scene.t → Scene.t) :
  (∀ sc, g (h sc) = g sc) →
  frame (λ s, g <$> DL._sceneStates s) (upd_scene sceneId h).
Proof.
  intros Hg. apply frame_modify. intros s. simpl. by apply fmap_alter_same.
Qed.

(** Break a frame goal down along the structure of the computation. *)
Ltac frame_step :=
  match goal with
  | |- frame _ (bind _ _) => apply frame_bind; [|intros]
  | |- frame _ (ret _) => apply frame_ret
  | |- frame _ (throw _) => apply frame_throw
  | |- frame _ get => apply frame_get
  | |- frame _ (gets _) => apply frame_gets
  | |- frame _ (deref _) => apply frame_deref
  | |- frame _ (for_each _ _) => apply frame_for_each; intros
  | |- frame _ (for_loop _ _ _ _) => apply frame_for_loop; intros
  | |- frame _ (modify _) => apply frame_modify; intros; simpl; try done
  | |- frame _ (if ?b then _ else _) => destruct b
  | |- frame _ (match ?x with _ => _ end) => destruct x
  | |- frame _ (let '(_, _) := ?x in _) => destruct x
  end.
Ltac frame_tac := repeat frame_step.

Lemma frame_state_at {X} (f : DrawList → X) l : frame f (state_at l).
Proof. unfold state_at. frame_tac. Qed.
Lemma frame_node_at {X} (f : DrawList → X) l : frame f (node_at l).
Proof. unfold node_at. frame_tac. Qed.
Lemma frame_program_at {X} (f : DrawList → X) l : frame f (program_at l).
Proof. unfold program_at. frame_tac. Qed.
Lemma frame_scene_at {X} (f : DrawList → X) sid : frame f (scene_at sid).
Proof. unfold scene_at. frame_tac. Qed.
Lemma frame_bound_states {X} (f : DrawList → X) : frame f bound_states.
Proof. unfold bound_states. frame_tac. Qed.
Lemma frame_bound_stateMap {X} (f : DrawList → X) : frame f bound_stateMap.
Proof. unfold bound_stateMap. frame_tac. Qed.
Lemma frame_bound_nodeMap {X} (f : DrawList → X) : frame f bound_nodeMap.
Proof. unfold bound_nodeMap. frame_tac. Qed.
Lemma frame_soup_var {X} (f : DrawList → X) ty : frame f (soup_var ty).
Proof. unfold soup_var. frame_tac. Qed.
Lemma frame_compiling_scene {X} (f : DrawList → X) : frame f compiling_scene.
Proof. unfold compiling_scene. frame_tac. Qed.
Lemma frame_own_state {X} (f : DrawList → X) r : frame f (own_state r).
Proof. unfold own_state. frame_tac. Qed.
Lemma frame_scene_to_bind {X} (f : DrawList → X) sid :
  frame f (scene_to_bind sid).
Proof. unfold scene_to_bind. frame_tac. Qed.

#[global] Hint Resolve frame_state_at frame_node_at frame_program_at
  frame_scene_at frame_bound_states frame_bound_stateMap frame_bound_nodeMap
  frame_soup_var frame_compiling_scene frame_own_state frame_scene_to_bind
  : frame.

(** *** What releasing a state leaves alone *)

Lemma frame_geoMaps_upd_state l h : frame geoMaps (upd_state l h).
Proof. unfold upd_state. frame_tac. Qed.

Lemma frame_geoMaps_releaseState l : frame geoMaps (_releaseState l).
Proof.
  unfold _releaseState. frame_tac; auto with frame;
    try apply frame_geoMaps_upd_state.
  unfold geoMaps. apply frame_upd_scene. intros sc.
  by destruct (Scene.stateMap sc !! _).
Qed.

Lemma frame_geoMaps_releaseProgram p : frame geoMaps (_releaseProgram p).
Proof.
  unfold _releaseProgram, upd_program. frame_tac; auto with frame.
Qed.

(** ** renderFrame unbinds the scene *)

(** C9.  A [renderFrame] that returns has set [_states] to [null], so a
    second [renderFrame] right after it (no [bindScene] in between) throws
    the fatal error "No scene bound", whatever its parameters. *)
Theorem C9_renderFrame_unbinds params s s' :
  renderFrame params s = Ok (tt, s') →
  DL._states s' = None
  ∧ ∀ params', renderFrame params' s' = Err (FatalError "No scene bound").
Proof.
  intros H. unfold renderFrame in H. inv_op.
  destruct (DL._states _) as [sid|] eqn:Hb; [|inv_op]. inv_op.
  split; [done|]. intros params'. unfold renderFrame, bind, get. done.
Qed.

(** ** Removing a geometry that is not registered *)

Lemma removeGeometry_body_frame node :
  frame geoMaps
    (upd_node node (Node.with_destroyed true) ;;;
     n <- node_at node ;;;
     _releaseProgram (Node.program n) ;;;
     _releaseState (Node.geoState n) ;;;
     _releaseState (Node.flagsState n) ;;;
     _releaseState (Node.layerState n) ;;;
     _releaseState (Node.rendererState n) ;;;
     _releaseState (Node.lightState n) ;;;
     _releaseState (Node.colortransState n) ;;;
     _releaseState (Node.materialState n) ;;;
     _releaseState (Node.modelXFormState n) ;;;
     _releaseState (Node.viewXFormState n) ;;;
     _releaseState (Node.projXFormState n) ;;;
     _releaseState (Node.texState n) ;;;
     _releaseState (Node.pickColorState n) ;;;
     _releaseState (Node.frameBufState n) ;;;
     _releaseState (Node.clipState n) ;;;
     _releaseState (Node.morphState n) ;;;
     _releaseState (Node.nameState n) ;;;
     _releaseState (Node.tagState n) ;;;
     _releaseState (Node.renderListenersState n) ;;;
     _releaseState (Node.shaderState n) ;;;
     _releaseState (Node.shaderParamsState n)).
Proof.
  unfold upd_node.
  repeat first [ apply frame_geoMaps_releaseState
               | apply frame_geoMaps_releaseProgram
               | apply frame_node_at
               | frame_step ].
Qed.

(** After a [removeGeometry] that returned, the owner id has no display
    nodes registered, and no inherited value stands in for them: the map
    holds [null] under the id, or holds nothing and the id names no
    property of [Object.prototype]. *)
Lemma removeGeometry_unregisters sceneId id s s' :
  removeGeometry sceneId id s = Ok (tt, s') →
  ∃ sc, DL._sceneStates s' !! sceneId = Some sc
        ∧ (Scene.geoNodesMap sc !! toKey id = Some None
           ∨ (Scene.geoNodesMap sc !! toKey id = None
              ∧ Object_prototype (toKey id) = None)).
Proof.
  intros H. unfold removeGeometry in H. inv_op.
  unfold scene_at in *. inv_op.
  match goal with
  | Hsc : DL._sceneStates ?s0 !! sceneId = Some ?sc |- _ =>
      destruct (Scene.geoNodesMap sc !! toKey id) as [[nodes|]|] eqn:Hg
  end.
  - inv_op.
    match goal with
    | Hloop : for_each _ _ _ = Ok _ |- _ =>
        apply (frame_for_each geoMaps) in Hloop;
          [|intros; apply removeGeometry_body_frame]
    end.
    unfold upd_scene in *. inv_op. simpl.
    match goal with
    | Hsc : DL._sceneStates ?s0 !! sceneId = Some ?sc,
      Hloop : geoMaps ?s1 = geoMaps ?s0 |- _ =>
        assert (Hex : is_Some (DL._sceneStates s1 !! sceneId));
          [ apply (f_equal (.!! sceneId)) in Hloop;
            unfold geoMaps in Hloop; rewrite !lookup_fmap, Hsc in Hloop;
            destruct (DL._sceneStates s1 !! sceneId); [eauto|done] |]
    end.
    destruct Hex as [sc1 Hsc1].
    rewrite !lookup_alter_eq, Hsc1. simpl.
    eexists; split; [done|]. left. simpl. by rewrite lookup_insert_eq.
  - inv_op. eauto.
  - destruct (Object_prototype (toKey id)) as [[[|n]|]|] eqn:Hp; inv_op.
    + unfold upd_scene in *. inv_op. simpl.
      match goal with
      | Hsc : DL._sceneStates _ !! sceneId = Some _ |- _ =>
          rewrite !lookup_alter_eq, Hsc
      end.
      simpl. eexists; split; [done|]. left. simpl.
      by rewrite lookup_insert_eq.
    + eauto.
Qed.

(** What [removeGeometry] leaves in the scene when it unregisters an id. *)
Definition unregistered (id : JsId) (sc : Scene.t) : Scene.t :=
  Scene.with_lenVisibleCacheBin 0%nat
    (Scene.with_geoNodesMap (<[toKey id := None]> (Scene.geoNodesMap sc)) sc).

(** C10.  [removeGeometry] for an owner id under which [geoNodesMap] holds
    the [null] left by an earlier removal, or holds nothing while the id
    names no property of [Object.prototype], returns without changing
    anything in the state: no refcount, bin or scene field moves.  A second
    [removeGeometry] for the same id, right after one that returned, changes
    nothing, whatever the id.  An id with no entry of its own that names a
    property of [Object.prototype] is not a no-op: for an inherited function
    of no parameters the call writes [null] under the id and empties the
    visible-node cache; for an inherited function with parameters it throws
    a TypeError. *)
Theorem C10_removeGeometry_unregistered sceneId id :
  (∀ s sc,
     DL._sceneStates s !! sceneId = Some sc →
     Scene.geoNodesMap sc !! toKey id = Some None
     ∨ (Scene.geoNodesMap sc !! toKey id = None
        ∧ Object_prototype (toKey id) = None) →
     removeGeometry sceneId id s = Ok (tt, s))
  ∧ (∀ s s',
       removeGeometry sceneId id s = Ok (tt, s') →
       removeGeometry sceneId id s' = Ok (tt, s'))
  ∧ (∀ s sc,
       DL._sceneStates s !! sceneId = Some sc →
       Scene.geoNodesMap sc !! toKey id = None →
       match Object_prototype (toKey id) with
       | Some (InheritedFunction 0) =>
           ∃ s', removeGeometry sceneId id s = Ok (tt, s')
                 ∧ DL._sceneStates s' !! sceneId = Some (unregistered id sc)
       | Some (InheritedFunction (S _)) =>
           removeGeometry sceneId id s = Err TypeError
       | _ => True
       end).
Proof.
  assert (Hnoop : ∀ s sc,
     DL._sceneStates s !! sceneId = Some sc →
     Scene.geoNodesMap sc !! toKey id = Some None
     ∨ (Scene.geoNodesMap sc !! toKey id = None
        ∧ Object_prototype (toKey id) = None) →
     removeGeometry sceneId id s = Ok (tt, s)).
  { intros s sc Hsc Hg. unfold removeGeometry.
    rewrite (bind_step _ _ s sc s)
      by (unfold scene_at, get, bind; by rewrite Hsc).
    by destruct Hg as [-> | [-> ->]]. }
  split; [exact Hnoop|]. split.
  - intros s s' H.
    apply removeGeometry_unregisters in H as (sc & Hsc & Hg). eauto.
  - intros s sc Hsc Hg.
    destruct (Object_prototype (toKey id)) as [[[|n]|]|] eqn:Hp; [| |done..].
    + unfold removeGeometry.
      rewrite (bind_step _ _ s sc s)
        by (unfold scene_at, get, bind; by rewrite Hsc).
      rewrite Hg, Hp. unfold upd_scene, modify, bind.
      eexists; split; [reflexivity|]. simpl.
      by rewrite !lookup_alter_eq, Hsc.
    + unfold removeGeometry.
      rewrite (bind_step _ _ s sc s)
        by (unfold scene_at, get, bind; by rewrite Hsc).
      by rewrite Hg, Hp.
Qed.

(** ** Concrete runs *)

(** The state a run from the freshly loaded module ends in. *)
Definition final_state {A} (m : Op A) : DrawList :=
  match m initial with
  | Ok (_, s) => s
  | Err _ => initial
  end.

Definition box : Geo :=
  {| normalBuf := true; uvBuf := false; uvBuf2 := false; colorBuf := false;
     primitive := "4" |}.

Definition no_params : RenderParams :=
  {| profileFunc := false; rp_tagSelector := None |}.

(** One scene, fully compiled, with one named geometry with its own flags. *)
Definition one_box : Op unit :=
  sceneCreated "scene" "canvas" ;;;
  bindScene "scene" (Some COMPILE_SCENE) false ;;;
  setFlags (WithArgs (IdStr "flags1") (Some DEFAULT_FLAGS)) ;;;
  setName (WithArgs (IdStr "name1") (Some "box")) ;;;
  setGeometry (IdStr "geo1") box.

Definition one_box_state : DrawList := final_state one_box.

Definition one_box_scene : Scene.t :=
  default (new_scene "" "") (DL._sceneStates one_box_state !! "scene").

Definition one_box_rendered : DrawList :=
  final_state (one_box ;;; renderFrame no_params).

Definition one_box_removed : DrawList :=
  final_state (one_box ;;; removeGeometry "scene" (IdStr "geo1")).

(** C5 on the one-box scene. *)
Lemma C5_scene_hash_order_witness :
  _getSceneHash one_box_state = Ok ("canvas;;f;;;;;;tfff4", one_box_state).
Proof.
  apply (C5_scene_hash_order one_box_state "scene" one_box_scene
           (Some "") (Some "f") (Some "") (Some "") (Some "") (Some "")
           None (Some "tfff4"));
    vm_compute; reflexivity.
Defined.

(** C9 on the one-box scene. *)
Lemma C9_renderFrame_unbinds_witness :
  renderFrame no_params one_box_state = Ok (tt, one_box_rendered)
  ∧ DL._states one_box_rendered = None
  ∧ renderFrame no_params one_box_rendered
    = Err (FatalError "No scene bound").
Proof.
  assert (H : renderFrame no_params one_box_state
              = Ok (tt, one_box_rendered)) by (vm_compute; reflexivity).
  split; [exact H|].
  destruct (C9_renderFrame_unbinds no_params one_box_state
              one_box_rendered H) as [H1 H2].
  split; [exact H1 | exact (H2 no_params)].
Defined.

Definition one_box_rendered_scene : Scene.t :=
  default (new_scene "" "") (DL._sceneStates one_box_rendered !! "scene").

(** C10 on the one-box scene: an id that was never registered, the box's
    id removed twice, and two ids that reach [Object.prototype]. *)
Lemma C10_removeGeometry_unregistered_witness :
  removeGeometry "scene" (IdStr "geo2") one_box_state
  = Ok (tt, one_box_state)
  ∧ removeGeometry "scene" (IdStr "geo1") one_box_removed
    = Ok (tt, one_box_removed)
  ∧ (∃ s', removeGeometry "scene" (IdStr "toString") one_box_rendered
           = Ok (tt, s')
           ∧ DL._sceneStates s' !! "scene"
             = Some (unregistered (IdStr "toString") one_box_rendered_scene))
  ∧ removeGeometry "scene" (IdStr "constructor") one_box_state
    = Err TypeError.
Proof.
  split; [|split; [|split]].
  - apply (proj1 (C10_removeGeometry_unregistered "scene" (IdStr "geo2"))
             one_box_state one_box_scene);
      [vm_compute; reflexivity | right; split; vm_compute; reflexivity].
  - apply (proj1 (proj2 (C10_removeGeometry_unregistered
                           "scene" (IdStr "geo1")))
             one_box_state one_box_removed).
    vm_compute; reflexivity.
  - apply (proj2 (proj2 (C10_removeGeometry_unregistered
                           "scene" (IdStr "toString")))
             one_box_rendered one_box_rendered_scene);
      vm_compute; reflexivity.
  - apply (proj2 (proj2 (C10_removeGeometry_unregistered
                           "scene" (IdStr "constructor")))
             one_box_state one_box_scene);
      vm_compute; reflexivity.
Defined.

(** The owner ids "toString" and "constructor" have no display nodes
    registered in the rendered one-box scene, whose visible-node cache holds
    the box.  [removeGeometry] for "toString" returns in a state whose
    visible-node cache is empty and whose [geoNodesMap] has an entry for the
    id; [removeGeometry] for "constructor" throws. *)
Lemma C10_inherited_id_counterexample :
  Scene.geoNodesMap one_box_rendered_scene !! "toString" = None
  ∧ Scene.geoNodesMap one_box_rendered_scene !! "constructor" = None
  ∧ Scene.lenVisibleCacheBin one_box_rendered_scene = 1%nat
  ∧ removeGeometry "scene" (IdStr "toString") one_box_rendered
    ≠ Ok (tt, one_box_rendered)
  ∧ (Scene.lenVisibleCacheBin
       <$> DL._sceneStates
             (final_state (one_box ;;; renderFrame no_params ;;;
                           removeGeometry "scene" (IdStr "toString")))
           !! "scene") = Some 0%nat
  ∧ removeGeometry "scene" (IdStr "constructor") one_box_rendered
    = Err TypeError.
Proof.
  repeat split; try (vm_compute; reflexivity).
  intros H. apply (f_equal (λ r, match r with
                                 | Ok (_, s) =>
                                     Scene.lenVisibleCacheBin
                                       <$> DL._sceneStates s !! "scene"
                                 | Err _ => None
                                 end)) in H.
  vm_compute in H. discriminate H.
Qed.

(** ** Releasing the last reference to a state *)

(** [this._stateMap[stateType][key]]. *)
Definition registered (s : DrawList) (stateType : nat) (key : string)
  : option loc :=
  sid ← DL._stateMap s;
  sc ← DL._sceneStates s !! sid;
  typeMap ← Scene.stateMap sc !! stateType;
  typeMap !! key.

Definition nodeCount_at (s : DrawList) (l : loc) : option Z :=
  State._nodeCount <$> DL.stateHeap s !! l.

Definition stateId_at (s : DrawList) (l : loc) : option JsNum :=
  State._stateId <$> DL.stateHeap s !! l.

(** After the removal, a branch recompile exports the same flags again. *)
Definition one_box_reflagged : DrawList :=
  final_state
    (one_box ;;;
     removeGeometry "scene" (IdStr "geo1") ;;;
     bindScene "scene" (Some COMPILE_BRANCH) false ;;;
     setFlags (WithArgs (IdStr "flags1") (Some DEFAULT_FLAGS))).

(** C3, on the code.  The box is the only display node that references the
    flags state of owner "flags1" (refcount 1, state id 0).  [removeGeometry]
    brings its refcount to zero, but the state is still found under its
    owner id in the state map: [_releaseState] deletes the key [state.id],
    which is ["undefined"], not the owner id.  The next [setFlags] for
    "flags1" under a branch compile therefore gets the same state object,
    with the same state id, and allocates nothing. *)
Theorem C3_released_state_stays_registered :
  ∃ l,
    registered one_box_state _FLAGS "flags1" = Some l
    ∧ nodeCount_at one_box_state l = Some 1
    ∧ removeGeometry "scene" (IdStr "geo1") one_box_state
      = Ok (tt, one_box_removed)
    ∧ nodeCount_at one_box_removed l = Some 0
    ∧ registered one_box_removed _FLAGS "flags1" = Some l
    ∧ DL.soup one_box_reflagged !! _FLAGS = Some l
    ∧ stateId_at one_box_reflagged l = stateId_at one_box_state l
    ∧ length (DL.stateHeap one_box_reflagged)
      = length (DL.stateHeap one_box_removed).
Proof. exists 20%nat. vm_compute. repeat split; reflexivity. Qed.

(** ** The setters as one interface *)

Inductive SetterCall :=
| SetClips (a : Args (option (list Clip)))
| SetColortrans (a : Args (option Opaque))
| SetFlags (a : Args (option Flags.t))
| SetLayer (a : Args (option LayerCore.t))
| SetFrameBuf (a : Args (option Opaque))
| SetLights (a : Args (option (list Light)))
| SetMaterial (a : Args (option Opaque))
| SetMorph (a : Args (option Morph))
| SetTexture (a : Args (option TexCore))
| SetRenderer (a : Args (option Opaque))
| SetModelTransform (a : Args (option Opaque * option Opaque))
| SetProjectionTransform (a : Args (option (option Opaque * option Opaque)))
| SetViewTransform (a : Args (option Opaque * option Opaque * option Opaque))
| SetName (a : Args (option string))
| SetTag (a : Args (option TagCore.t))
| SetRenderListeners (a : Args (option (list Opaque)))
| SetShader (a : Args (option Shader))
| SetShaderParams (a : Args (option Opaque)).

Definition call_setter (c : SetterCall) : Op unit :=
  match c with
  | SetClips a => setClips a
  | SetColortrans a => setColortrans a
  | SetFlags a => setFlags a
  | SetLayer a => setLayer a
  | SetFrameBuf a => setFrameBuf a
  | SetLights a => setLights a
  | SetMaterial a => setMaterial a
  | SetMorph a => setMorph a
  | SetTexture a => setTexture a
  | SetRenderer a => setRenderer a
  | SetModelTransform a => setModelTransform a
  | SetProjectionTransform a => setProjectionTransform a
  | SetViewTransform a => setViewTransform a
  | SetName a => setName a
  | SetTag a => setTag a
  | SetRenderListeners a => setRenderListeners a
  | SetShader a => setShader a
  | SetShaderParams a => setShaderParams a
  end.

(** The state type of the category a setter exports. *)
Definition setter_type (c : SetterCall) : nat :=
  match c with
  | SetClips _ => _CLIPS
  | SetColortrans _ => _COLORTRANS
  | SetFlags _ => _FLAGS
  | SetLayer _ => _LAYER
  | SetFrameBuf _ => _FRAMEBUF
  | SetLights _ => _LIGHTS
  | SetMaterial _ => _MATERIAL
  | SetMorph _ => _MORPH
  | SetTexture _ => _TEXTURE
  | SetRenderer _ => _RENDERER
  | SetModelTransform _ => _MODEL_TRANSFORM
  | SetProjectionTransform _ => _PROJ_TRANSFORM
  | SetViewTransform _ => _VIEW_TRANSFORM
  | SetName _ => _NAME
  | SetTag _ => _TAG
  | SetRenderListeners _ => _RENDER_LISTENERS
  | SetShader _ => _SHADER
  | SetShaderParams _ => _SHADER_PARAMS
  end.

(** The category's shared default state. *)
Definition setter_default (c : SetterCall) : loc :=
  match c with
  | SetClips _ => _DEFAULT_CLIP_STATE
  | SetColortrans _ => _DEFAULT_COLORTRANS_STATE
  | SetFlags _ => _DEFAULT_FLAGS_STATE
  | SetLayer _ => _DEFAULT_LAYER_STATE
  | SetFrameBuf _ => _DEFAULT_FRAMEBUF_STATE
  | SetLights _ => _DEFAULT_LIGHTS_STATE
  | SetMaterial _ => _DEFAULT_MATERIAL_STATE
  | SetMorph _ => _DEFAULT_MORPH_STATE
  | SetTexture _ => _DEFAULT_TEXTURE_STATE
  | SetRenderer _ => _DEFAULT_RENDERER_STATE
  | SetModelTransform _ => _DEFAULT_MODEL_TRANSFORM_STATE
  | SetProjectionTransform _ => _DEFAULT_PROJ_TRANSFORM_STATE
  | SetViewTransform _ => _DEFAULT_VIEW_TRANSFORM_STATE
  | SetName _ => _DEFAULT_NAME_STATE
  | SetTag _ => _DEFAULT_TAG_STATE
  | SetRenderListeners _ => _DEFAULT_RENDER_LISTENERS_STATE
  | SetShader _ => _DEFAULT_SHADER_STATE
  | SetShaderParams _ => _DEFAULT_SHADER_PARAMS_STATE
  end.

Definition has_args {P} (a : Args P) : bool :=
  match a with NoArgs => false | WithArgs _ _ => true end.

(** The owner id the call passes ([undefined] when there is none). *)
Definition setter_id (c : SetterCall) : JsId :=
  match c with
  | SetClips a | SetColortrans a | SetFlags a | SetLayer a | SetFrameBuf a
  | SetLights a | SetMaterial a | SetMorph a | SetTexture a | SetRenderer a
  | SetName a | SetTag a | SetRenderListeners a | SetShader a
  | SetShaderParams a => arg_id a
  | SetModelTransform a => arg_id a
  | SetProjectionTransform a => arg_id a
  | SetViewTransform a => arg_id a
  end.

(** Whether the call was made without any argument. *)
Definition setter_no_args (c : SetterCall) : bool :=
  negb match c with
       | SetClips a | SetColortrans a | SetFlags a | SetLayer a
       | SetFrameBuf a | SetLights a | SetMaterial a | SetMorph a
       | SetTexture a | SetRenderer a | SetName a | SetTag a
       | SetRenderListeners a | SetShader a | SetShaderParams a =>
           has_args a
       | SetModelTransform a => has_args a
       | SetProjectionTransform a => has_args a
       | SetViewTransform a => has_args a
       end.

(** When a call resets its category: [setClips] and [setColortrans] test
    [!id]; every other setter tests [arguments.length == 0]. *)
Definition resets (c : SetterCall) : bool :=
  match c with
  | SetClips _ | SetColortrans _ => negb (truthy (setter_id c))
  | _ => setter_no_args c
  end.

(** The categories whose reset sets [_stateHash] to [null]. *)
Definition reset_invalidates_hash (c : SetterCall) : bool :=
  match c with
  | SetClips _ | SetColortrans _ | SetLights _ | SetMorph _ | SetTexture _
  | SetShader _ => true
  | _ => false
  end.

(** The state after a reset. *)
Definition after_reset (c : SetterCall) (s : DrawList) : DrawList :=
  let s1 :=
    DL.with_soup (<[setter_type c := setter_default c]> (DL.soup s)) s in
  if reset_invalidates_hash c then DL.with__stateHash None s1 else s1.

(** What [_getState] returns, and how it relates to the state map: under a
    full compile a new state, registered if the id is truthy; otherwise the
    state registered for the id if there is one, else what [Object.prototype]
    has under the id, with nothing allocated or registered, else a new
    state, registered for the id. *)
Lemma _getState_spec stateType id s r s' :
  _getState stateType id s = Ok (r, s') →
  DL.soup s' = DL.soup s
  ∧ DL._stateHash s' = DL._stateHash s
  ∧ DL.compileMode s' = DL.compileMode s
  ∧ (if is_compile_scene (DL.compileMode s)
     then r = OwnState (length (DL.stateHeap s))
          ∧ (truthy id = true →
             registered s' stateType (toKey id)
             = Some (length (DL.stateHeap s)))
     else match r with
          | OwnState l =>
              registered s' stateType (toKey id) = Some l
              ∧ (registered s stateType (toKey id) = Some l
                 ∨ (l = length (DL.stateHeap s)
                    ∧ registered s stateType (toKey id) = None
                    ∧ Object_prototype (toKey id) = None))
          | InheritedValue i =>
              Object_prototype (toKey id) = Some i
              ∧ registered s stateType (toKey id) = None
              ∧ registered s' stateType (toKey id) = None
              ∧ DL.stateHeap s' = DL.stateHeap s
              ∧ DL.nextStateId s' = DL.nextStateId s
          end).
Proof.
  unfold _getState, bound_stateMap, scene_at, upd_scene, registered.
  unfold bind, get, deref, modify, ret, throw.
  destruct (DL._stateMap s) as [sid|] eqn:Hmap; [simpl|done].
  destruct (DL._sceneStates s !! sid) as [sc|] eqn:Hscene; [simpl|done].
  destruct (is_compile_scene (DL.compileMode s)) eqn:Hmode; simpl.
  - destruct (post_incr (DL.nextStateId s)) as [stateId next]; simpl.
    destruct (truthy id) eqn:Hid; [destruct (sets_prototype (toKey id))|];
      [done|..]; intros [= <- <-]; simpl; repeat split; try done.
    intros _. rewrite Hmap. simpl.
    rewrite !lookup_alter_eq, Hscene. simpl.
    rewrite !lookup_insert_eq. simpl. by rewrite lookup_insert_eq.
  - assert (Hold : ∀ o,
              default ∅ (Scene.stateMap sc !! stateType) !! toKey id = o →
              (Scene.stateMap sc !! stateType ≫= (.!! toKey id)) = o).
    { intros o <-. destruct (Scene.stateMap sc !! stateType); simpl; [done|].
      by rewrite lookup_empty. }
    assert (Hnew : ∀ (s0 : DrawList) o,
              default ∅ (Scene.stateMap sc !! stateType) !! toKey id = o →
              (alter (λ sc0, Scene.with_stateMap
                               (<[stateType:=default ∅ (Scene.stateMap sc
                                                        !! stateType)]>
                                  (Scene.stateMap sc0)) sc0)
                 sid (DL._sceneStates s) !! sid
               ≫= λ sc0, Scene.stateMap sc0 !! stateType
               ≫= (.!! toKey id)) = o).
    { intros _ o <-. rewrite lookup_alter_eq, Hscene. simpl.
      by rewrite lookup_insert_eq. }
    destruct (default ∅ (Scene.stateMap sc !! stateType) !! toKey id)
      as [l0|] eqn:Hl0.
    + intros [= <- <-]. simpl. repeat split; try done.
      * rewrite Hmap. simpl. by apply (Hnew s).
      * left. by apply Hold.
    + destruct (Object_prototype (toKey id)) as [i|] eqn:Hp.
      * intros [= <- <-]. simpl. repeat split; try done.
        -- by apply Hold.
        -- rewrite Hmap. simpl. by apply (Hnew s).
      * destruct (post_incr (DL.nextStateId s)) as [stateId next]; simpl.
        intros [= <- <-]. simpl. repeat split; try done.
        -- rewrite Hmap. simpl. rewrite !lookup_alter_eq, Hscene. simpl.
           rewrite !lookup_insert_eq. simpl. by rewrite lookup_insert_eq.
        -- right. repeat split; try done. by apply Hold.
Qed.

(** The same for the state a setter goes on with: [_getState]'s result when
    it is a state of the draw list. *)
Lemma _getState_own_spec stateType id s l s' :
  bind (_getState stateType id) own_state s = Ok (l, s') →
  DL.soup s' = DL.soup s
  ∧ DL._stateHash s' = DL._stateHash s
  ∧ DL.compileMode s' = DL.compileMode s
  ∧ (if is_compile_scene (DL.compileMode s)
     then l = length (DL.stateHeap s)
          ∧ (truthy id = true → registered s' stateType (toKey id) = Some l)
     else registered s' stateType (toKey id) = Some l
          ∧ (registered s stateType (toKey id) = Some l
             ∨ (l = length (DL.stateHeap s)
                ∧ registered s stateType (toKey id) = None
                ∧ Object_prototype (toKey id) = None))).
Proof.
  intros H. apply bind_Ok in H as (r & s1 & Hg & H).
  apply _getState_spec in Hg as (Hsoup & Hhash & Hmode & Hreg).
  destruct r as [l0|i]; [|done]. injection H as <- <-.
  repeat split; try done.
  destruct (is_compile_scene (DL.compileMode s)); [|done].
  destruct Hreg as [[= ->] Hreg]. done.
Qed.

(** Case analysis on the tests a successful computation went through. *)
Ltac inv_branch :=
  match goal with
  | H : (if ?b then _ else _) _ = Ok _ |- _ => destruct b eqn:?
  | H : (match ?x with _ => _ end) _ = Ok _ |- _ => destruct x eqn:?
  end.
Ltac inv_all := repeat (inv_op; try inv_branch).

(** The part of a setter after [_getState]: the soup variable points to the
    state fetched, and the state map is as [_getState] left it. *)
Ltac setter_tail H l :=
  unfold set_soup, upd_state, compiling_scene in H;
  inv_all; unfold registered in *; simpl in *;
  exists l; rewrite lookup_insert_eq; (split; [done|]);
  repeat match goal with
         | Hm : DL.compileMode _ = DL.compileMode _ |- _ =>
             rewrite Hm in *; clear Hm
         end;
  try done.

(** Outside a full compile, an id with no state registered that names a
    property of [Object.prototype] makes [_getState] return the inherited
    value: no state is allocated, none is registered. *)
Lemma _getState_inherited stateType id s sid sc i :
  DL._stateMap s = Some sid →
  DL._sceneStates s !! sid = Some sc →
  is_compile_scene (DL.compileMode s) = false →
  registered s stateType (toKey id) = None →
  Object_prototype (toKey id) = Some i →
  ∃ s1, _getState stateType id s = Ok (InheritedValue i, s1)
        ∧ DL.stateHeap s1 = DL.stateHeap s
        ∧ DL.nextStateId s1 = DL.nextStateId s
        ∧ DL.soup s1 = DL.soup s
        ∧ registered s1 stateType (toKey id) = None.
Proof.
  intros Hmap Hscene Hmode Hreg Hp.
  assert (Hown : default ∅ (Scene.stateMap sc !! stateType) !! toKey id
                 = None).
  { unfold registered in Hreg. rewrite Hmap in Hreg. simpl in Hreg.
    rewrite Hscene in Hreg. simpl in Hreg.
    destruct (Scene.stateMap sc !! stateType); simpl in *; [done|].
    by rewrite lookup_empty. }
  unfold _getState, bound_stateMap, scene_at, upd_scene.
  unfold bind, get, deref, modify, ret, throw.
  rewrite Hmap. simpl. rewrite Hscene. simpl. rewrite Hmode. simpl.
  rewrite Hown, Hp.
  eexists; split; [reflexivity|]. simpl. repeat split.
  unfold registered. simpl. rewrite Hmap. simpl.
  rewrite lookup_alter_eq, Hscene. simpl.
  by rewrite lookup_insert_eq.
Qed.

(** A setter stops where [_getState] hands it an inherited value. *)
Lemma bind_own_state_inherited {A} stateType id i s s1 (k : loc → Op A) :
  _getState stateType id s = Ok (InheritedValue i, s1) →
  bind (bind (_getState stateType id) own_state) k s
  = Err (Unmodelled "inherited value used as state object").
Proof. intros H. unfold bind. by rewrite H. Qed.

(** C8, as the code has it.  [setClips] and [setColortrans] reset their
    category whenever the owner id is falsy (omitted, [null], [undefined],
    empty); every other setter resets only when called without any
    argument.  A reset points the soup variable at the category's shared
    default state, sets [_stateHash] to [null] for clips, colour
    transform, lights, morph, texture and shader, and changes nothing else.
    Any other call points the soup variable at what [_getState] yields for
    the owner id.  Under a full compile that is a newly allocated state,
    entered in the state map when the id is truthy.  Otherwise it is the
    state found in the state map under the id, or, when there is none and
    the id names no property of [Object.prototype], a newly allocated state
    entered under the id.  When there is none and the id does name a
    property of [Object.prototype], [_getState] yields the inherited value:
    no state is allocated, none is registered, and the setter's writes go
    to an object that is no state of the draw list, where the model
    stops. *)
Theorem C8_setter_reset_or_register (c : SetterCall) (s : DrawList) :
  (resets c = true → call_setter c s = Ok (tt, after_reset c s))
  ∧ (resets c = false →
     ∀ s', call_setter c s = Ok (tt, s') →
       ∃ l, DL.soup s' !! setter_type c = Some l
            ∧ (if is_compile_scene (DL.compileMode s)
               then l = length (DL.stateHeap s)
                    ∧ (truthy (setter_id c) = true →
                       registered s' (setter_type c) (toKey (setter_id c))
                       = Some l)
               else registered s' (setter_type c) (toKey (setter_id c))
                    = Some l
                    ∧ (registered s (setter_type c) (toKey (setter_id c))
                       = Some l
                       ∨ (l = length (DL.stateHeap s)
                          ∧ registered s (setter_type c)
                              (toKey (setter_id c)) = None
                          ∧ Object_prototype (toKey (setter_id c))
                            = None))))
  ∧ (resets c = false →
     ∀ sid sc i,
       DL._stateMap s = Some sid →
       DL._sceneStates s !! sid = Some sc →
       is_compile_scene (DL.compileMode s) = false →
       registered s (setter_type c) (toKey (setter_id c)) = None →
       Object_prototype (toKey (setter_id c)) = Some i →
       (∃ s1, _getState (setter_type c) (setter_id c) s
              = Ok (InheritedValue i, s1)
              ∧ DL.stateHeap s1 = DL.stateHeap s
              ∧ DL.nextStateId s1 = DL.nextStateId s
              ∧ DL.soup s1 = DL.soup s
              ∧ registered s1 (setter_type c) (toKey (setter_id c)) = None)
       ∧ call_setter c s
         = Err (Unmodelled "inherited value used as state object")).
Proof.
  split; [|split].
  - intros Hr. destruct c as [a|a|a|a|a|a|a|a|a|a|a|a|a|a|a|a|a|a];
      destruct a as [|id p]; simpl in Hr; try discriminate Hr;
      unfold call_setter, after_reset; simpl; try reflexivity.
    + unfold setClips. simpl. apply negb_true_iff in Hr. by rewrite Hr.
    + unfold setColortrans. simpl. apply negb_true_iff in Hr. by rewrite Hr.
  - intros Hr s' H.
    destruct c as [a|a|a|a|a|a|a|a|a|a|a|a|a|a|a|a|a|a];
      destruct a as [|id p]; simpl in Hr; try discriminate Hr;
      unfold call_setter in H; simpl.
    1: { unfold setClips in H. simpl in H. apply negb_false_iff in Hr.
         rewrite Hr in H. simpl in H.
         apply bind_Ok in H as (l & s1 & Hg & H).
         apply _getState_own_spec in Hg as (Hsoup & Hhash & Hmode & Hreg).
         setter_tail H l. }
    1: { unfold setColortrans in H. simpl in H. apply negb_false_iff in Hr.
         rewrite Hr in H. simpl in H.
         apply bind_Ok in H as (l & s1 & Hg & H).
         apply _getState_own_spec in Hg as (Hsoup & Hhash & Hmode & Hreg).
         setter_tail H l. }
    all: try (destruct p as [[? ?] ?]); try (destruct p as [? ?]).
    all: unfold setFlags, setLayer, setFrameBuf, setLights, setMaterial,
           setMorph, setTexture, setRenderer, setModelTransform,
           setProjectionTransform, setViewTransform, setName, setTag,
           setRenderListeners, setShader, setShaderParams in H;
         apply bind_Ok in H as (l & s1 & Hg & H);
         apply _getState_own_spec in Hg as (Hsoup & Hhash & Hmode & Hreg);
         setter_tail H l.
  - intros Hr sid sc i Hmap Hscene Hmode Hreg Hp.
    destruct (_getState_inherited _ _ _ _ _ _ Hmap Hscene Hmode Hreg Hp)
      as (s1 & Hg & Hrest).
    split; [by exists s1|].
    destruct c as [a|a|a|a|a|a|a|a|a|a|a|a|a|a|a|a|a|a];
      destruct a as [|id p]; simpl in Hr; try discriminate Hr;
      unfold call_setter; simpl in *.
    1: { unfold setClips. simpl. apply negb_false_iff in Hr. rewrite Hr.
         simpl. by apply (bind_own_state_inherited _ _ _ _ _ _ Hg). }
    1: { unfold setColortrans. simpl. apply negb_false_iff in Hr.
         rewrite Hr. simpl.
         by apply (bind_own_state_inherited _ _ _ _ _ _ Hg). }
    all: try (destruct p as [[? ?] ?]); try (destruct p as [? ?]).
    all: unfold setFlags, setLayer, setFrameBuf, setLights, setMaterial,
           setMorph, setTexture, setRenderer, setModelTransform,
           setProjectionTransform, setViewTransform, setName, setTag,
           setRenderListeners, setShader, setShaderParams;
         by apply (bind_own_state_inherited _ _ _ _ _ _ Hg).
Qed.

(** A scene bound for a full compile, nothing exported yet. *)
Definition scene_bound : DrawList :=
  final_state (sceneCreated "scene" "canvas" ;;;
               bindScene "scene" (Some COMPILE_SCENE) false).

Definition flags_for_null : DrawList :=
  final_state (sceneCreated "scene" "canvas" ;;;
               bindScene "scene" (Some COMPILE_SCENE) false ;;;
               setFlags (WithArgs IdNull (Some DEFAULT_FLAGS))).

(** C8 as stated fails: [setFlags(null, flags)] does not reset the flags
    soup variable to the default flags state; it points it at a newly
    allocated state (which is not entered in the state map). *)
Lemma C8_null_id_counterexample :
  call_setter (SetFlags (WithArgs IdNull (Some DEFAULT_FLAGS))) scene_bound
  = Ok (tt, flags_for_null)
  ∧ DL.soup scene_bound !! _FLAGS = Some _DEFAULT_FLAGS_STATE
  ∧ DL.soup flags_for_null !! _FLAGS = Some 20%nat
  ∧ DL.soup flags_for_null !! _FLAGS ≠ Some _DEFAULT_FLAGS_STATE
  ∧ registered flags_for_null _FLAGS (toKey IdNull) = None.
Proof. vm_compute. repeat split; congruence. Qed.

Definition lights_reset : DrawList :=
  final_state (one_box ;;; setLights NoArgs).

Definition flags_exported : DrawList :=
  final_state (one_box ;;;
               setFlags (WithArgs (IdStr "flags2") (Some DEFAULT_FLAGS))).

(** The one-box scene rendered, then bound again for a branch compile. *)
Definition one_box_rebound : DrawList :=
  final_state (one_box ;;; renderFrame no_params ;;;
               bindScene "scene" (Some COMPILE_BRANCH) false).

Definition one_box_rebound_scene : Scene.t :=
  default (new_scene "" "") (DL._sceneStates one_box_rebound !! "scene").

(** C8 on the one-box scene: [setLights()] resets, [setFlags("flags2", _)]
    registers a new state, and [setFlags("valueOf", _)] under a branch
    compile finds [Object.prototype.valueOf]. *)
Lemma C8_setter_reset_or_register_witness :
  call_setter (SetLights NoArgs) one_box_state
  = Ok (tt, after_reset (SetLights NoArgs) one_box_state)
  ∧ (∃ l, DL.soup flags_exported !! _FLAGS = Some l
          ∧ l = length (DL.stateHeap one_box_state)
          ∧ registered flags_exported _FLAGS "flags2" = Some l)
  ∧ (∃ s1, _getState _FLAGS (IdStr "valueOf") one_box_rebound
           = Ok (InheritedValue (InheritedFunction 0), s1)
           ∧ DL.stateHeap s1 = DL.stateHeap one_box_rebound
           ∧ registered s1 _FLAGS "valueOf" = None).
Proof.
  split; [|split].
  - apply (proj1 (C8_setter_reset_or_register (SetLights NoArgs)
                    one_box_state)).
    reflexivity.
  - destruct (proj1 (proj2 (C8_setter_reset_or_register
                              (SetFlags (WithArgs (IdStr "flags2")
                                           (Some DEFAULT_FLAGS)))
                              one_box_state))
                eq_refl flags_exported) as (l & Hl & Hreg).
    + vm_compute; reflexivity.
    + exists l. split; [exact Hl|].
      change (is_compile_scene (DL.compileMode one_box_state)) with true
        in Hreg.
      destruct Hreg as [Hfresh Hr]. split; [exact Hfresh|].
      apply Hr. reflexivity.
  - destruct (proj2 (proj2 (C8_setter_reset_or_register
                              (SetFlags (WithArgs (IdStr "valueOf")
                                           (Some DEFAULT_FLAGS)))
                              one_box_rebound))
                eq_refl "scene" one_box_rebound_scene (InheritedFunction 0)
                ltac:(vm_compute; reflexivity) ltac:(vm_compute; reflexivity)
                ltac:(vm_compute; reflexivity) ltac:(vm_compute; reflexivity)
                ltac:(vm_compute; reflexivity))
      as [(s1 & Hg & Hheap & _ & _ & Hreg) _].
    exists s1. split; [exact Hg|]. split; [exact Hheap | exact Hreg].
Defined.

(** ** Sort ids and the sorted bin *)

(** The key the sort-id pass computes for a node: layer priority times
    100000 plus the id of the node's program. *)
Definition sort_key (s : DrawList) (node : loc) : option Z :=
  n ← DL.nodeHeap s !! node;
  st ← DL.stateHeap s !! Node.layerState n;
  core ← match State.payload st with
          | PLayer (Some core) => Some core
          | _ => None
          end;
  p ← DL.programHeap s !! Node.program n;
  Some (LayerCore.priority core * 100000 + Program.id p).

Definition sortId_at (s : DrawList) (node : loc) : option Z :=
  Node.sortId <$> DL.nodeHeap s !! node.

(** A list of nodes in ascending order of sort id. *)
Definition ascending (nodes : list Node.t) (l : list loc) : Prop :=
  StronglySorted (λ a b, sortId_of nodes a ≤ sortId_of nodes b) l.

(** The body of the loop in [_createStateStateSortIDs]. *)
Definition sortIDs_body (entry : option loc) : Op unit :=
  node <- deref entry ;;;
  n <- node_at node ;;;
  core <- layer_core n ;;;
  program <- program_at (Node.program n) ;;;
  upd_node node
    (Node.with_sortId
       (LayerCore.priority core * 100000 + Program.id program)).

Lemma sortIDs_body_spec entry s s' :
  sortIDs_body entry s = Ok (tt, s') →
  ∃ node key,
    entry = Some node ∧ sort_key s node = Some key
    ∧ s' = DL.with_nodeHeap
             (alter (Node.with_sortId key) node (DL.nodeHeap s)) s.
Proof.
  unfold sortIDs_body, node_at, layer_core, state_at, program_at, upd_node.
  intros H. inv_all; try discriminate.
  eexists _, _. split; [done|]. split; [|done].
  unfold sort_key.
  repeat match goal with
         | E : _ !! _ = Some _ |- _ => rewrite E; clear E; simpl
         | E : State.payload _ = _ |- _ => rewrite E; clear E; simpl
         end.
  done.
Qed.

Lemma sort_key_with_sortId s node key l :
  sort_key (DL.with_nodeHeap
              (alter (Node.with_sortId key) node (DL.nodeHeap s)) s) l
  = sort_key s l.
Proof.
  unfold sort_key. simpl. rewrite list_lookup_alter.
  destruct (decide (node = l)) as [->|]; [|done].
  by destruct (DL.nodeHeap s !! l).
Qed.

(** The sort-id loop only writes sort ids: it leaves every node that is
    not in the bin alone, and gives every node in the bin its key. *)
Lemma sortIDs_loop bin : ∀ s s',
  for_each sortIDs_body bin s = Ok (tt, s') →
  s' = DL.with_nodeHeap (DL.nodeHeap s') s
  ∧ (∀ l, sort_key s' l = sort_key s l)
  ∧ (∀ l, Some l ∉ bin → DL.nodeHeap s' !! l = DL.nodeHeap s !! l)
  ∧ (∀ l, Some l ∈ bin →
       ∃ key, sort_key s l = Some key ∧ sortId_at s' l = Some key)
  ∧ Forall is_Some bin.
Proof.
  induction bin as [|entry bin IH]; intros s s' H; simpl in H.
  - unfold ret in H. simplify_eq. repeat split; try done.
    + by destruct s'.
    + intros l Hl. by apply elem_of_nil in Hl.
  - apply bind_Ok in H as ([] & s1 & Hb & Hrest).
    apply sortIDs_body_spec in Hb as (node & key & -> & Hkey & ->).
    apply IH in Hrest as (Hs' & Hk & Hout & Hin & Hall).
    repeat split.
    + rewrite Hs' at 1. done.
    + intros l. by rewrite Hk, sort_key_with_sortId.
    + intros l Hl. rewrite Hout by (intros ?; apply Hl; by right).
      simpl. apply list_lookup_alter_ne. intros ->. apply Hl. by left.
    + intros l Hl. destruct (decide (Some l ∈ bin)) as [Hb|Hb].
      * destruct (Hin l Hb) as (k & Hk1 & Hk2).
        rewrite sort_key_with_sortId in Hk1. eauto.
      * apply elem_of_cons in Hl as [[= ->]|Hl]; [|done].
        exists key. split; [done|].
        unfold sortId_at. rewrite Hout by done. simpl.
        rewrite list_lookup_alter_eq. unfold sort_key in Hkey.
        by destruct (DL.nodeHeap s !! node) as [n|].
    + constructor; eauto.
Qed.

Lemma _createStateStateSortIDs_unfold bin :
  _createStateStateSortIDs bin
  = (sid <- bound_states ;;;
     sc <- scene_at sid ;;;
     if Scene.stateSortIDsDirty sc then
       for_each sortIDs_body bin ;;;
       upd_scene sid (Scene.with_stateSortIDsDirty false)
     else ret tt).
Proof. reflexivity. Qed.

#[global] Instance sortId_le_trans nodes :
  Transitive (cmp_le (_stateSortNodes nodes)).
Proof. unfold cmp_le, _stateSortNodes. intros a b c. lia. Qed.

#[global] Instance sortId_le_total nodes :
  Total (cmp_le (_stateSortNodes nodes)).
Proof. unfold cmp_le, _stateSortNodes. intros a b. lia. Qed.

Lemma StronglySorted_weaken {A} (R1 R2 : relation A) l :
  (∀ a b, R1 a b → R2 a b) → StronglySorted R1 l → StronglySorted R2 l.
Proof.
  intros HR Hs. induction Hs as [|a l' Hs IH Hall]; constructor; [done|].
  eapply Forall_impl; [exact Hall|]. intros b. apply HR.
Qed.

Lemma js_sort_spec nodes (l : list (option loc)) :
  ∃ sorted,
    js_sort (_stateSortNodes nodes) l
    = (Some <$> sorted) ++ replicate (length l - length sorted) None
    ∧ sorted ≡ₚ omap id l
    ∧ ascending nodes sorted.
Proof.
  exists (merge_sort (cmp_le (_stateSortNodes nodes)) (omap id l)).
  pose proof (merge_sort_Permutation (cmp_le (_stateSortNodes nodes))
                (omap id l)) as Hp.
  split; [|split; [done|]].
  - unfold js_sort. by rewrite (Permutation_length Hp).
  - unfold ascending.
    eapply StronglySorted_weaken;
      [|apply (StronglySorted_merge_sort (cmp_le (_stateSortNodes nodes)))].
    intros a b. unfold cmp_le, _stateSortNodes. lia.
Qed.

Lemma omap_js_set_length (l : list (option loc)) n :
  omap id (js_set_length l n) = omap id (take n l)
  ∧ length (js_set_length l n) = n.
Proof.
  unfold js_set_length. split.
  - rewrite omap_app. 
    assert (H : ∀ k, omap id (replicate k (@None loc)) = [])
      by (induction k; simpl; auto).
    by rewrite H, app_nil_r.
  - rewrite length_app, length_take, length_replicate. lia.
Qed.

Lemma bound_states_Ok s sid :
  DL._states s = Some sid → bound_states s = Ok (sid, s).
Proof. intros H. unfold bound_states, bind, get. by rewrite H. Qed.

Lemma scene_at_Ok s sid sc :
  DL._sceneStates s !! sid = Some sc → scene_at sid s = Ok (sc, s).
Proof. intros H. unfold scene_at, bind, get. by rewrite H. Qed.

(** C4, as the code has it.  When the sort ids are dirty, [_stateSortBins]
    gives every node in the bin the sort id
    [layer priority * 100000 + program id]: two tiers, layer priority
    before program identity, the program's own id used as it is; texture
    and geometry take no part.  The first [lenBin] entries of the bin are
    then sorted by ascending sort id. *)
Theorem C4_sort_key_and_order s s' sid sc :
  DL._states s = Some sid →
  DL._sceneStates s !! sid = Some sc →
  Scene.stateSortIDsDirty sc = true →
  _stateSortBins s = Ok (tt, s') →
  (∀ node, Some node ∈ Scene.bin sc →
     ∃ key, sort_key s node = Some key ∧ sortId_at s' node = Some key)
  ∧ ∃ sc' sorted,
      DL._sceneStates s' !! sid = Some sc'
      ∧ Scene.bin sc'
        = (Some <$> sorted)
          ++ replicate (Scene.lenBin sc - length sorted) None
      ∧ sorted ≡ₚ omap id (take (Scene.lenBin sc) (Scene.bin sc))
      ∧ ascending (DL.nodeHeap s') sorted.
Proof.
  intros Hb Hsc Hdirty H. unfold _stateSortBins in H.
  rewrite (bind_step _ _ _ _ _ (bound_states_Ok _ _ Hb)) in H.
  rewrite (bind_step _ _ _ _ _ (scene_at_Ok _ _ _ Hsc)) in H.
  rewrite Hdirty, _createStateStateSortIDs_unfold in H.
  apply bind_Ok in H as ([] & s2 & Hids & H).
  rewrite (bind_step _ _ _ _ _ (bound_states_Ok _ _ Hb)) in Hids.
  rewrite (bind_step _ _ _ _ _ (scene_at_Ok _ _ _ Hsc)) in Hids.
  rewrite Hdirty in Hids.
  apply bind_Ok in Hids as ([] & s1 & Hloop & Hids).
  apply sortIDs_loop in Hloop as (Hs1 & Hk & Hout & Hin & Hall).
  unfold upd_scene, modify in Hids. injection Hids as <-.
  unfold upd_scene, modify, bind, get in H. simpl in H.
  injection H as <-. simpl.
  split; [exact Hin|].
  assert (Hsc1 : DL._sceneStates s1 !! sid = Some sc)
    by (rewrite Hs1; exact Hsc).
  rewrite !lookup_alter_eq, Hsc1. simpl.
  destruct (js_sort_spec (DL.nodeHeap s1)
              (js_set_length (Scene.bin sc) (Scene.lenBin sc)))
    as (sorted & Hsort & Hperm & Hasc).
  destruct (omap_js_set_length (Scene.bin sc) (Scene.lenBin sc))
    as [Homap Hlen].
  rewrite Hlen in Hsort. rewrite Homap in Hperm.
  eexists _, sorted. split; [done|]. simpl. eauto.
Qed.

(** Two boxes on a layer of priority 2, compiled to the same program, with
    different textures. *)
Definition two_textures : Op unit :=
  sceneCreated "scene" "canvas" ;;;
  bindScene "scene" (Some COMPILE_SCENE) false ;;;
  setLayer (WithArgs (IdStr "layer1")
              (Some {| LayerCore.priority := 2;
                       LayerCore.enabled := true |})) ;;;
  setTexture (WithArgs (IdStr "texA") None) ;;;
  setGeometry (IdStr "geo1") box ;;;
  setTexture (WithArgs (IdStr "texB") None) ;;;
  setGeometry (IdStr "geo2") box.

Definition two_textures_state : DrawList := final_state two_textures.

Definition two_textures_scene : Scene.t :=
  default (new_scene "" "")
    (DL._sceneStates two_textures_state !! "scene").

Definition two_textures_sorted : DrawList :=
  final_state (two_textures ;;; _stateSortBins).

Definition two_textures_tiered : DrawList :=
  final_state (two_textures ;;;
               _createStateStateSortIDsNew [Some 0%nat; Some 1%nat]).

(** C4 as stated fails.  The two nodes of the scene share their layer and
    their program and differ in texture state and in geometry state.
    [_stateSortBins] gives both the sort id 200000 (priority 2 times 100000
    plus program id 0): the key has no texture or geometry tier and its
    tiers are not renumbered densely.  The tiered key
    ([_createStateStateSortIDsNew], which nothing calls) would give them 7
    and 4. *)
Lemma C4_tiered_key_counterexample :
  Scene.bin two_textures_scene = [Some 0%nat; Some 1%nat]
  ∧ (Node.layerState <$> DL.nodeHeap two_textures_state !! 0%nat)
    = (Node.layerState <$> DL.nodeHeap two_textures_state !! 1%nat)
  ∧ (Node.program <$> DL.nodeHeap two_textures_state !! 0%nat)
    = (Node.program <$> DL.nodeHeap two_textures_state !! 1%nat)
  ∧ (Node.texState <$> DL.nodeHeap two_textures_state !! 0%nat)
    ≠ (Node.texState <$> DL.nodeHeap two_textures_state !! 1%nat)
  ∧ (Node.geoState <$> DL.nodeHeap two_textures_state !! 0%nat)
    ≠ (Node.geoState <$> DL.nodeHeap two_textures_state !! 1%nat)
  ∧ _stateSortBins two_textures_state = Ok (tt, two_textures_sorted)
  ∧ sortId_at two_textures_sorted 0 = Some 200000
  ∧ sortId_at two_textures_sorted 1 = Some 200000
  ∧ _createStateStateSortIDsNew (Scene.bin two_textures_scene)
      two_textures_state
    = Ok (tt, two_textures_tiered)
  ∧ sortId_at two_textures_tiered 0 = Some 7
  ∧ sortId_at two_textures_tiered 1 = Some 4.
Proof. vm_compute. repeat split; congruence. Qed.

(** C4 on the two-texture scene. *)
Lemma C4_sort_key_and_order_witness :
  (∀ node, Some node ∈ Scene.bin two_textures_scene →
     ∃ key, sort_key two_textures_state node = Some key
            ∧ sortId_at two_textures_sorted node = Some key)
  ∧ ∃ sc' sorted,
      DL._sceneStates two_textures_sorted !! "scene" = Some sc'
      ∧ Scene.bin sc'
        = (Some <$> sorted)
          ++ replicate (Scene.lenBin two_textures_scene - length sorted)
               None
      ∧ sorted ≡ₚ omap id (take (Scene.lenBin two_textures_scene)
                              (Scene.bin two_textures_scene))
      ∧ ascending (DL.nodeHeap two_textures_sorted) sorted.
Proof.
  apply (C4_sort_key_and_order two_textures_state two_textures_sorted
           "scene" two_textures_scene);
    vm_compute; reflexivity.
Defined.

(** ** The draw-list pass *)

(** What the bin walk decides for one node. *)
Inductive Verdict := VDestroyed | VSkipped | VOpaque | VTransparent.

#[global] Instance Verdict_eq_dec : EqDecision Verdict.
Proof. solve_decision. Defined.

Definition payload_at (s : DrawList) (l : loc) : option Payload :=
  State.payload <$> DL.stateHeap s !! l.

Definition flags_at (s : DrawList) (l : loc) : option Flags.t :=
  match payload_at s l with
  | Some (PFlags flags) => Some flags
  | _ => None
  end.

Definition layer_core_at (s : DrawList) (l : loc) : option LayerCore.t :=
  match payload_at s l with
  | Some (PLayer (Some core)) => Some core
  | _ => None
  end.

(** Whether the tag test skips a node whose tag state is [l]; [None] when
    the tag state cannot be read. *)
Definition tag_skips (tagSelector : option TagSelector) (s : DrawList)
    (l : loc) : option bool :=
  match tagSelector with
  | None => Some false
  | Some sel =>
      if String.eqb (ts_mask sel) "" then Some false
      else
        match payload_at s l with
        | None => None
        | Some (PTag (Some tagCore)) =>
            if bool_decide (TagCore.mask tagCore = Some (ts_mask sel))
            then Some (negb (TagCore.matches tagCore))
            else Some (negb (ts_regex sel (TagCore.tag tagCore)))
        | Some _ => Some false
        end
  end.

(** The routing of a node that was not skipped. *)
Definition route (picking : bool) (flags : Flags.t) : Verdict :=
  if picking && is_false_strict (Flags.picking flags) then VSkipped
  else if negb picking && is_true_strict (Flags.transparent flags)
  then VTransparent
  else VOpaque.

(** The verdict of the main bin walk; [None] when the walk raises. *)
Definition verdict (tagSelector : option TagSelector) (picking : bool)
    (s : DrawList) (node : loc) : option Verdict :=
  n ← DL.nodeHeap s !! node;
  if Node.destroyed n then Some VDestroyed
  else
    flags ← flags_at s (Node.flagsState n);
    if is_false_strict (Flags.enabled flags) then Some VSkipped
    else
      skip ← tag_skips tagSelector s (Node.tagState n);
      if skip : bool then Some VSkipped
      else
        core ← layer_core_at s (Node.layerState n);
        if negb (LayerCore.enabled core) then Some VSkipped
        else Some (route picking flags).

(** The verdict of the walk over the visible cache. *)
Definition cached_verdict (picking : bool) (s : DrawList) (node : loc)
  : option Verdict :=
  n ← DL.nodeHeap s !! node;
  flags ← flags_at s (Node.flagsState n);
  Some (route picking flags).

(** The nodes of a list of bin entries with a given verdict, in order. *)
Definition with_verdict (v : Verdict) (f : loc → option Verdict)
    (entries : list (option loc)) : list loc :=
  filter (λ node, f node = Some v) (omap id entries).

(** The calls of a pass that renders [opaque] at once and [transparent]
    from the transparent bin. *)
Definition pass_calls (opaque transparent : list loc) : list Call :=
  (RenderNode <$> opaque)
  ++ match transparent with
     | [] => []
     | _ => [Enable_BLEND; BlendFunc_SRC_ALPHA]
            ++ (RenderNode <$> transparent) ++ [Disable_BLEND]
     end.

(** The entries a pass walks and the verdict it gives them: the visible
    cache when it is not empty, else the bin. *)
Definition pass_entries (sc : Scene.t) : list (option loc) :=
  if decide (0 < Scene.lenVisibleCacheBin sc)%nat
  then take (Scene.lenVisibleCacheBin sc) (Scene.visibleCacheBin sc)
  else take (Scene.lenBin sc) (Scene.bin sc).

Definition pass_verdict (tagSelector : option TagSelector) (picking : bool)
    (s : DrawList) (sc : Scene.t) : loc → option Verdict :=
  if decide (0 < Scene.lenVisibleCacheBin sc)%nat
  then cached_verdict picking s
  else verdict tagSelector picking s.

(** The name states the renderer records for the nodes it draws. *)
Definition nameStates_of (s : DrawList) (nodes : list loc) : list loc :=
  omap (λ node, Node.nameState <$> DL.nodeHeap s !! node) nodes.

(** The renderer after drawing [nodes]. *)
Definition renderer_after (s : DrawList) (nodes : list loc) (r : Renderer.t)
  : Renderer.t :=
  if Renderer.picking r then
    {| Renderer.picking := true;
       Renderer.pickNameStates :=
         Renderer.pickNameStates r ++ nameStates_of s nodes |}
  else r.

Lemma renderer_after_nil s r : renderer_after s [] r = r.
Proof.
  unfold renderer_after, nameStates_of. simpl. rewrite app_nil_r.
  destruct r as [[] ?]; done.
Qed.

Lemma renderer_after_app s l1 l2 r :
  renderer_after s (l1 ++ l2) r = renderer_after s l2 (renderer_after s l1 r).
Proof.
  unfold renderer_after, nameStates_of. rewrite omap_app.
  destruct (Renderer.picking r) eqn:E; simpl; [|by rewrite E].
  by rewrite app_assoc.
Qed.

(** [renderNode] logs the call and advances the renderer; it touches
    nothing else that the pass looks at. *)
Lemma renderNode_spec sid node s s' sc :
  DL._sceneStates s !! sid = Some sc →
  renderNode sid node s = Ok (tt, s') →
  ∃ sc',
    DL._sceneStates s' !! sid = Some sc'
    ∧ Scene.calls sc' = Scene.calls sc ++ [RenderNode node]
    ∧ Scene.nodeRenderer sc'
      = renderer_after s [node] (Scene.nodeRenderer sc)
    ∧ Scene.bin sc' = Scene.bin sc
    ∧ Scene.lenBin sc' = Scene.lenBin sc
    ∧ Scene.visibleCacheBin sc' = Scene.visibleCacheBin sc
    ∧ Scene.lenVisibleCacheBin sc' = Scene.lenVisibleCacheBin sc
    ∧ DL.nodeHeap s' = DL.nodeHeap s
    ∧ DL.stateHeap s' = DL.stateHeap s
    ∧ DL.transparentBin s' = DL.transparentBin s.
Proof.
  intros Hsc H.
  unfold renderNode, log_call, upd_scene, scene_at, node_at in H.
  apply bind_Ok in H as ([] & s1 & H1 & H). unfold modify in H1.
  injection H1 as <-.
  apply bind_Ok in H as (sc1 & s2 & H1 & H).
  apply bind_Ok in H1 as (? & ? & Hg & H1). unfold get in Hg.
  injection Hg as <- <-. apply deref_Ok in H1 as [H1 ->].
  simpl in H1. rewrite lookup_alter_eq, Hsc in H1. simpl in H1.
  injection H1 as <-. simpl in H. unfold renderer_after. simpl in *.
  destruct (Renderer.picking (Scene.nodeRenderer sc)) eqn:Hp.
  - apply bind_Ok in H as (n & s3 & H1 & H).
    apply bind_Ok in H1 as (? & ? & Hg & H1). unfold get in Hg.
    injection Hg as <- <-. apply deref_Ok in H1 as [H1 ->]. simpl in H1.
    unfold modify in H. injection H as <-. simpl.
    rewrite !lookup_alter_eq, Hsc. simpl. eexists. split; [done|]. simpl.
    unfold nameStates_of. simpl. rewrite H1. simpl.
    repeat split; done.
  - unfold ret in H. injection H as <-. simpl.
    rewrite lookup_alter_eq, Hsc. simpl. eexists. split; [done|]. simpl.
    repeat split; done.
Qed.

(** Two states that agree on what the walk reads give the same verdicts. *)
Definition same_reads (tagSelector : option TagSelector) (s s' : DrawList)
  : Prop :=
  DL.nodeHeap s' = DL.nodeHeap s
  ∧ (∀ l, flags_at s' l = flags_at s l)
  ∧ (∀ l, layer_core_at s' l = layer_core_at s l)
  ∧ (∀ l, tag_skips tagSelector s' l = tag_skips tagSelector s l).

Lemma same_reads_refl tagSelector s : same_reads tagSelector s s.
Proof. repeat split. Qed.

Lemma same_reads_trans tagSelector s1 s2 s3 :
  same_reads tagSelector s1 s2 → same_reads tagSelector s2 s3 →
  same_reads tagSelector s1 s3.
Proof.
  intros (H1 & H2 & H3 & H4) (G1 & G2 & G3 & G4). repeat split.
  - congruence.
  - intros l. by rewrite G2.
  - intros l. by rewrite G3.
  - intros l. by rewrite G4.
Qed.

Lemma same_reads_heaps tagSelector s s' :
  DL.nodeHeap s' = DL.nodeHeap s → DL.stateHeap s' = DL.stateHeap s →
  same_reads tagSelector s s'.
Proof.
  intros Hn Hs. unfold same_reads, flags_at, layer_core_at, tag_skips,
    payload_at. rewrite Hs. repeat split; done.
Qed.

Lemma same_reads_verdict tagSelector picking s s' node :
  same_reads tagSelector s s' →
  verdict tagSelector picking s' node = verdict tagSelector picking s node
  ∧ cached_verdict picking s' node = cached_verdict picking s node.
Proof.
  intros (Hn & Hf & Hl & Ht). unfold verdict, cached_verdict.
  rewrite Hn. destruct (DL.nodeHeap s !! node) as [n|]; [simpl|done].
  by rewrite Hf, Hl, Ht.
Qed.

(** The tag test computes [tag_skips]; the match result it caches on the
    tag core changes no later verdict. *)
Lemma skip_unmatched_tag_spec tagSelector n s b s' :
  skip_unmatched_tag tagSelector n s = Ok (b, s') →
  tag_skips tagSelector s (Node.tagState n) = Some b
  ∧ same_reads tagSelector s s'
  ∧ DL._sceneStates s' = DL._sceneStates s
  ∧ DL.transparentBin s' = DL.transparentBin s.
Proof.
  unfold skip_unmatched_tag, tag_skips.
  destruct tagSelector as [sel|]; [|intros [= <- <-]; split; [done|];
    split; [apply same_reads_refl|done]].
  destruct (String.eqb (ts_mask sel) "") eqn:Hmask;
    [intros [= <- <-]; split; [done|];
     split; [apply same_reads_refl|done]|].
  unfold state_at, upd_state. intros H.
  apply bind_Ok in H as (st & s1 & H1 & H).
  apply bind_Ok in H1 as (? & ? & Hg & H1). unfold get in Hg.
  injection Hg as <- <-. apply deref_Ok in H1 as [Hst ->].
  unfold payload_at. rewrite Hst. simpl.
  destruct (State.payload st) as
    [|?|?|?|?|?|?|?|?|?|?|?|[tagCore|]|?|?|? ?|? ?|? ? ?|?|?|?] eqn:Hpay;
    try (unfold ret in H; injection H as <- <-; split; [done|];
         split; [apply same_reads_refl|done]).
  destruct (bool_decide (TagCore.mask tagCore = Some (ts_mask sel)))
    eqn:Hm; simpl in H.
  - unfold ret in H. injection H as <- <-. split; [done|].
    split; [apply same_reads_refl|done].
  - apply bind_Ok in H as ([] & s2 & H1 & H). unfold modify in H1.
    injection H1 as <-. unfold ret in H. injection H as <- <-.
    split; [done|]. split; [|done].
    unfold same_reads, flags_at, layer_core_at, tag_skips, payload_at.
    simpl. rewrite Hmask.
    repeat split; intros l; rewrite list_lookup_alter;
      destruct (decide (Node.tagState n = l)) as [<-|]; try done;
      rewrite Hst; simpl; rewrite Hpay; try done.
    simpl. rewrite Hm. by rewrite bool_decide_eq_true_2.
Qed.

Lemma for_loop_inv {A} (body : nat → A → Op A)
    (P : nat → A → DrawList → Prop) n : ∀ start acc s r s',
  P start acc s →
  (∀ i a s a' s', (start ≤ i < start + n)%nat →
     P i a s → body i a s = Ok (a', s') → P (S i) a' s') →
  for_loop body start n acc s = Ok (r, s') →
  P (start + n)%nat r s'.
Proof.
  induction n as [|n IH]; intros start acc s r s' H0 Hstep H; simpl in H.
  - unfold ret in H. injection H as <- <-. by rewrite Nat.add_0_r.
  - apply bind_Ok in H as (a1 & s1 & Hb & H).
    replace (start + S n)%nat with (S start + n)%nat by lia.
    eapply IH; [|intros i a s2 a' s2' Hi; apply Hstep; lia|exact H].
    eapply Hstep; [|exact H0|exact Hb]. lia.
Qed.

Lemma scene_at_inv sid s sc s' :
  scene_at sid s = Ok (sc, s') → s' = s ∧ DL._sceneStates s !! sid = Some sc.
Proof.
  unfold scene_at. intros H. apply bind_Ok in H as (? & ? & Hg & H).
  unfold get in Hg. injection Hg as <- <-. by apply deref_Ok in H as [? ->].
Qed.

Lemma node_at_inv l s n s' :
  node_at l s = Ok (n, s') → s' = s ∧ DL.nodeHeap s !! l = Some n.
Proof.
  unfold node_at. intros H. apply bind_Ok in H as (? & ? & Hg & H).
  unfold get in Hg. injection Hg as <- <-. by apply deref_Ok in H as [? ->].
Qed.

Lemma node_flags_inv n s flags s' :
  node_flags n s = Ok (flags, s') →
  s' = s ∧ flags_at s (Node.flagsState n) = Some flags.
Proof.
  unfold node_flags, state_at, flags_at, payload_at. intros H.
  apply bind_Ok in H as (st & ? & H1 & H).
  apply bind_Ok in H1 as (? & ? & Hg & H1). unfold get in Hg.
  injection Hg as <- <-. apply deref_Ok in H1 as [H1 ->]. rewrite H1. simpl.
  destruct (State.payload st); try discriminate H.
  unfold ret in H. by injection H as <- <-.
Qed.

Lemma layer_core_inv n s core s' :
  layer_core n s = Ok (core, s') →
  s' = s ∧ layer_core_at s (Node.layerState n) = Some core.
Proof.
  unfold layer_core, state_at, layer_core_at, payload_at. intros H.
  apply bind_Ok in H as (st & ? & H1 & H).
  apply bind_Ok in H1 as (? & ? & Hg & H1). unfold get in Hg.
  injection Hg as <- <-. apply deref_Ok in H1 as [H1 ->]. rewrite H1. simpl.
  destruct (State.payload st) as
    [|?|?|?|[?|]|?|?|?|?|?|?|?|?|?|?|? ?|? ?|? ? ?|?|?|?];
    try discriminate H.
  unfold ret in H. by injection H as <- <-.
Qed.

Lemma js_get_Some {A} (l : list (option A)) i x :
  js_get l i = Some x ↔ l !! i = Some (Some x).
Proof.
  unfold js_get. destruct (l !! i) as [[y|]|]; simpl; naive_solver.
Qed.

Lemma js_set_inside {A} (l : list (option A)) i v :
  (i < length l)%nat →
  length (js_set l i v) = length l
  ∧ js_set l i v !! i = Some v
  ∧ ∀ j, j ≠ i → js_set l i v !! j = l !! j.
Proof.
  intros Hi. unfold js_set. rewrite decide_True by done.
  rewrite length_insert. split; [done|]. split.
  - by apply list_lookup_insert_eq.
  - intros j Hj. by apply list_lookup_insert_ne.
Qed.

(** Writing the next element of an array that is filled from its start. *)
Lemma js_set_take {A} (l : list (option A)) n v :
  (n ≤ length l)%nat → take (S n) (js_set l n v) = take n l ++ [v].
Proof.
  intros Hn. unfold js_set. destruct (decide (n < length l)%nat) as [Hlt|Hge].
  - rewrite (take_S_r _ _ v) by (by apply list_lookup_insert_eq).
    by rewrite take_insert_ge by lia.
  - assert (n = length l) as -> by lia.
    rewrite Nat.sub_diag. simpl.
    rewrite take_app_ge by (simpl; lia).
    rewrite firstn_all. 
    replace (S (length l) - length l)%nat with 1%nat by lia. done.
Qed.

(** The three loop bodies of [_renderDrawList]. *)
Definition cache_body (sceneId : string) (picking : bool)
    (visibleCacheBin : list (option loc)) : nat → nat → Op nat :=
  λ i nTransparent,
    node <- deref (js_get visibleCacheBin i) ;;;
    n <- node_at node ;;;
    flags <- node_flags n ;;;
    if picking && is_false_strict (Flags.picking flags) then
      ret nTransparent
    else if negb picking && is_true_strict (Flags.transparent flags)
    then
      modify (λ s, DL.with_transparentBin
                     (js_set (DL.transparentBin s) nTransparent
                        (Some node)) s) ;;;
      ret (S nTransparent)
    else
      renderNode sceneId node ;;; ret nTransparent.

Definition walk_body (sceneId : string) (picking : bool)
    (tagSelector : option TagSelector) (len : nat)
  : nat → nat * nat → Op (nat * nat) :=
  λ i '(countDestroyed, nTransparent),
    sc <- scene_at sceneId ;;;
    node <- deref (js_get (Scene.bin sc) i) ;;;
    n <- node_at node ;;;
    if Node.destroyed n then
      if decide (i < len)%nat then
        let countDestroyed := S countDestroyed in
        upd_scene sceneId (λ sc,
          Scene.with_bin
            (js_set (Scene.bin sc) i
               (js_get (Scene.bin sc) (i + countDestroyed))) sc) ;;;
        ret (countDestroyed, nTransparent)
      else ret (countDestroyed, nTransparent)
    else
      (if decide (0 < countDestroyed)%nat then
         upd_scene sceneId (λ sc,
           Scene.with_bin
             (js_set (Scene.bin sc) i
                (js_get (Scene.bin sc) (i + countDestroyed))) sc)
       else ret tt) ;;;
      flags <- node_flags n ;;;
      if is_false_strict (Flags.enabled flags) then
        ret (countDestroyed, nTransparent)
      else
        skip <- skip_unmatched_tag tagSelector n ;;;
        if skip : bool then ret (countDestroyed, nTransparent)
        else
          core <- layer_core n ;;;
          if negb (LayerCore.enabled core) then
            ret (countDestroyed, nTransparent)
          else if picking && is_false_strict (Flags.picking flags)
          then ret (countDestroyed, nTransparent)
          else
            nTransparent <-
              (if negb picking
                  && is_true_strict (Flags.transparent flags)
               then
                 modify (λ s, DL.with_transparentBin
                                (js_set (DL.transparentBin s)
                                   nTransparent (Some node)) s) ;;;
                 ret (S nTransparent)
               else
                 renderNode sceneId node ;;; ret nTransparent) ;;;
            upd_scene sceneId (λ sc,
              Scene.with_lenVisibleCacheBin
                (S (Scene.lenVisibleCacheBin sc))
                (Scene.with_visibleCacheBin
                   (js_set (Scene.visibleCacheBin sc)
                      (Scene.lenVisibleCacheBin sc) (Some node))
                   sc)) ;;;
            ret (countDestroyed, nTransparent).

Definition transparent_body (sceneId : string) : nat → unit → Op unit :=
  λ i _,
    s <- get ;;;
    node <- deref (js_get (DL.transparentBin s) i) ;;;
    renderNode sceneId node.

(** The truncation of the bin after the walk. *)
Definition compact_bin (sceneId : string) (countDestroyed : nat) : Op unit :=
  if decide (0 < countDestroyed)%nat then
    sc <- scene_at sceneId ;;;
    if decide (length (Scene.bin sc) < countDestroyed)%nat
    then throw RangeError
    else
      let n := (length (Scene.bin sc) - countDestroyed)%nat in
      upd_scene sceneId (λ sc,
        Scene.with_lenBin n
          (Scene.with_bin (js_set_length (Scene.bin sc) n) sc))
  else ret tt.

Lemma _renderDrawList_unfold sceneId picking tagSelector :
  _renderDrawList sceneId picking tagSelector
  = (states <- scene_at sceneId ;;;
     nTransparent <-
       (if decide (0 < Scene.lenVisibleCacheBin states)%nat then
          for_loop
            (cache_body sceneId picking (Scene.visibleCacheBin states))
            0 (Scene.lenVisibleCacheBin states) 0%nat
        else
          ' (countDestroyed, nTransparent) <-
            for_loop
              (walk_body sceneId picking tagSelector (Scene.lenBin states))
              0 (Scene.lenBin states) (0%nat, 0%nat) ;;;
          compact_bin sceneId countDestroyed ;;;
          ret nTransparent) ;;;
     if decide (0 < nTransparent)%nat then
       log_call sceneId Enable_BLEND ;;;
       log_call sceneId BlendFunc_SRC_ALPHA ;;;
       for_loop (transparent_body sceneId) 0 nTransparent tt ;;;
       log_call sceneId Disable_BLEND
     else ret tt).
Proof. reflexivity. Qed.

(** [s'] is [s] with scene [sid] replaced by [sc']. *)
Definition scene_step (sid : string) (s s' : DrawList) (sc' : Scene.t)
  : Prop :=
  DL._sceneStates s' !! sid = Some sc'
  ∧ DL.nodeHeap s' = DL.nodeHeap s
  ∧ DL.stateHeap s' = DL.stateHeap s
  ∧ DL.transparentBin s' = DL.transparentBin s.

Lemma upd_scene_spec sid g s s' sc :
  DL._sceneStates s !! sid = Some sc →
  upd_scene sid g s = Ok (tt, s') →
  scene_step sid s s' (g sc).
Proof.
  intros Hsc H. unfold upd_scene, modify in H. injection H as <-.
  unfold scene_step. simpl. by rewrite lookup_alter_eq, Hsc.
Qed.

Definition emits (v : Verdict) (node : loc) : list loc :=
  if decide (v = VOpaque) then [node] else [].

Definition buffers (v : Verdict) (node : loc) : list loc :=
  if decide (v = VTransparent) then [node] else [].

(** The routing step shared by the two walks: an opaque node is rendered
    at once, a transparent node goes to the transparent bin. *)
Lemma route_step sid picking flags node nT s nT' s' sc :
  DL._sceneStates s !! sid = Some sc →
  route picking flags ≠ VSkipped →
  (if negb picking && is_true_strict (Flags.transparent flags)
   then
     modify (λ s, DL.with_transparentBin
                    (js_set (DL.transparentBin s) nT (Some node)) s) ;;;
     ret (S nT)
   else renderNode sid node ;;; ret nT) s = Ok (nT', s') →
  let v := route picking flags in
  ∃ sc',
    DL._sceneStates s' !! sid = Some sc'
    ∧ DL.nodeHeap s' = DL.nodeHeap s
    ∧ DL.stateHeap s' = DL.stateHeap s
    ∧ Scene.bin sc' = Scene.bin sc
    ∧ Scene.lenBin sc' = Scene.lenBin sc
    ∧ Scene.visibleCacheBin sc' = Scene.visibleCacheBin sc
    ∧ Scene.lenVisibleCacheBin sc' = Scene.lenVisibleCacheBin sc
    ∧ Scene.calls sc' = Scene.calls sc ++ (RenderNode <$> emits v node)
    ∧ Scene.nodeRenderer sc'
      = renderer_after s (emits v node) (Scene.nodeRenderer sc)
    ∧ DL.transparentBin s'
      = (if decide (v = VTransparent)
         then js_set (DL.transparentBin s) nT (Some node)
         else DL.transparentBin s)
    ∧ nT' = (nT + length (buffers v node))%nat.
Proof.
  intros Hsc Hv H. unfold route in *. unfold emits, buffers.
  destruct (picking && is_false_strict (Flags.picking flags)); [done|].
  destruct (negb picking && is_true_strict (Flags.transparent flags)).
  - apply bind_Ok in H as ([] & s1 & H1 & H). unfold modify in H1.
    injection H1 as <-. unfold ret in H. injection H as <- <-. simpl.
    exists sc. rewrite app_nil_r, renderer_after_nil.
    repeat split; try done. lia.
  - apply bind_Ok in H as ([] & s1 & H1 & H). unfold ret in H.
    injection H as <- <-.
    apply (renderNode_spec _ _ _ _ _ Hsc) in H1
      as (sc' & ? & ? & ? & ? & ? & ? & ? & ? & ? & ?).
    exists sc'. simpl. repeat split; try done; try lia.
Qed.

Lemma renderer_after_ext s s' nodes r :
  DL.nodeHeap s' = DL.nodeHeap s →
  renderer_after s' nodes r = renderer_after s nodes r.
Proof. intros H. unfold renderer_after, nameStates_of. by rewrite H. Qed.

Lemma flags_at_ext s s' l :
  DL.stateHeap s' = DL.stateHeap s → flags_at s' l = flags_at s l.
Proof. intros H. unfold flags_at, payload_at. by rewrite H. Qed.

(** One step of the main bin walk: the entry read is the one the bin held
    there when the step began, the verdict is [verdict]'s, and only the
    entry at the current index of the bin is written. *)
Lemma walk_body_spec sid picking sel len i cd nT s cd' nT' s' sc :
  DL._sceneStates s !! sid = Some sc →
  walk_body sid picking sel len i (cd, nT) s = Ok ((cd', nT'), s') →
  ∃ node v sc',
    Scene.bin sc !! i = Some (Some node)
    ∧ verdict sel picking s node = Some v
    ∧ same_reads sel s s'
    ∧ DL._sceneStates s' !! sid = Some sc'
    ∧ length (Scene.bin sc') = length (Scene.bin sc)
    ∧ (∀ j, j ≠ i → Scene.bin sc' !! j = Scene.bin sc !! j)
    ∧ Scene.lenBin sc' = Scene.lenBin sc
    ∧ Scene.calls sc' = Scene.calls sc ++ (RenderNode <$> emits v node)
    ∧ Scene.nodeRenderer sc'
      = renderer_after s (emits v node) (Scene.nodeRenderer sc)
    ∧ DL.transparentBin s'
      = (if decide (v = VTransparent)
         then js_set (DL.transparentBin s) nT (Some node)
         else DL.transparentBin s)
    ∧ nT' = (nT + length (buffers v node))%nat.
Proof.
  intros Hsc H. unfold walk_body in H.
  apply bind_Ok in H as (sc0 & ? & H1 & H).
  apply scene_at_inv in H1 as [-> Hsc0].
  rewrite Hsc in Hsc0. injection Hsc0 as <-.
  apply bind_Ok in H as (node & ? & H1 & H).
  apply deref_Ok in H1 as [Hnode ->]. apply js_get_Some in Hnode.
  apply bind_Ok in H as (n & ? & H1 & H).
  apply node_at_inv in H1 as [-> Hn].
  assert (Hi : (i < length (Scene.bin sc))%nat)
    by (eapply lookup_lt_Some; eauto).
  exists node.
  assert (Hshift : ∀ k s1,
    upd_scene sid (λ sc, Scene.with_bin
      (js_set (Scene.bin sc) i (js_get (Scene.bin sc) (i + k))) sc) s
    = Ok (tt, s1) →
    ∃ sc1, scene_step sid s s1 sc1
      ∧ length (Scene.bin sc1) = length (Scene.bin sc)
      ∧ (∀ j, j ≠ i → Scene.bin sc1 !! j = Scene.bin sc !! j)
      ∧ Scene.lenBin sc1 = Scene.lenBin sc
      ∧ Scene.calls sc1 = Scene.calls sc
      ∧ Scene.nodeRenderer sc1 = Scene.nodeRenderer sc).
  { intros k s1 Hu. apply (upd_scene_spec _ _ _ _ _ Hsc) in Hu.
    eexists; split; [exact Hu|]. simpl.
    destruct (js_set_inside (Scene.bin sc) i
                (js_get (Scene.bin sc) (i + k)) Hi) as (? & ? & ?).
    repeat split; done. }
  destruct (Node.destroyed n) eqn:Hd.
  - exists VDestroyed. unfold verdict. rewrite Hn. simpl. rewrite Hd.
    unfold emits, buffers. simpl.
    destruct (decide (i < len)%nat).
    + apply bind_Ok in H as ([] & s1 & Hu & H). unfold ret in H.
      injection H as <- <- <-.
      apply Hshift in Hu as (sc1 & (Hs1 & Hn1 & Hst1 & Htb1) & ? & ? & ? & ? & ?).
      exists sc1. rewrite app_nil_r, renderer_after_nil.
      split; [done|]. split; [done|]. split; [by apply same_reads_heaps|].
      repeat split; try done; try lia.
    + unfold ret in H. injection H as <- <- <-. exists sc.
      rewrite app_nil_r, renderer_after_nil.
      repeat split; try done; try lia.
  - apply bind_Ok in H as ([] & s1 & Hw & H).
    assert (∃ sc1, scene_step sid s s1 sc1
      ∧ length (Scene.bin sc1) = length (Scene.bin sc)
      ∧ (∀ j, j ≠ i → Scene.bin sc1 !! j = Scene.bin sc !! j)
      ∧ Scene.lenBin sc1 = Scene.lenBin sc
      ∧ Scene.calls sc1 = Scene.calls sc
      ∧ Scene.nodeRenderer sc1 = Scene.nodeRenderer sc)
      as (sc1 & (Hs1 & Hn1 & Hst1 & Htb1) & Hlen1 & Hbin1 & HlenBin1
          & Hcalls1 & Hr1).
    { destruct (decide (0 < cd)%nat); [by apply Hshift in Hw|].
      unfold ret in Hw. injection Hw as <-. exists sc.
      repeat split; done. }
    clear Hshift Hw.
    assert (Hsame1 : same_reads sel s s1) by (by apply same_reads_heaps).
    apply bind_Ok in H as (flags & ? & H1 & H).
    apply node_flags_inv in H1 as [-> Hflags].
    rewrite (flags_at_ext _ _ _ Hst1) in Hflags.
    assert (Hskipped : ∀ s2, same_reads sel s s2 →
      DL._sceneStates s2 = DL._sceneStates s1 →
      DL.transparentBin s2 = DL.transparentBin s1 →
      ∃ sc',
        same_reads sel s s2
        ∧ DL._sceneStates s2 !! sid = Some sc'
        ∧ length (Scene.bin sc') = length (Scene.bin sc)
        ∧ (∀ j, j ≠ i → Scene.bin sc' !! j = Scene.bin sc !! j)
        ∧ Scene.lenBin sc' = Scene.lenBin sc
        ∧ Scene.calls sc' = Scene.calls sc ++ (RenderNode <$> emits VSkipped node)
        ∧ Scene.nodeRenderer sc'
          = renderer_after s (emits VSkipped node) (Scene.nodeRenderer sc)
        ∧ DL.transparentBin s2
          = (if decide (VSkipped = VTransparent)
             then js_set (DL.transparentBin s) nT (Some node)
             else DL.transparentBin s)
        ∧ nT = (nT + length (buffers VSkipped node))%nat).
    { intros s2 Hsame Hsc2 Htb2. exists sc1. unfold emits, buffers. simpl.
      rewrite app_nil_r, renderer_after_nil, Hsc2, Htb2.
      repeat split; try done; try lia; apply Hsame. }
    unfold verdict. rewrite Hn. simpl. rewrite Hd, Hflags. simpl.
    destruct (is_false_strict (Flags.enabled flags)) eqn:He.
    + unfold ret in H. injection H as <- <- <-. exists VSkipped.
      destruct (Hskipped s1 Hsame1 eq_refl eq_refl) as (sc' & Hrest).
      exists sc'. split; [done|]. split; [done|]. exact Hrest.
    + apply bind_Ok in H as (skip & s2 & H1 & H).
      apply skip_unmatched_tag_spec in H1 as (Htag & Hsame2 & Hsc2 & Htb2).
      assert (Hsame : same_reads sel s s2)
        by (eapply same_reads_trans; eauto).
      destruct Hsame1 as (_ & _ & _ & Ht1). rewrite Ht1 in Htag.
      rewrite Htag. simpl.
      destruct skip.
      * unfold ret in H. injection H as <- <- <-. exists VSkipped.
        destruct (Hskipped s2 Hsame Hsc2 Htb2) as (sc' & Hrest).
        exists sc'. split; [done|]. split; [done|]. exact Hrest.
      * apply bind_Ok in H as (core & ? & H1 & H).
        apply layer_core_inv in H1 as [-> Hcore].
        destruct Hsame as (Hn2 & Hf2 & Hl2 & Ht2). rewrite Hl2 in Hcore.
        rewrite Hcore. simpl.
        assert (Hsame : same_reads sel s s2) by (repeat split; done).
        destruct (negb (LayerCore.enabled core)) eqn:Hle.
        { unfold ret in H. injection H as <- <- <-. exists VSkipped.
          destruct (Hskipped s2 Hsame Hsc2 Htb2) as (sc' & Hrest).
          exists sc'. split; [done|]. split; [done|]. exact Hrest. }
        destruct (picking && is_false_strict (Flags.picking flags)) eqn:Hp.
        { unfold ret in H. injection H as <- <- <-. exists VSkipped.
          destruct (Hskipped s2 Hsame Hsc2 Htb2) as (sc' & Hrest).
          exists sc'. split; [done|].
          split; [by unfold route; rewrite Hp|]. exact Hrest. }
        apply bind_Ok in H as (nT2 & s3 & H1 & H).
        assert (Hsc2' : DL._sceneStates s2 !! sid = Some sc1)
          by (by rewrite Hsc2).
        assert (Hv : route picking flags ≠ VSkipped).
        { unfold route. rewrite Hp. destruct (negb picking && _); congruence. }
        apply (route_step _ _ _ _ _ _ _ _ _ Hsc2' Hv) in H1
          as (sc3 & Hsc3 & Hn3 & Hst3 & Hbin3 & HlenBin3 & Hvc3 & Hlvc3
              & Hcalls3 & Hr3 & Htb3 & HnT).
        apply bind_Ok in H as ([] & s4 & H1 & H). unfold ret in H.
        injection H as <- <- <-.
        apply (upd_scene_spec _ _ _ _ _ Hsc3) in H1
          as (Hsc4 & Hn4 & Hst4 & Htb4).
        exists (route picking flags). eexists. split; [done|].
        split; [done|]. split.
        { eapply same_reads_trans; [exact Hsame|].
          apply same_reads_heaps; congruence. }
        split; [exact Hsc4|]. simpl.
        rewrite Hbin3, HlenBin3, Hcalls3, Hr3, Hcalls1, Hr1, Htb4, Htb3.
        rewrite (renderer_after_ext s s2) by done.
        rewrite Htb2, Htb1.
        repeat split; done.
Qed.

Lemma with_verdict_snoc v' f l node v :
  f node = Some v →
  with_verdict v' f (l ++ [Some node])
  = with_verdict v' f l ++ (if decide (v = v') then [node] else []).
Proof.
  intros Hf. unfold with_verdict. rewrite omap_app, filter_app. simpl.
  f_equal. rewrite filter_cons, filter_nil.
  destruct (decide (f node = Some v')) as [E|E];
    destruct (decide (v = v')) as [E'|E']; try done; congruence.
Qed.

(** Every walked entry is a node and has a verdict. *)
Definition all_judged (f : loc → option Verdict)
    (entries : list (option loc)) : Prop :=
  Forall (λ e, ∃ node v, e = Some node ∧ f node = Some v) entries.

(** The state of a walk that has gone through [seen]. *)
Definition walked (sid : string) (f : loc → option Verdict)
    (s0 : DrawList) (sc0 : Scene.t) (seen : list (option loc))
    (nT : nat) (s : DrawList) (sc : Scene.t) : Prop :=
  all_judged f seen
  ∧ DL.nodeHeap s = DL.nodeHeap s0
  ∧ DL._sceneStates s !! sid = Some sc
  ∧ Scene.calls sc
    = Scene.calls sc0 ++ (RenderNode <$> with_verdict VOpaque f seen)
  ∧ Scene.nodeRenderer sc
    = renderer_after s0 (with_verdict VOpaque f seen)
        (Scene.nodeRenderer sc0)
  ∧ take nT (DL.transparentBin s)
    = Some <$> with_verdict VTransparent f seen
  ∧ nT = length (with_verdict VTransparent f seen).

Lemma walked_start sid f s sc :
  DL._sceneStates s !! sid = Some sc → walked sid f s sc [] 0 s sc.
Proof.
  intros Hsc. unfold walked, all_judged, with_verdict. simpl.
  rewrite app_nil_r, renderer_after_nil, take_0. repeat split; done.
Qed.

(** One more entry: a node with verdict [v], handled as the walks do. *)
Lemma walked_step sid f s0 sc0 seen nT s sc node v s' sc' nT' :
  walked sid f s0 sc0 seen nT s sc →
  f node = Some v →
  DL.nodeHeap s' = DL.nodeHeap s →
  DL._sceneStates s' !! sid = Some sc' →
  Scene.calls sc' = Scene.calls sc ++ (RenderNode <$> emits v node) →
  Scene.nodeRenderer sc'
  = renderer_after s (emits v node) (Scene.nodeRenderer sc) →
  DL.transparentBin s'
  = (if decide (v = VTransparent)
     then js_set (DL.transparentBin s) nT (Some node)
     else DL.transparentBin s) →
  nT' = (nT + length (buffers v node))%nat →
  walked sid f s0 sc0 (seen ++ [Some node]) nT' s' sc'.
Proof.
  intros (Hall & Hn & Hsc & Hcalls & Hr & Htb & HnT) Hf Hn' Hsc' Hcalls'
    Hr' Htb' HnT'.
  unfold walked.
  rewrite !(with_verdict_snoc _ _ _ _ _ Hf).
  split; [apply Forall_app; split; [done|]; constructor; eauto|].
  split; [congruence|]. split; [done|].
  split; [rewrite Hcalls', Hcalls, fmap_app, app_assoc; done|].
  split.
  { rewrite Hr', Hr, (renderer_after_ext s0 s) by done.
    by rewrite renderer_after_app. }
  assert (HnTle : (nT ≤ length (DL.transparentBin s))%nat).
  { apply (f_equal length) in Htb.
    rewrite length_take, length_fmap in Htb. lia. }
  unfold buffers in HnT'. rewrite Htb'.
  destruct (decide (v = VTransparent)) as [->|Hv]; simpl in HnT'.
  - replace nT' with (S nT) by lia.
    rewrite js_set_take by done. rewrite Htb, fmap_app, length_app.
    simpl. split; [done|lia].
  - replace nT' with nT by lia. rewrite !app_nil_r. done.
Qed.

(** The main bin walk as a whole. *)
Lemma walk_loop_spec sid picking sel len n s sc cd nT s' :
  DL._sceneStates s !! sid = Some sc →
  for_loop (walk_body sid picking sel len) 0 n (0%nat, 0%nat) s
  = Ok ((cd, nT), s') →
  ∃ sc',
    length (take n (Scene.bin sc)) = n
    ∧ same_reads sel s s'
    ∧ Scene.lenBin sc' = Scene.lenBin sc
    ∧ length (Scene.bin sc') = length (Scene.bin sc)
    ∧ walked sid (verdict sel picking s) s sc (take n (Scene.bin sc))
        nT s' sc'.
Proof.
  intros Hsc H.
  pose (P := λ (i : nat) (a : nat * nat) (si : DrawList),
    ∃ sci,
      length (take i (Scene.bin sc)) = i
      ∧ same_reads sel s si
      ∧ Scene.lenBin sci = Scene.lenBin sc
      ∧ length (Scene.bin sci) = length (Scene.bin sc)
      ∧ (∀ j, (i ≤ j)%nat → Scene.bin sci !! j = Scene.bin sc !! j)
      ∧ walked sid (verdict sel picking s) s sc (take i (Scene.bin sc))
          a.2 si sci).
  assert (HP : P (0 + n)%nat (cd, nT) s').
  { eapply (for_loop_inv _ P); [| |exact H].
    - exists sc. rewrite take_0.
      split; [done|]. split; [apply same_reads_refl|].
      split; [done|]. split; [done|]. split; [done|].
      by apply walked_start.
    - clear H. intros i [cdi nTi] si [cdi' nTi'] si' Hi
        (sci & Hlen & Hsame & HlenBin & Hblen & Hbin & Hw) Hbody.
      simpl in Hw.
      assert (Hsci : DL._sceneStates si !! sid = Some sci) by apply Hw.
      apply (walk_body_spec _ _ _ _ _ _ _ _ _ _ _ _ Hsci) in Hbody
        as (node & v & sci' & Hnode & Hv & Hsame' & Hsci' & Hblen'
            & Hbin' & HlenBin' & Hcalls' & Hr' & Htb' & HnT').
      rewrite Hbin in Hnode by lia.
      rewrite (proj1 (same_reads_verdict _ _ _ _ _ Hsame)) in Hv.
      exists sci'. rewrite (take_S_r _ _ _ Hnode).
      split; [rewrite length_app, Hlen; simpl; lia|].
      split; [eapply same_reads_trans; eauto|].
      split; [congruence|]. split; [congruence|].
      split; [intros j Hj; rewrite Hbin' by lia; apply Hbin; lia|].
      simpl. eapply walked_step; eauto. apply Hsame'. }
  destruct HP as (sc' & ? & ? & ? & ? & ? & ?). exists sc'. eauto.
Qed.

(** One step of the walk over the visible cache. *)
Lemma cache_body_spec sid picking vcb i nT s nT' s' sc :
  DL._sceneStates s !! sid = Some sc →
  cache_body sid picking vcb i nT s = Ok (nT', s') →
  ∃ node v sc',
    vcb !! i = Some (Some node)
    ∧ cached_verdict picking s node = Some v
    ∧ DL.nodeHeap s' = DL.nodeHeap s
    ∧ DL.stateHeap s' = DL.stateHeap s
    ∧ DL._sceneStates s' !! sid = Some sc'
    ∧ Scene.calls sc' = Scene.calls sc ++ (RenderNode <$> emits v node)
    ∧ Scene.nodeRenderer sc'
      = renderer_after s (emits v node) (Scene.nodeRenderer sc)
    ∧ DL.transparentBin s'
      = (if decide (v = VTransparent)
         then js_set (DL.transparentBin s) nT (Some node)
         else DL.transparentBin s)
    ∧ nT' = (nT + length (buffers v node))%nat.
Proof.
  intros Hsc H. unfold cache_body in H.
  apply bind_Ok in H as (node & ? & H1 & H).
  apply deref_Ok in H1 as [Hnode ->]. apply js_get_Some in Hnode.
  apply bind_Ok in H as (n & ? & H1 & H).
  apply node_at_inv in H1 as [-> Hn].
  apply bind_Ok in H as (flags & ? & H1 & H).
  apply node_flags_inv in H1 as [-> Hflags].
  exists node, (route picking flags).
  unfold cached_verdict. rewrite Hn. simpl. rewrite Hflags. simpl.
  destruct (picking && is_false_strict (Flags.picking flags)) eqn:Hp.
  - unfold ret in H. injection H as <- <-. exists sc.
    unfold route, emits, buffers. rewrite Hp. simpl.
    rewrite app_nil_r, renderer_after_nil. repeat split; try done; try lia.
  - assert (Hv : route picking flags ≠ VSkipped).
    { unfold route. rewrite Hp. destruct (negb picking && _); congruence. }
    apply (route_step _ _ _ _ _ _ _ _ _ Hsc Hv) in H
      as (sc' & ? & ? & ? & ? & ? & ? & ? & ? & ? & ? & ?).
    exists sc'. repeat split; done.
Qed.

Lemma cache_loop_spec sid picking vcb n s sc nT s' :
  DL._sceneStates s !! sid = Some sc →
  for_loop (cache_body sid picking vcb) 0 n 0%nat s = Ok (nT, s') →
  ∃ sc',
    DL.stateHeap s' = DL.stateHeap s
    ∧ walked sid (cached_verdict picking s) s sc (take n vcb) nT s' sc'.
Proof.
  intros Hsc H.
  pose (P := λ (i : nat) (a : nat) (si : DrawList),
    ∃ sci,
      DL.stateHeap si = DL.stateHeap s
      ∧ walked sid (cached_verdict picking s) s sc (take i vcb) a si sci).
  assert (HP : P (0 + n)%nat nT s').
  { eapply (for_loop_inv _ P); [| |exact H].
    - exists sc. rewrite take_0. split; [done|]. by apply walked_start.
    - clear H. intros i nTi si nTi' si' Hi (sci & Hst & Hw) Hbody.
      assert (Hsci : DL._sceneStates si !! sid = Some sci) by apply Hw.
      assert (Hni : DL.nodeHeap si = DL.nodeHeap s) by apply Hw.
      apply (cache_body_spec _ _ _ _ _ _ _ _ _ Hsci) in Hbody
        as (node & v & sci' & Hnode & Hv & Hn' & Hst' & Hsci' & Hcalls'
            & Hr' & Htb' & HnT').
      assert (Hsame : same_reads None s si)
        by (by apply same_reads_heaps).
      rewrite (proj2 (same_reads_verdict _ _ _ _ _ Hsame)) in Hv.
      exists sci'. rewrite (take_S_r _ _ _ Hnode).
      split; [congruence|]. eapply walked_step; eauto. }
  exact HP.
Qed.

Lemma log_call_spec sid c s s' sc :
  DL._sceneStates s !! sid = Some sc →
  log_call sid c s = Ok (tt, s') →
  scene_step sid s s' (Scene.with_calls (Scene.calls sc ++ [c]) sc).
Proof. intros Hsc H. by apply (upd_scene_spec _ _ _ _ _ Hsc) in H. Qed.

(** The loop that renders the transparent bin. *)
Lemma transparent_loop_spec sid n s s' sc nodes :
  DL._sceneStates s !! sid = Some sc →
  take n (DL.transparentBin s) = Some <$> nodes →
  length nodes = n →
  for_loop (transparent_body sid) 0 n tt s = Ok (tt, s') →
  ∃ sc',
    DL._sceneStates s' !! sid = Some sc'
    ∧ DL.nodeHeap s' = DL.nodeHeap s
    ∧ Scene.calls sc' = Scene.calls sc ++ (RenderNode <$> nodes)
    ∧ Scene.nodeRenderer sc' = renderer_after s nodes (Scene.nodeRenderer sc).
Proof.
  intros Hsc Htb Hlen H.
  pose (P := λ (i : nat) (a : unit) (si : DrawList),
    ∃ sci,
      DL._sceneStates si !! sid = Some sci
      ∧ DL.nodeHeap si = DL.nodeHeap s
      ∧ DL.transparentBin si = DL.transparentBin s
      ∧ Scene.calls sci = Scene.calls sc ++ (RenderNode <$> take i nodes)
      ∧ Scene.nodeRenderer sci
        = renderer_after s (take i nodes) (Scene.nodeRenderer sc)).
  assert (HP : P (0 + n)%nat tt s').
  { eapply (for_loop_inv _ P); [| |exact H].
    - exists sc. rewrite take_0. simpl.
      rewrite app_nil_r, renderer_after_nil. repeat split; done.
    - clear H. intros i [] si [] si' Hi
        (sci & Hsci & Hni & Htbi & Hcalls & Hr) Hbody.
      unfold transparent_body in Hbody.
      apply bind_Ok in Hbody as (? & ? & Hg & Hbody). unfold get in Hg.
      injection Hg as <- <-.
      apply bind_Ok in Hbody as (node & ? & H1 & Hbody).
      apply deref_Ok in H1 as [Hnode ->]. apply js_get_Some in Hnode.
      rewrite Htbi in Hnode.
      assert (Hnode' : nodes !! i = Some node).
      { apply (f_equal (.!! i)) in Htb.
        rewrite lookup_take_lt, Hnode, list_lookup_fmap in Htb by lia.
        destruct (nodes !! i); simpl in Htb; congruence. }
      apply (renderNode_spec _ _ _ _ _ Hsci) in Hbody
        as (sci' & ? & Hcalls' & Hr' & ? & ? & ? & ? & ? & ? & ?).
      exists sci'. rewrite (take_S_r _ _ _ Hnode').
      split; [done|]. split; [congruence|]. split; [congruence|].
      split; [rewrite Hcalls', Hcalls, fmap_app, app_assoc; done|].
      rewrite Hr', Hr, (renderer_after_ext s si) by done.
      by rewrite renderer_after_app. }
  destruct HP as (sc' & ? & ? & ? & Hcalls & Hr). simpl in *.
  rewrite firstn_all2 in Hcalls, Hr by lia. eauto.
Qed.

Lemma compact_bin_spec sid cd s s' sc :
  DL._sceneStates s !! sid = Some sc →
  compact_bin sid cd s = Ok (tt, s') →
  ∃ sc',
    scene_step sid s s' sc'
    ∧ Scene.calls sc' = Scene.calls sc
    ∧ Scene.nodeRenderer sc' = Scene.nodeRenderer sc.
Proof.
  intros Hsc H. unfold compact_bin in H.
  destruct (decide (0 < cd)%nat).
  - apply bind_Ok in H as (sc0 & ? & H1 & H).
    apply scene_at_inv in H1 as [-> Hsc0].
    destruct (decide (length (Scene.bin sc0) < cd)%nat); [done|].
    apply (upd_scene_spec _ _ _ _ _ Hsc) in H. eexists. split; [exact H|].
    done.
  - unfold ret in H. injection H as <-. exists sc. repeat split; done.
Qed.

(** The transparent sub-pass, after a walk that has gone through all its
    entries. *)
Lemma transparent_pass_spec sid f s sc entries nT s1 sc1 s' :
  walked sid f s sc entries nT s1 sc1 →
  (if decide (0 < nT)%nat then
     log_call sid Enable_BLEND ;;;
     log_call sid BlendFunc_SRC_ALPHA ;;;
     for_loop (transparent_body sid) 0 nT tt ;;;
     log_call sid Disable_BLEND
   else ret tt) s1 = Ok (tt, s') →
  ∃ sc',
    DL._sceneStates s' !! sid = Some sc'
    ∧ DL.nodeHeap s' = DL.nodeHeap s
    ∧ all_judged f entries
    ∧ Scene.calls sc'
      = Scene.calls sc
        ++ pass_calls (with_verdict VOpaque f entries)
             (with_verdict VTransparent f entries)
    ∧ Scene.nodeRenderer sc'
      = renderer_after s
          (with_verdict VOpaque f entries
           ++ with_verdict VTransparent f entries)
          (Scene.nodeRenderer sc).
Proof.
  intros (Hall & Hn & Hsc1 & Hcalls & Hr & Htb & HnT) H.
  unfold pass_calls.
  destruct (decide (0 < nT)%nat) as [Hpos|Hzero].
  - apply bind_Ok in H as ([] & s2 & H1 & H).
    apply (log_call_spec _ _ _ _ _ Hsc1) in H1 as (Hsc2 & Hn2 & _ & Htb2).
    apply bind_Ok in H as ([] & s3 & H1 & H).
    apply (log_call_spec _ _ _ _ _ Hsc2) in H1 as (Hsc3 & Hn3 & _ & Htb3).
    apply bind_Ok in H as ([] & s4 & H1 & H).
    rewrite <- Htb2, <- Htb3 in Htb.
    apply (transparent_loop_spec _ _ _ _ _ _ Hsc3 Htb (eq_sym HnT)) in H1
      as (sc4 & Hsc4 & Hn4 & Hcalls4 & Hr4).
    apply (log_call_spec _ _ _ _ _ Hsc4) in H as (Hsc5 & Hn5 & _ & _).
    eexists. split; [exact Hsc5|]. split; [congruence|]. split; [done|].
    simpl. rewrite Hcalls4, Hr4. simpl. rewrite Hcalls, Hr.
    destruct (with_verdict VTransparent f entries) as [|t ts] eqn:Htr;
      [simpl in HnT; lia|].
    split.
    + rewrite <- !app_assoc. simpl. done.
    + rewrite (renderer_after_ext s s3) by congruence.
      by rewrite renderer_after_app.
  - unfold ret in H. injection H as <-.
    destruct (with_verdict VTransparent f entries) as [|t ts] eqn:Htr;
      [|simpl in HnT; lia].
    exists sc1. rewrite !app_nil_r. repeat split; done.
Qed.

(** The calls of a whole draw-list pass. *)
Lemma renderDrawList_spec sid picking sel s s' sc :
  DL._sceneStates s !! sid = Some sc →
  _renderDrawList sid picking sel s = Ok (tt, s') →
  let f := pass_verdict sel picking s sc in
  let entries := pass_entries sc in
  ∃ sc',
    DL._sceneStates s' !! sid = Some sc'
    ∧ DL.nodeHeap s' = DL.nodeHeap s
    ∧ all_judged f entries
    ∧ Scene.calls sc'
      = Scene.calls sc
        ++ pass_calls (with_verdict VOpaque f entries)
             (with_verdict VTransparent f entries)
    ∧ Scene.nodeRenderer sc'
      = renderer_after s
          (with_verdict VOpaque f entries
           ++ with_verdict VTransparent f entries)
          (Scene.nodeRenderer sc).
Proof.
  intros Hsc H. rewrite _renderDrawList_unfold in H.
  rewrite (bind_step _ _ _ _ _ (scene_at_Ok _ _ _ Hsc)) in H.
  apply bind_Ok in H as (nT & s1 & H1 & H).
  unfold pass_verdict, pass_entries.
  destruct (decide (0 < Scene.lenVisibleCacheBin sc)%nat).
  - apply (cache_loop_spec _ _ _ _ _ _ _ _ Hsc) in H1 as (sc1 & _ & Hw).
    by apply (transparent_pass_spec _ _ _ _ _ _ _ _ _ Hw) in H.
  - apply bind_Ok in H1 as ([cd nT1] & s2 & H1 & H2).
    apply (walk_loop_spec _ _ _ _ _ _ _ _ _ _ Hsc) in H1
      as (sc2 & _ & _ & _ & _ & Hw).
    apply bind_Ok in H2 as ([] & s3 & H2 & H3). unfold ret in H3.
    injection H3 as <- <-.
    destruct Hw as (Hall & Hn & Hsc2 & Hcalls & Hr & Htb & HnT).
    apply (compact_bin_spec _ _ _ _ _ Hsc2) in H2
      as (sc3 & (Hsc3 & Hn3 & _ & Htb3) & Hcalls3 & Hr3).
    assert (Hw : walked sid (verdict sel picking s) s sc
                   (take (Scene.lenBin sc) (Scene.bin sc)) nT1 s3 sc3).
    { unfold walked. rewrite Hcalls3, Hr3, Htb3.
      repeat split; try done. congruence. }
    by apply (transparent_pass_spec _ _ _ _ _ _ _ _ _ Hw) in H.
Qed.

(** Whether a node's flags say [transparent: true]. *)
Definition is_transparent (s : DrawList) (node : loc) : bool :=
  match DL.nodeHeap s !! node ≫= λ n, flags_at s (Node.flagsState n) with
  | Some flags => is_true_strict (Flags.transparent flags)
  | None => false
  end.

Lemma route_no_picking flags :
  route false flags
  = if is_true_strict (Flags.transparent flags) then VTransparent
    else VOpaque.
Proof. reflexivity. Qed.

(** In a non-picking pass a node that is not skipped is buffered exactly
    when its flags say [transparent: true]. *)
Lemma pass_verdict_transparency sel s sc node v :
  pass_verdict sel false s sc node = Some v →
  (v = VTransparent → is_transparent s node = true)
  ∧ (v = VOpaque → is_transparent s node = false).
Proof.
  unfold pass_verdict, is_transparent.
  destruct (decide _) as [Hc|Hc]; unfold verdict, cached_verdict;
    (destruct (DL.nodeHeap s !! node) as [n|]; [simpl|done]).
  - destruct (flags_at s (Node.flagsState n)) as [flags|]; [simpl|done].
    rewrite route_no_picking. intros [= <-].
    destruct (is_true_strict (Flags.transparent flags)); split; congruence.
  - destruct (Node.destroyed n); [intros [= <-]; split; congruence|].
    destruct (flags_at s (Node.flagsState n)) as [flags|]; [simpl|done].
    destruct (is_false_strict (Flags.enabled flags));
      [intros [= <-]; split; congruence|].
    destruct (tag_skips sel s (Node.tagState n)) as [[]|]; simpl;
      [intros [= <-]; split; congruence| |done].
    destruct (layer_core_at s (Node.layerState n)) as [core|]; [simpl|done].
    destruct (negb (LayerCore.enabled core));
      [intros [= <-]; split; congruence|].
    rewrite route_no_picking. intros [= <-].
    destruct (is_true_strict (Flags.transparent flags)); split; congruence.
Qed.

(** C6.  In a non-picking draw-list pass, the nodes are rendered in two
    runs: first every opaque node the walk does not skip, in the order of
    the walk; then, between enabling and disabling blending, every
    transparent node the walk does not skip, again in the order of the
    walk.  A node counts as transparent exactly when its flags say
    [transparent: true].  Sort ids are not consulted: the order within each
    run is the order of the entries walked. *)
Theorem C6_transparent_after_opaque sid tagSelector s s' sc :
  DL._sceneStates s !! sid = Some sc →
  _renderDrawList sid false tagSelector s = Ok (tt, s') →
  let f := pass_verdict tagSelector false s sc in
  let entries := pass_entries sc in
  let opaque := with_verdict VOpaque f entries in
  let transparent := with_verdict VTransparent f entries in
  ∃ sc',
    DL._sceneStates s' !! sid = Some sc'
    ∧ all_judged f entries
    ∧ Scene.calls sc'
      = Scene.calls sc
        ++ (RenderNode <$> opaque)
        ++ match transparent with
           | [] => []
           | _ => [Enable_BLEND; BlendFunc_SRC_ALPHA]
                  ++ (RenderNode <$> transparent) ++ [Disable_BLEND]
           end
    ∧ Forall (λ node, is_transparent s node = false) opaque
    ∧ Forall (λ node, is_transparent s node = true) transparent.
Proof.
  intros Hsc H.
  apply (renderDrawList_spec _ _ _ _ _ _ Hsc) in H
    as (sc' & Hsc' & _ & Hall & Hcalls & _).
  simpl. exists sc'. split; [done|]. split; [done|].
  split; [exact Hcalls|].
  split; apply Forall_forall; intros node Hnode;
    apply list_elem_of_filter in Hnode as [Hv _];
    by apply pass_verdict_transparency in Hv as [? ?]; auto.
Qed.

(** An opaque wall on a layer of priority 5, then a transparent window on
    the default layer (priority 0): the sort puts the window first in the
    bin. *)
Definition glass : Flags.t :=
  {| Flags.picking := FTrue; Flags.enabled := FTrue;
     Flags.transparent := FTrue |}.

Definition wall_then_window : Op unit :=
  sceneCreated "scene" "canvas" ;;;
  bindScene "scene" (Some COMPILE_SCENE) false ;;;
  setLayer (WithArgs (IdStr "back")
              (Some {| LayerCore.priority := 5;
                       LayerCore.enabled := true |})) ;;;
  setGeometry (IdStr "wall") box ;;;
  setLayer NoArgs ;;;
  setFlags (WithArgs (IdStr "glass") (Some glass)) ;;;
  setGeometry (IdStr "window") box.

Definition wall_window_sorted : DrawList :=
  final_state (wall_then_window ;;; _stateSortBins).

Definition wall_window_sorted_scene : Scene.t :=
  default (new_scene "" "")
    (DL._sceneStates wall_window_sorted !! "scene").

Definition wall_window_drawn : DrawList :=
  final_state (wall_then_window ;;; _stateSortBins ;;;
               _renderDrawList "scene" false None).

(** C6 on the wall and the window: the window (node 1) precedes the wall
    (node 0) in the sorted bin, and the wall is still rendered first. *)
Lemma C6_transparent_after_opaque_witness :
  Scene.bin wall_window_sorted_scene = [Some 1%nat; Some 0%nat]
  ∧ ∃ sc',
      DL._sceneStates wall_window_drawn !! "scene" = Some sc'
      ∧ Scene.calls sc'
        = [RenderNode 0; Enable_BLEND; BlendFunc_SRC_ALPHA; RenderNode 1;
           Disable_BLEND].
Proof.
  split; [vm_compute; reflexivity|].
  destruct (C6_transparent_after_opaque "scene" None wall_window_sorted
              wall_window_drawn wall_window_sorted_scene)
    as (sc' & Hsc' & _ & Hcalls & _).
  - vm_compute; reflexivity.
  - vm_compute; reflexivity.
  - exists sc'. split; [exact Hsc'|]. rewrite Hcalls. vm_compute.
    reflexivity.
Defined.

(** ** Picking after a removal *)

(** What [removeGeometry]'s releases leave alone: every scene field but the
    state map, and the display nodes. *)
Lemma frame_scenes_releaseState {B} (g : Scene.t → B) l :
  (∀ sc m, g (Scene.with_stateMap m sc) = g sc) →
  frame (λ s, g <$> DL._sceneStates s) (_releaseState l).
Proof.
  intros Hg. unfold _releaseState, upd_state.
  frame_tac; auto with frame.
  apply frame_upd_scene. intros sc.
  by destruct (Scene.stateMap sc !! _).
Qed.

Lemma frame_scenes_releaseProgram {B} (g : Scene.t → B) p :
  frame (λ s, g <$> DL._sceneStates s) (_releaseProgram p).
Proof.
  unfold _releaseProgram, upd_program. frame_tac; auto with frame.
Qed.

Lemma frame_nodeHeap_releaseState l : frame DL.nodeHeap (_releaseState l).
Proof.
  unfold _releaseState, upd_state, upd_scene. frame_tac; auto with frame.
Qed.

Lemma frame_nodeHeap_releaseProgram p :
  frame DL.nodeHeap (_releaseProgram p).
Proof.
  unfold _releaseProgram, upd_program. frame_tac; auto with frame.
Qed.

(** The releases of one display node, as in [removeGeometry]. *)
Definition release_node (n : Node.t) : Op unit :=
  _releaseProgram (Node.program n) ;;;
  _releaseState (Node.geoState n) ;;;
  _releaseState (Node.flagsState n) ;;;
  _releaseState (Node.layerState n) ;;;
  _releaseState (Node.rendererState n) ;;;
  _releaseState (Node.lightState n) ;;;
  _releaseState (Node.colortransState n) ;;;
  _releaseState (Node.materialState n) ;;;
  _releaseState (Node.modelXFormState n) ;;;
  _releaseState (Node.viewXFormState n) ;;;
  _releaseState (Node.projXFormState n) ;;;
  _releaseState (Node.texState n) ;;;
  _releaseState (Node.pickColorState n) ;;;
  _releaseState (Node.frameBufState n) ;;;
  _releaseState (Node.clipState n) ;;;
  _releaseState (Node.morphState n) ;;;
  _releaseState (Node.nameState n) ;;;
  _releaseState (Node.tagState n) ;;;
  _releaseState (Node.renderListenersState n) ;;;
  _releaseState (Node.shaderState n) ;;;
  _releaseState (Node.shaderParamsState n).

Definition remove_node (node : loc) : Op unit :=
  upd_node node (Node.with_destroyed true) ;;;
  n <- node_at node ;;;
  release_node n.

Lemma removeGeometry_unfold sceneId id :
  removeGeometry sceneId id
  = (sceneState <- scene_at sceneId ;;;
     match Scene.geoNodesMap sceneState !! toKey id with
     | Some None => ret tt
     | Some (Some nodes) =>
         for_each remove_node nodes ;;;
         upd_scene sceneId (λ sc, Scene.with_geoNodesMap
                                    (<[toKey id := None]>
                                       (Scene.geoNodesMap sc)) sc) ;;;
         upd_scene sceneId (Scene.with_lenVisibleCacheBin 0%nat)
     | None =>
         match Object_prototype (toKey id) with
         | None => ret tt
         | Some (InheritedFunction 0) =>
             upd_scene sceneId (λ sc, Scene.with_geoNodesMap
                                        (<[toKey id := None]>
                                           (Scene.geoNodesMap sc)) sc) ;;;
             upd_scene sceneId (Scene.with_lenVisibleCacheBin 0%nat)
         | Some (InheritedFunction _) => throw TypeError
         | Some InheritedPrototype =>
             throw (Unmodelled "geoNodesMap prototype replaced")
         end
     end).
Proof. reflexivity. Qed.

Lemma frame_scenes_release_node {B} (g : Scene.t → B) n :
  (∀ sc m, g (Scene.with_stateMap m sc) = g sc) →
  frame (λ s, g <$> DL._sceneStates s) (release_node n).
Proof.
  intros Hg. unfold release_node.
  repeat first [ apply frame_scenes_releaseState; exact Hg
               | apply frame_scenes_releaseProgram
               | frame_step ].
Qed.

Lemma frame_nodeHeap_release_node n : frame DL.nodeHeap (release_node n).
Proof.
  unfold release_node.
  repeat first [ apply frame_nodeHeap_releaseState
               | apply frame_nodeHeap_releaseProgram
               | frame_step ].
Qed.

Lemma frame_scenes_remove_node {B} (g : Scene.t → B) node :
  (∀ sc m, g (Scene.with_stateMap m sc) = g sc) →
  frame (λ s, g <$> DL._sceneStates s) (remove_node node).
Proof.
  intros Hg. unfold remove_node, upd_node.
  repeat first [ apply frame_scenes_release_node; exact Hg
               | apply frame_node_at
               | frame_step ].
Qed.

(** Removing a node marks it destroyed and changes no other node. *)
Lemma remove_node_spec node s s' :
  remove_node node s = Ok (tt, s') →
  is_Some (DL.nodeHeap s !! node)
  ∧ DL.nodeHeap s' = alter (Node.with_destroyed true) node (DL.nodeHeap s).
Proof.
  unfold remove_node, upd_node. intros H.
  apply bind_Ok in H as ([] & s1 & H1 & H). unfold modify in H1.
  injection H1 as <-.
  apply bind_Ok in H as (n & ? & H1 & H).
  apply node_at_inv in H1 as [-> Hn]. simpl in Hn.
  apply frame_nodeHeap_release_node in H. rewrite H. simpl.
  split; [|done]. rewrite list_lookup_alter_eq in Hn.
  destruct (DL.nodeHeap s !! node); [eauto|done].
Qed.

(** A flag that is set stays set. *)
Definition destroyed_at (s : DrawList) (node : loc) : Prop :=
  Node.destroyed <$> DL.nodeHeap s !! node = Some true.

Lemma remove_nodes_spec nodes : ∀ s s',
  for_each remove_node nodes s = Ok (tt, s') →
  (∀ node, node ∈ nodes → destroyed_at s' node)
  ∧ (∀ node, destroyed_at s node → destroyed_at s' node)
  ∧ (∀ node, node ∉ nodes → DL.nodeHeap s' !! node = DL.nodeHeap s !! node).
Proof.
  unfold destroyed_at.
  induction nodes as [|node nodes IH]; intros s s' H; simpl in H.
  - unfold ret in H. injection H as <-. repeat split; try done.
    intros node Hn. by apply elem_of_nil in Hn.
  - apply bind_Ok in H as ([] & s1 & H1 & H).
    apply remove_node_spec in H1 as [[n Hn] Hs1].
    apply IH in H as (Hin & Hkeep & Hout).
    assert (Hnode : Node.destroyed <$> DL.nodeHeap s1 !! node = Some true).
    { rewrite Hs1, list_lookup_alter_eq, Hn. done. }
    repeat split.
    + intros node' [->|Hn']%elem_of_cons; auto.
    + intros node' Hd. apply Hkeep. rewrite Hs1, list_lookup_alter.
      destruct (decide (node = node')) as [<-|]; [|done].
      by rewrite Hn.
    + intros node' Hn'. rewrite Hout by (intros ?; apply Hn'; by right).
      rewrite Hs1. apply list_lookup_alter_ne. intros ->. apply Hn'.
      by left.
Qed.

(** What the pick routine reads of a scene, besides its bin. *)
Definition pick_view (sc : Scene.t) :=
  (Scene.bin sc, Scene.lenBin sc, Scene.pickBufDirty sc,
   Scene.pickCallListDirty sc, Scene.pickBuf sc, Scene.nodeRenderer sc).

(** A removal that finds display nodes marks them destroyed, empties the
    visible cache, and leaves the bin array and the pick buffer's dirty
    flags as they were. *)
Lemma removeGeometry_spec sid id s s1 sc nodes :
  DL._sceneStates s !! sid = Some sc →
  Scene.geoNodesMap sc !! toKey id = Some (Some nodes) →
  removeGeometry sid id s = Ok (tt, s1) →
  (∀ node, node ∈ nodes → destroyed_at s1 node)
  ∧ (∀ node, destroyed_at s node → destroyed_at s1 node)
  ∧ (∀ node, node ∉ nodes → DL.nodeHeap s1 !! node = DL.nodeHeap s !! node)
  ∧ ∃ sc1,
      DL._sceneStates s1 !! sid = Some sc1
      ∧ Scene.lenVisibleCacheBin sc1 = 0%nat
      ∧ pick_view sc1 = pick_view sc.
Proof.
  intros Hsc Hg H. rewrite removeGeometry_unfold in H.
  rewrite (bind_step _ _ _ _ _ (scene_at_Ok _ _ _ Hsc)), Hg in H.
  apply bind_Ok in H as ([] & s2 & Hloop & H).
  pose proof (frame_for_each (λ s, pick_view <$> DL._sceneStates s)
                remove_node nodes
                (λ node, frame_scenes_remove_node pick_view node
                           (λ _ _, eq_refl)) _ _ _ Hloop) as Hview.
  apply remove_nodes_spec in Hloop as (Hin & Hkeep & Hout).
  apply (f_equal (.!! sid)) in Hview. rewrite !lookup_fmap, Hsc in Hview.
  destruct (DL._sceneStates s2 !! sid) as [sc2|] eqn:Hsc2; [|done].
  simpl in Hview. injection Hview as Hview.
  unfold upd_scene, modify, bind in H. injection H as <-.
  unfold destroyed_at in *. simpl. repeat split; try done.
  rewrite !lookup_alter_eq, Hsc2. simpl. eexists. split; [done|].
  split; [done|]. unfold pick_view. simpl. congruence.
Qed.

(** What a pass reads of a scene. *)
Definition walk_view (sc : Scene.t) :=
  (Scene.bin sc, Scene.lenBin sc, Scene.visibleCacheBin sc,
   Scene.lenVisibleCacheBin sc).

Lemma pass_ext sel picking s s1 sc sc1 :
  walk_view sc1 = walk_view sc →
  DL.nodeHeap s1 = DL.nodeHeap s →
  DL.stateHeap s1 = DL.stateHeap s →
  pass_entries sc1 = pass_entries sc
  ∧ pass_verdict sel picking s1 sc1 = pass_verdict sel picking s sc.
Proof.
  unfold walk_view. intros [= Hb Hl Hv Hlv] Hn Hs.
  unfold pass_entries, pass_verdict, verdict, cached_verdict, flags_at,
    layer_core_at, tag_skips, payload_at.
  by rewrite Hb, Hl, Hv, Hlv, Hn, Hs.
Qed.

(** A picking pass buffers nothing: no verdict is [VTransparent]. *)
Lemma pass_verdict_picking sel s sc node :
  pass_verdict sel true s sc node ≠ Some VTransparent.
Proof.
  assert (Hr : ∀ flags, route true flags ≠ VTransparent).
  { intros flags. unfold route. simpl.
    by destruct (is_false_strict (Flags.picking flags)). }
  unfold pass_verdict.
  destruct (decide _) as [Hc|Hc]; unfold verdict, cached_verdict;
    (destruct (DL.nodeHeap s !! node) as [n|]; [simpl|done]).
  - destruct (flags_at s (Node.flagsState n)) as [flags|]; [simpl|done].
    intros [= E]. by apply Hr in E.
  - destruct (Node.destroyed n); [done|].
    destruct (flags_at s (Node.flagsState n)) as [flags|]; [simpl|done].
    destruct (is_false_strict (Flags.enabled flags)); [done|].
    destruct (tag_skips sel s (Node.tagState n)) as [[]|]; simpl;
      [done| |done].
    destruct (layer_core_at s (Node.layerState n)) as [core|]; [simpl|done].
    destruct (negb (LayerCore.enabled core)); [done|].
    intros [= E]. by apply Hr in E.
Qed.

Lemma with_verdict_none v f entries :
  (∀ node, f node ≠ Some v) → with_verdict v f entries = [].
Proof.
  intros Hf. unfold with_verdict.
  induction (omap id entries) as [|node l IH]; [done|].
  rewrite filter_cons. destruct (decide (f node = Some v)) as [E|E]; [|done].
  by apply Hf in E.
Qed.

(** A pick that finds the pick buffer stale renders the pick pass anew:
    the renderer's name states are then those of the nodes this pass drew,
    in order. *)
Lemma pick_rerender_spec raster sid x y sel s hit s' sc :
  DL._sceneStates s !! sid = Some sc →
  Scene.pickCallListDirty sc || Scene.pickBufDirty sc = true →
  pick raster sid x y sel s = Ok (hit, s') →
  ∃ sc',
    DL._sceneStates s' !! sid = Some sc'
    ∧ DL.nodeHeap s' = DL.nodeHeap s
    ∧ all_judged (pass_verdict sel true s sc) (pass_entries sc)
    ∧ Renderer.pickNameStates (Scene.nodeRenderer sc')
      = nameStates_of s
          (with_verdict VOpaque (pass_verdict sel true s sc)
             (pass_entries sc))
    ∧ Scene.pickBufDirty sc' = false
    ∧ Scene.pickCallListDirty sc' = false.
Proof.
  intros Hsc Hdirty H. unfold pick in H.
  apply bind_Ok in H as (? & ? & Hg & H). unfold get in Hg.
  injection Hg as <- <-. rewrite Hsc in H.
  apply bind_Ok in H as ([] & s1 & H1 & H).
  assert (∃ sc1, DL._sceneStates s1 !! sid = Some sc1
            ∧ DL.nodeHeap s1 = DL.nodeHeap s
            ∧ DL.stateHeap s1 = DL.stateHeap s
            ∧ Scene.pickCallListDirty sc1 || Scene.pickBufDirty sc1 = true
            ∧ walk_view sc1 = walk_view sc) as (sc1 & Hsc1 & Hn1 & Hst1
                                               & Hd1 & Hv1).
  { destruct (Scene.pickBuf sc).
    - unfold ret in H1. injection H1 as <-. exists sc. repeat split; done.
    - apply bind_Ok in H1 as ([] & s0 & H0 & H1).
      apply (upd_scene_spec _ _ _ _ _ Hsc) in H0 as (Hsc0 & Hn0 & Hst0 & _).
      apply (upd_scene_spec _ _ _ _ _ Hsc0) in H1 as (Hsc1 & Hn1 & Hst1 & _).
      eexists. split; [exact Hsc1|]. simpl.
      rewrite orb_true_r. repeat split; congruence. }
  clear H1 Hdirty.
  apply bind_Ok in H as ([] & s2 & H1 & H).
  apply (log_call_spec _ _ _ _ _ Hsc1) in H1 as (Hsc2 & Hn2 & Hst2 & _).
  apply bind_Ok in H as (sc2 & ? & H1 & H).
  apply scene_at_inv in H1 as [-> Hsc2']. rewrite Hsc2 in Hsc2'.
  injection Hsc2' as <-. simpl in H. rewrite Hd1 in H.
  apply bind_Ok in H as ([] & s3 & Hpass & H).
  apply bind_Ok in Hpass as ([] & s4 & H1 & Hpass).
  apply (log_call_spec _ _ _ _ _ Hsc2) in H1 as (Hsc4 & Hn4 & Hst4 & _).
  apply bind_Ok in Hpass as ([] & s5 & H1 & Hpass).
  apply (upd_scene_spec _ _ _ _ _ Hsc4) in H1 as (Hsc5 & Hn5 & Hst5 & _).
  apply bind_Ok in Hpass as ([] & s6 & H1 & Hpass).
  unfold renderer_init in H1.
  apply bind_Ok in H1 as ([] & s7 & H1 & H7).
  apply (log_call_spec _ _ _ _ _ Hsc5) in H1 as (Hsc7 & Hn7 & Hst7 & _).
  apply (upd_scene_spec _ _ _ _ _ Hsc7) in H7 as (Hsc6 & Hn6 & Hst6 & _).
  apply bind_Ok in Hpass as ([] & s8 & H1 & Hpass).
  apply (renderDrawList_spec _ _ _ _ _ _ Hsc6) in H1
    as (sc8 & Hsc8 & Hn8 & Hall & _ & Hr8).
  match type of Hall with
  | all_judged (pass_verdict _ _ _ ?scA) _ =>
      destruct (pass_ext sel true s s6 sc scA) as [He Hf];
        [exact Hv1|congruence|congruence|]
  end.
  rewrite He, Hf in Hall, Hr8. clear He Hf.
  apply bind_Ok in Hpass as ([] & s9 & H1 & Hpass).
  apply (log_call_spec _ _ _ _ _ Hsc8) in H1 as (Hsc9 & Hn9 & Hst9 & _).
  apply bind_Ok in Hpass as ([] & s10 & H1 & Hpass).
  apply (upd_scene_spec _ _ _ _ _ Hsc9) in H1 as (Hsc10 & Hn10 & Hst10 & _).
  apply bind_Ok in Hpass as ([] & s11 & H1 & Hpass).
  apply (upd_scene_spec _ _ _ _ _ Hsc10) in H1 as (Hsc11 & Hn11 & Hst11 & _).
  apply (upd_scene_spec _ _ _ _ _ Hsc11) in Hpass
    as (Hsc3 & Hn3 & Hst3 & _).
  apply bind_Ok in H as (sc3 & ? & H1 & H).
  apply scene_at_inv in H1 as [-> Hsc3']. rewrite Hsc3 in Hsc3'.
  injection Hsc3' as <-.
  apply bind_Ok in H as ([] & s12 & H1 & H).
  apply (log_call_spec _ _ _ _ _ Hsc3) in H1 as (Hsc12 & Hn12 & Hst12 & _).
  assert (Hs' : DL._sceneStates s' = DL._sceneStates s12
                ∧ DL.nodeHeap s' = DL.nodeHeap s12).
  { destruct (pickNameState _ _).
    - unfold state_at in H. inv_op. done.
    - unfold ret in H. injection H as <- <-. done. }
  destruct Hs' as [Hs' Hn'].
  eexists. rewrite Hs'. split; [exact Hsc12|]. simpl.
  split; [congruence|]. split; [exact Hall|].
  split; [|done]. rewrite Hr8. simpl.
  unfold renderer_after. simpl.
  assert (Htr : with_verdict VTransparent (pass_verdict sel true s sc)
                  (pass_entries sc) = []).
  { apply with_verdict_none. intros node. apply pass_verdict_picking. }
  rewrite Htr, app_nil_r. unfold nameStates_of.
  by rewrite Hn6, Hn7, Hn5, Hn4, Hn2, Hn1.
Qed.

Lemma pickNameState_elem_of pns pix l :
  pickNameState pns pix = Some l → l ∈ pns.
Proof.
  unfold pickNameState. destruct (pickIndex pix <? 0); [done|].
  apply list_elem_of_lookup_2.
Qed.

(** A node the bin walk renders is not destroyed. *)
Lemma verdict_opaque_live sel picking s node :
  verdict sel picking s node = Some VOpaque →
  ∃ n, DL.nodeHeap s !! node = Some n ∧ Node.destroyed n = false.
Proof.
  unfold verdict. destruct (DL.nodeHeap s !! node) as [n|]; [simpl|done].
  destruct (Node.destroyed n) eqn:Hd; [done|]. intros _. eauto.
Qed.

(** C7, as the code has it.  Take a removal that finds display nodes, in a
    scene whose pick buffer is stale ([pickBufDirty] or [pickCallListDirty]
    set, as after any [renderFrame]), followed at once by a pick.  The
    removal leaves the bin array as it was and marks the nodes destroyed;
    the pick renders the pick pass anew over the bin and skips the
    destroyed nodes.  So a hit, if there is one, is a node of the bin that
    was not removed and is not destroyed; and when every node of the bin
    is destroyed the pick returns [null]. *)
Theorem C7_pick_after_remove raster sid id x y sel s s1 s2 hit sc nodes :
  DL._sceneStates s !! sid = Some sc →
  Scene.geoNodesMap sc !! toKey id = Some (Some nodes) →
  Scene.pickCallListDirty sc || Scene.pickBufDirty sc = true →
  removeGeometry sid id s = Ok (tt, s1) →
  pick raster sid x y sel s1 = Ok (hit, s2) →
  (∃ sc1, DL._sceneStates s1 !! sid = Some sc1
          ∧ Scene.bin sc1 = Scene.bin sc
          ∧ Scene.lenBin sc1 = Scene.lenBin sc)
  ∧ (∀ node, node ∈ nodes → destroyed_at s1 node)
  ∧ (hit = None
     ∨ ∃ node n st,
         Some node ∈ take (Scene.lenBin sc) (Scene.bin sc)
         ∧ node ∉ nodes
         ∧ DL.nodeHeap s1 !! node = Some n
         ∧ Node.destroyed n = false
         ∧ DL.stateHeap s2 !! Node.nameState n = Some st
         ∧ hit = Some {| name := match State.payload st with
                                 | PName name => name
                                 | _ => None
                                 end |})
  ∧ ((∀ node, Some node ∈ take (Scene.lenBin sc) (Scene.bin sc) →
        destroyed_at s1 node) →
     hit = None).
Proof.
  intros Hsc Hg Hdirty Hrm Hpick.
  apply (removeGeometry_spec _ _ _ _ _ _ Hsc Hg) in Hrm
    as (Hin & Hkeep & Hout & sc1 & Hsc1 & Hlvc & Hview).
  unfold pick_view in Hview.
  injection Hview as Hbin HlenBin Hpbd Hpcd Hpb Hr.
  assert (Hdirty1 : Scene.pickCallListDirty sc1 || Scene.pickBufDirty sc1
                    = true) by (by rewrite Hpbd, Hpcd).
  pose proof (pick_rerender_spec _ _ _ _ _ _ _ _ _ Hsc1 Hdirty1 Hpick)
    as (sc2 & Hsc2 & Hn2 & Hall & Hpns & _).
  apply pick_hit_spec in Hpick as (sc2' & Hsc2' & Hhit).
  rewrite Hsc2 in Hsc2'. injection Hsc2' as <-.
  assert (He : pass_entries sc1 = take (Scene.lenBin sc) (Scene.bin sc)).
  { unfold pass_entries. rewrite Hlvc, Hbin, HlenBin.
    by rewrite decide_False by lia. }
  assert (Hf : pass_verdict sel true s1 sc1 = verdict sel true s1).
  { unfold pass_verdict. rewrite Hlvc. by rewrite decide_False by lia. }
  rewrite He, Hf in Hpns. rewrite Hpns in Hhit.
  assert (Hdrawn : ∀ l,
    l ∈ nameStates_of s1
          (with_verdict VOpaque (verdict sel true s1)
             (take (Scene.lenBin sc) (Scene.bin sc))) →
    ∃ node n,
      Some node ∈ take (Scene.lenBin sc) (Scene.bin sc)
      ∧ node ∉ nodes
      ∧ DL.nodeHeap s1 !! node = Some n
      ∧ Node.destroyed n = false
      ∧ Node.nameState n = l).
  { intros l Hl. unfold nameStates_of in Hl.
    apply list_elem_of_omap in Hl as (node & Hnode & Hname).
    apply list_elem_of_filter in Hnode as [Hv Hnode].
    apply list_elem_of_omap in Hnode as (entry & Hentry & Hid).
    simpl in Hid. subst entry.
    apply verdict_opaque_live in Hv as (n & Hn & Hd).
    rewrite Hn in Hname. simpl in Hname. injection Hname as <-.
    exists node, n. repeat split; try done.
    intros Hnodes. apply Hin in Hnodes. unfold destroyed_at in Hnodes.
    rewrite Hn in Hnodes. simpl in Hnodes. congruence. }
  split; [eauto|]. split; [exact Hin|]. split.
  - destruct (pickNameState _ _) as [l|] eqn:Hl; [|by left]. right.
    apply pickNameState_elem_of in Hl.
    apply Hdrawn in Hl as (node & n & ? & ? & ? & ? & <-).
    destruct Hhit as (st & Hst & ->). exists node, n, st. done.
  - intros Hdead.
    destruct (pickNameState _ _) as [l|] eqn:Hl; [|done].
    apply pickNameState_elem_of in Hl.
    apply Hdrawn in Hl as (node & n & Hnode & _ & Hn & Hd & _).
    apply Hdead in Hnode. unfold destroyed_at in Hnode.
    rewrite Hn in Hnode. simpl in Hnode. congruence.
Qed.

(** A rasteriser under which the node drawn first covers every pixel. *)
Definition covers_all : Raster :=
  λ drawn _ _, match drawn with [] => None | _ => Some 0%nat end.

Definition one_box_picked : DrawList :=
  final_state (one_box ;;; renderFrame no_params ;;;
               pick covers_all "scene" 10 10 None).

Definition one_box_picked_removed : DrawList :=
  final_state (one_box ;;; renderFrame no_params ;;;
               pick covers_all "scene" 10 10 None ;;;
               removeGeometry "scene" (IdStr "geo1")).

Definition one_box_repicked : DrawList :=
  final_state (one_box ;;; renderFrame no_params ;;;
               pick covers_all "scene" 10 10 None ;;;
               removeGeometry "scene" (IdStr "geo1") ;;;
               pick covers_all "scene" 10 10 None).

(** C7 as stated fails.  The box is rendered and picked (a hit), which
    leaves the pick buffer clean.  [removeGeometry] marks the box
    destroyed but sets neither [pickBufDirty] nor [pickCallListDirty], so
    the pick that follows reads the buffer as it is and returns the box
    again. *)
Lemma C7_stale_pick_counterexample :
  pick covers_all "scene" 10 10 None one_box_rendered
  = Ok (Some {| name := Some "box" |}, one_box_picked)
  ∧ removeGeometry "scene" (IdStr "geo1") one_box_picked
    = Ok (tt, one_box_picked_removed)
  ∧ destroyed_at one_box_picked_removed 0
  ∧ pick covers_all "scene" 10 10 None one_box_picked_removed
    = Ok (Some {| name := Some "box" |}, one_box_repicked).
Proof. vm_compute. repeat split; reflexivity. Qed.

Definition one_box_rendered_removed : DrawList :=
  final_state (one_box ;;; renderFrame no_params ;;;
               removeGeometry "scene" (IdStr "geo1")).

Definition one_box_removed_picked : DrawList :=
  final_state (one_box ;;; renderFrame no_params ;;;
               removeGeometry "scene" (IdStr "geo1") ;;;
               pick covers_all "scene" 10 10 None).

(** C7 on the one-box scene right after a frame: the removed box stays in
    the bin array, is destroyed, and the pick returns [null]. *)
Lemma C7_pick_after_remove_witness :
  pick covers_all "scene" 10 10 None one_box_rendered_removed
  = Ok (None, one_box_removed_picked)
  ∧ (∃ sc1, DL._sceneStates one_box_rendered_removed !! "scene" = Some sc1
            ∧ Scene.bin sc1 = Scene.bin one_box_rendered_scene
            ∧ Scene.lenBin sc1 = Scene.lenBin one_box_rendered_scene)
  ∧ destroyed_at one_box_rendered_removed 0.
Proof.
  assert (Hpick : pick covers_all "scene" 10 10 None one_box_rendered_removed
                  = Ok (None, one_box_removed_picked))
    by (vm_compute; reflexivity).
  split; [exact Hpick|].
  destruct (C7_pick_after_remove covers_all "scene" (IdStr "geo1") 10 10
              None one_box_rendered one_box_rendered_removed
              one_box_removed_picked None one_box_rendered_scene [0%nat])
    as (H1 & H2 & _).
  - vm_compute; reflexivity.
  - vm_compute; reflexivity.
  - vm_compute; reflexivity.
  - vm_compute; reflexivity.
  - exact Hpick.
  - split; [exact H1|]. apply H2. apply list_elem_of_In. left. reflexivity.
Defined.

(** ** The program cache and its reference counts *)

(** What the program cache needs to know of a display node. *)
Record Core := {
  c_program : loc;
  c_destroyed : bool;
  c_stateHash : string
}.

Definition node_core (n : Node.t) : Core :=
  {| c_program := Node.program n; c_destroyed := Node.destroyed n;
     c_stateHash := Node.stateHash n |}.

(** The part of the state the program cache depends on: the display nodes'
    cores, the programs, the cache, and the nodes registered per scene and
    owner id. *)
Definition prog_view (s : DrawList) :=
  (node_core <$> DL.nodeHeap s, DL.programHeap s, DL._programs s, geoMaps s).

(** The live display nodes that reference program [p]. *)
Definition live_nodes (s : DrawList) (p : loc) : list Node.t :=
  filter (λ n, Node.program n = p ∧ Node.destroyed n = false)
    (DL.nodeHeap s).

Definition live_cores (cores : list Core) (p : loc) : list Core :=
  filter (λ c, c_program c = p ∧ c_destroyed c = false) cores.

Lemma live_nodes_cores s p :
  length (live_nodes s p) = length (live_cores (node_core <$> DL.nodeHeap s) p).
Proof.
  unfold live_nodes, live_cores.
  induction (DL.nodeHeap s) as [|n l IH]; [done|].
  rewrite fmap_cons, !filter_cons. simpl.
  destruct (decide (Node.program n = p ∧ Node.destroyed n = false));
    simpl; by rewrite IH.
Qed.

Lemma fmap_alter_core (h : Node.t → Node.t) l (nodes : list Node.t) :
  (∀ n, node_core (h n) = node_core n) →
  node_core <$> alter h l nodes = node_core <$> nodes.
Proof.
  intros Hh. apply list_eq. intros i.
  rewrite !list_lookup_fmap, list_lookup_alter.
  destruct (decide (l = i)) as [->|]; [|done].
  destruct (nodes !! i); simpl; by rewrite ?Hh.
Qed.

(** Leaves of frame goals about [prog_view]. *)
Lemma frame_view_upd_state l h : frame prog_view (upd_state l h).
Proof. unfold upd_state. by apply frame_modify. Qed.

Lemma frame_view_set_soup ty l : frame prog_view (set_soup ty l).
Proof. unfold set_soup. by apply frame_modify. Qed.

Lemma frame_view_upd_scene sid g :
  (∀ sc, Scene.geoNodesMap (g sc) = Scene.geoNodesMap sc) →
  frame prog_view (upd_scene sid g).
Proof.
  intros Hg. unfold upd_scene. apply frame_modify. intros s.
  unfold prog_view, geoMaps. simpl. by rewrite fmap_alter_same.
Qed.

Lemma frame_view_upd_node l h :
  (∀ n, node_core (h n) = node_core n) →
  frame prog_view (upd_node l h).
Proof.
  intros Hh. unfold upd_node. apply frame_modify. intros s.
  unfold prog_view. simpl. by rewrite fmap_alter_core.
Qed.

Lemma frame_view_log_call sid c : frame prog_view (log_call sid c).
Proof. unfold log_call. by apply frame_view_upd_scene. Qed.

Ltac view_step :=
  first
    [ apply frame_view_upd_state
    | apply frame_view_set_soup
    | apply frame_view_log_call
    | apply frame_view_upd_scene;
        intros ?; simpl; first [done | by repeat case_match]
    | apply frame_view_upd_node; intros ?; done
    | solve [auto with frame]
    | frame_step ].
Ltac view_tac := repeat view_step.

Lemma frame_view_getState ty id : frame prog_view (_getState ty id).
Proof.
  unfold _getState. view_tac.
  all: try (unfold prog_view; by destruct s).
Qed.

Lemma frame_view_releaseState l : frame prog_view (_releaseState l).
Proof. unfold _releaseState. view_tac. Qed.

Lemma frame_view_count_node ty : frame prog_view (count_node ty).
Proof. unfold count_node. view_tac. Qed.

Lemma frame_view_soup_hash ty : frame prog_view (soup_hash ty).
Proof. unfold soup_hash. view_tac. Qed.

Lemma frame_view_getSceneHash : frame prog_view _getSceneHash.
Proof. unfold _getSceneHash. repeat (view_step || apply frame_view_soup_hash). Qed.

#[global] Hint Resolve frame_view_getState frame_view_releaseState
  frame_view_count_node frame_view_getSceneHash : frame.

Lemma frame_view_call_setter c : frame prog_view (call_setter c).
Proof.
  destruct c; simpl.
  all: match goal with |- frame _ (?f _) => unfold f end.
  all: view_tac.
Qed.

Lemma frame_view_layer_core n : frame prog_view (layer_core n).
Proof. unfold layer_core. view_tac. Qed.

Lemma frame_view_node_flags n : frame prog_view (node_flags n).
Proof. unfold node_flags. view_tac. Qed.

Lemma frame_view_skip_unmatched_tag sel n :
  frame prog_view (skip_unmatched_tag sel n).
Proof. unfold skip_unmatched_tag. view_tac. Qed.

Lemma frame_view_renderNode sid node : frame prog_view (renderNode sid node).
Proof. unfold renderNode. view_tac. Qed.

Lemma frame_view_renderer_init sid picking :
  frame prog_view (renderer_init sid picking).
Proof. unfold renderer_init. view_tac. Qed.

#[global] Hint Resolve frame_view_layer_core frame_view_node_flags
  frame_view_skip_unmatched_tag frame_view_renderNode
  frame_view_renderer_init : frame.

Lemma frame_view_createStateStateSortIDs bin :
  frame prog_view (_createStateStateSortIDs bin).
Proof. unfold _createStateStateSortIDs. view_tac. Qed.

Lemma frame_view_stateSortBins : frame prog_view _stateSortBins.
Proof.
  unfold _stateSortBins.
  repeat (view_step || apply frame_view_createStateStateSortIDs).
Qed.

Lemma frame_view_renderDrawList sid picking sel :
  frame prog_view (_renderDrawList sid picking sel).
Proof. unfold _renderDrawList. view_tac. Qed.

Lemma frame_view_renderFrame params : frame prog_view (renderFrame params).
Proof.
  unfold renderFrame, renderer_cleanup.
  repeat (view_step || apply frame_view_stateSortBins
          || apply frame_view_renderDrawList).
Qed.

Lemma frame_view_pick raster sid x y sel :
  frame prog_view (pick raster sid x y sel).
Proof.
  unfold pick, renderer_cleanup.
  repeat (view_step || apply frame_view_renderDrawList).
Qed.

(** [node.destroyed = true], [program.refCount++], [program.refCount--]. *)
Definition destroy (c : Core) : Core :=
  {| c_program := c_program c; c_destroyed := true;
     c_stateHash := c_stateHash c |}.

Definition incr (p : Program.t) : Program.t :=
  Program.with_refCount (Program.refCount p + 1) p.

Definition decr (p : Program.t) : Program.t :=
  Program.with_refCount (Program.refCount p - 1) p.

(** Which display nodes are registered under which scene and owner id. *)
Definition Listing := string → string → list loc → Prop.

Definition listed (geo : gmap string (gmap string (option (list loc))))
  : Listing :=
  λ sid key nodes, ∃ m, geo !! sid = Some m ∧ m !! key = Some (Some nodes).

(** The display nodes registered for an owner id: [geoNodesMap[id]] when it
    is a list. *)
Definition nodes_of (m : gmap string (option (list loc))) (key : string)
  : list loc :=
  match m !! key with
  | Some (Some nodes) => nodes
  | _ => []
  end.

(** [geoNodesMap[id].push(node)], creating the list when there is none. *)
Definition push_node (key : string) (node : loc)
    (m : gmap string (option (list loc))) : gmap string (option (list loc)) :=
  <[key := Some (nodes_of m key ++ [node])]> m.

(** How [_getProgram] changes the programs and the cache for hash [h],
    yielding program [p]. *)
Definition program_got (h : string) (p : loc) (heap heap' : list Program.t)
    (cache cache' : gmap string loc) : Prop :=
  (cache !! h = Some p ∧ heap' = alter incr p heap ∧ cache' = cache)
  ∨ (cache !! h = None
     ∧ p = length heap
     ∧ cache' = <[h := p]> cache
     ∧ ∃ pr, heap' = heap ++ [pr]
             ∧ Program.stateHash pr = h
             ∧ Program.refCount pr = 1).

(** The cores and programs after the nodes of a list have been removed,
    one after the other. *)
Fixpoint release_all (nodes : list loc) (cores : list Core)
    (heap : list Program.t) : list Core * list Program.t :=
  match nodes with
  | [] => (cores, heap)
  | node :: rest =>
      match cores !! node with
      | Some c =>
          release_all rest (alter destroy node cores)
            (alter decr (c_program c) heap)
      | None => (cores, heap)
      end
  end.

(** *** What the calls do to the view *)

Definition View : Type :=
  list Core * list Program.t * gmap string loc
  * gmap string (gmap string (option (list loc))).

(** The ways a call changes the view: not at all; a display node added for
    the bound scene, with the program of its state hash ([setGeometry]); the
    display nodes of an owner id removed ([removeGeometry]); the registered
    nodes of a scene forgotten ([bindScene] for a full compile); a scene
    created; the cache emptied (the RESET listener). *)
Inductive Label := Silent | Added | Removed | Cleared | Created | Forgotten.

Inductive view_change : Label → View → View → Prop :=
| step_silent V : view_change Silent V V
| step_added cores heap cache geo h p heap' cache' sid key :
    program_got h p heap heap' cache cache' →
    is_Some (geo !! sid) →
    view_change Added (cores, heap, cache, geo)
      (cores ++ [{| c_program := p; c_destroyed := false;
                    c_stateHash := h |}],
       heap', cache', alter (push_node key (length cores)) sid geo)
| step_removed cores heap cache geo sid key m :
    geo !! sid = Some m →
    view_change Removed (cores, heap, cache, geo)
      ((release_all (nodes_of m key) cores heap).1,
       (release_all (nodes_of m key) cores heap).2,
       cache, alter (<[key := None]>) sid geo)
| step_cleared cores heap cache geo sid :
    view_change Cleared (cores, heap, cache, geo)
      (cores, heap, cache, alter (λ _, ∅) sid geo)
| step_created cores heap cache geo sid :
    geo !! sid = None →
    view_change Created (cores, heap, cache, geo)
      (cores, heap, cache, <[sid := ∅]> geo)
| step_forgotten cores heap cache geo :
    view_change Forgotten (cores, heap, cache, geo) (cores, heap, ∅, geo).

Lemma alter_last {A} (f : A → A) (l : list A) x :
  alter f (length l) (l ++ [x]) = l ++ [f x].
Proof.
  induction l as [|a l IH]; [done|]. simpl. f_equal. exact IH.
Qed.

(** [_getProgram] finds the program cached for the hash, or else creates
    and caches one; either way it counts one more use of it. *)
Lemma _getProgram_spec h s p s' :
  _getProgram h s = Ok (p, s') →
  DL.nodeHeap s' = DL.nodeHeap s
  ∧ DL._sceneStates s' = DL._sceneStates s
  ∧ DL._states s' = DL._states s
  ∧ DL._stateHash s' = DL._stateHash s
  ∧ program_got h p (DL.programHeap s) (DL.programHeap s')
      (DL._programs s) (DL._programs s').
Proof.
  unfold _getProgram, upd_program, bind, get, modify, ret, program_got.
  destruct (DL._programs s !! h) as [p0|] eqn:Hp;
    [|destruct (Object_prototype h); [done|]]; intros [= <- <-]; simpl.
  - repeat split; try done. by left.
  - repeat split; try done. right. repeat split; try done.
    eexists. rewrite alter_last. done.
Qed.

Lemma bind_frame {X A B} (f : DrawList → X) (m : Op A) (k : A → Op B) s r :
  frame f m → bind m k s = Ok r → ∃ a s1, f s1 = f s ∧ k a s1 = Ok r.
Proof.
  intros Hm H. apply bind_Ok in H as (a & s1 & H1 & H).
  exists a, s1. split; [by eapply Hm|done].
Qed.

Lemma frame_apply {X A} (f : DrawList → X) (m : Op A) s a s' :
  m s = Ok (a, s') → frame f m → f s' = f s.
Proof. intros H Hm. by eapply Hm. Qed.

Lemma frame_pair {X Y A} (f : DrawList → X) (g : DrawList → Y) (m : Op A) :
  frame f m → frame g m → frame (λ s, (f s, g s)) m.
Proof.
  intros Hf Hg s a s' H. by rewrite (Hf _ _ _ H), (Hg _ _ _ H).
Qed.

(** Step over a computation that leaves the view alone. *)
Ltac view_bind H Hview :=
  let Hv := fresh "Hv" in
  apply (bind_frame prog_view) in H as (? & ? & Hv & H);
  [ rewrite Hview in Hv; clear Hview; rename Hv into Hview
  | solve [view_tac] ].

(** Frames of a field that a computation never writes. *)
Ltac field_step :=
  first
    [ solve [auto with frame]
    | frame_step
    | progress unfold upd_state, upd_scene, upd_node, upd_program, set_soup,
        log_call ].
Ltac field_tac := repeat field_step.

Lemma frame_states_getState ty id : frame DL._states (_getState ty id).
Proof. unfold _getState. field_tac. Qed.

Lemma frame_states_releaseState l : frame DL._states (_releaseState l).
Proof. unfold _releaseState. field_tac. Qed.

Lemma frame_states_count_node ty : frame DL._states (count_node ty).
Proof. unfold count_node. field_tac. Qed.

Lemma frame_states_getSceneHash : frame DL._states _getSceneHash.
Proof. unfold _getSceneHash, soup_hash. field_tac. Qed.

Lemma frame_stateHash_count_node ty : frame DL._stateHash (count_node ty).
Proof. unfold count_node. field_tac. Qed.

#[global] Hint Resolve frame_states_getState frame_states_releaseState
  frame_states_count_node frame_states_getSceneHash
  frame_stateHash_count_node : frame.

(** The view together with the bound scene. *)
Definition bound_view (s : DrawList) := (prog_view s, DL._states s).

Ltac bview_bind H Hview :=
  let Hv := fresh "Hv" in
  apply (bind_frame bound_view) in H as (? & ? & Hv & H);
  [ rewrite Hview in Hv; clear Hview; rename Hv into Hview
  | apply frame_pair; [solve [view_tac] | solve [field_tac]] ].

Lemma fmap_alter_comm {A B} (g : A → B) (h : A → A) (h' : B → B) (i : string)
    (m : gmap string A) :
  (∀ x, g (h x) = h' (g x)) → g <$> alter h i m = alter h' i (g <$> m).
Proof.
  intros Hg. apply map_eq. intros j. rewrite lookup_fmap.
  destruct (decide (i = j)) as [->|Hne].
  - rewrite !lookup_alter_eq, lookup_fmap.
    destruct (m !! j); simpl; by rewrite ?Hg.
  - by rewrite !lookup_alter_ne, lookup_fmap.
Qed.

(** What [setGeometry] does to the view: under a full compile it adds one
    live node for the bound scene, with the cached scene hash for its state
    hash and the program of that hash; otherwise nothing. *)
Lemma setGeometry_view id geo s s' :
  setGeometry id geo s = Ok (tt, s') →
  if is_compile_scene (DL.compileMode s) then
    ∃ h p heap' cache' sid,
      DL._states s = Some sid
      ∧ DL._states s' = Some sid
      ∧ is_Some (DL._sceneStates s !! sid)
      ∧ h = default "" (DL._stateHash s')
      ∧ program_got h p (DL.programHeap s) heap' (DL._programs s) cache'
      ∧ prog_view s'
        = ((node_core <$> DL.nodeHeap s)
           ++ [{| c_program := p; c_destroyed := false; c_stateHash := h |}],
           heap', cache',
           alter (push_node (toKey id) (length (DL.nodeHeap s))) sid
             (geoMaps s))
  else prog_view s' = prog_view s.
Proof.
  intros H. unfold setGeometry in H.
  apply bind_Ok in H as (full & ? & [= <- <-] & H).
  destruct (is_compile_scene (DL.compileMode s)); simpl in H.
  2: { apply (frame_apply prog_view) in H; [done|solve [view_tac]]. }
  remember (bound_view s) as V eqn:Hview. symmetry in Hview.
  pose proof Hview as HV.
  do 8 bview_bind H Hview.
  match type of Hview with bound_view ?x = _ => rename x into s1 end.
  apply bind_Ok in H as (? & ? & [= <- <-] & H).
  rewrite <- HV in Hview. clear HV V.
  apply bind_Ok in H as (p & s2 & Hgp & H).
  match type of Hgp with _getProgram ?x _ = _ => set (h := x) in * end.
  apply _getProgram_spec in Hgp as (Hn & Hsc & Hst & Hsh & Hgot).
  assert (Hcached : DL._stateHash s' = DL._stateHash s1).
  { rewrite <- Hsh. apply (frame_apply _ _ _ _ _ H). field_tac. }
  unfold bound_view, prog_view in Hview.
  injection Hview as Hcores Hheap Hcache Hgeo Hstates.
  assert (Hview : bound_view s2
                  = ((node_core <$> DL.nodeHeap s, DL.programHeap s2,
                      DL._programs s2, geoMaps s), DL._states s)).
  { unfold bound_view, prog_view, geoMaps in *.
    by rewrite Hn, Hsc, Hst, Hcores, Hgeo, Hstates. }
  rewrite Hheap, Hcache in Hgot.
  clear Hn Hsc Hst Hcores Hheap Hcache Hgeo Hstates.
  do 20 bview_bind H Hview.
  match type of Hview with bound_view ?x = _ => rename x into s3 end.
  apply bind_Ok in H as (? & ? & [= <- <-] & H). cbv zeta in H.
  apply bind_Ok in H as ([] & s4 & [= <-] & H).
  match type of H with
  | _ (DL.with_nodeHeap (_ ++ [?n]) _) = _ => set (node := n) in *
  end.
  assert (Hview' : bound_view (DL.with_nodeHeap (DL.nodeHeap s3 ++ [node]) s3)
                   = (((node_core <$> DL.nodeHeap s) ++ [node_core node],
                       DL.programHeap s2, DL._programs s2, geoMaps s),
                      DL._states s)).
  { unfold bound_view, prog_view in *. simpl. rewrite fmap_app.
    injection Hview as -> -> -> Hg ->. by rewrite <- Hg. }
  assert (Hlen : length (DL.nodeHeap s3) = length (DL.nodeHeap s)).
  { injection Hview as Hc _ _ _ _.
    apply (f_equal length) in Hc. by rewrite !length_fmap in Hc. }
  assert (Hst3 : DL._states s3 = DL._states s).
  { by injection Hview as _ _ _ _ ->. }
  clear Hview.
  apply bind_Ok in H as (sid & s5 & Hb & H).
  unfold bound_states, bind, get, deref in Hb. simpl in Hb.
  destruct (DL._states s3) as [sid'|] eqn:Hsid; [|done].
  injection Hb as <- <-.
  do 2 bview_bind H Hview'.
  apply bind_Ok in H as (sc & ? & Hsc & H).
  apply scene_at_inv in Hsc as [-> Hsc].
  assert (Hex : is_Some (DL._sceneStates s !! sid')).
  { injection Hview' as _ _ _ Hg _.
    apply (f_equal (.!! sid')) in Hg. unfold geoMaps in Hg.
    rewrite !lookup_fmap, Hsc in Hg.
    destruct (DL._sceneStates s !! sid'); [eauto|done]. }
  bview_bind H Hview'.
  match type of Hview' with bound_view ?x = _ => rename x into s6 end.
  unfold upd_scene, modify in H. injection H as <-.
  unfold bound_view, prog_view in Hview'.
  injection Hview' as Hc Hh Hca Hg Hs.
  exists h, p, (DL.programHeap s2), (DL._programs s2), sid'.
  split; [congruence|]. split; [simpl; congruence|].
  split; [exact Hex|].
  split; [simpl in Hcached; simpl; by rewrite Hcached|].
  split; [exact Hgot|].
  unfold prog_view. simpl. rewrite Hc, Hh, Hca. f_equal.
  unfold geoMaps. simpl.
  rewrite (fmap_alter_comm Scene.geoNodesMap _
             (push_node (toKey id) (length (DL.nodeHeap s3)))) by done.
  fold (geoMaps s6). by rewrite Hg, Hlen.
Qed.

Lemma fmap_alter_destroy l (nodes : list Node.t) :
  node_core <$> alter (Node.with_destroyed true) l nodes
  = alter destroy l (node_core <$> nodes).
Proof.
  apply list_eq. intros i.
  rewrite list_lookup_fmap, !list_lookup_alter, !list_lookup_fmap.
  case_decide; [|done]. by destruct (nodes !! l).
Qed.

(** What removing one node does to the view. *)
Lemma remove_node_view node s s' :
  remove_node node s = Ok (tt, s') →
  ∃ c, (node_core <$> DL.nodeHeap s) !! node = Some c
       ∧ prog_view s'
         = (alter destroy node (node_core <$> DL.nodeHeap s),
            alter decr (c_program c) (DL.programHeap s),
            DL._programs s, geoMaps s).
Proof.
  unfold remove_node, upd_node. intros H.
  apply bind_Ok in H as ([] & s1 & [= <-] & H).
  apply bind_Ok in H as (n & ? & H1 & H).
  apply node_at_inv in H1 as [-> Hn]. simpl in Hn.
  rewrite list_lookup_alter_eq in Hn.
  destruct (DL.nodeHeap s !! node) as [n0|] eqn:Hn0; [|done].
  simpl in Hn. injection Hn as <-.
  exists (node_core n0). split; [by rewrite list_lookup_fmap, Hn0|].
  unfold release_node in H.
  apply bind_Ok in H as ([] & s2 & H1 & H).
  unfold _releaseProgram, upd_program in H1.
  apply bind_Ok in H1 as (pr & ? & H1 & H2).
  apply (frame_apply id) in H1; [|auto with frame]. unfold id in H1.
  subst. injection H2 as <-.
  apply (frame_apply prog_view) in H; [|solve [view_tac]].
  rewrite H. unfold prog_view. simpl. by rewrite fmap_alter_destroy.
Qed.

Lemma remove_nodes_view nodes : ∀ s s',
  for_each remove_node nodes s = Ok (tt, s') →
  prog_view s'
  = ((release_all nodes (node_core <$> DL.nodeHeap s) (DL.programHeap s)).1,
     (release_all nodes (node_core <$> DL.nodeHeap s) (DL.programHeap s)).2,
     DL._programs s, geoMaps s).
Proof.
  induction nodes as [|node rest IH]; intros s s' H; simpl in H.
  - by injection H as <-.
  - apply bind_Ok in H as ([] & s1 & H1 & H).
    apply remove_node_view in H1 as (c & Hc & Hview).
    rewrite (IH _ _ H). simpl. rewrite Hc.
    unfold prog_view in Hview. injection Hview as -> -> -> ->. done.
Qed.

(** What [removeGeometry] does to the view: nothing, or the nodes of the
    owner id are removed and the id is unregistered. *)
Lemma removeGeometry_view sid id s s' :
  removeGeometry sid id s = Ok (tt, s') →
  prog_view s' = prog_view s
  ∨ ∃ m, geoMaps s !! sid = Some m
         ∧ prog_view s'
           = ((release_all (nodes_of m (toKey id))
                 (node_core <$> DL.nodeHeap s) (DL.programHeap s)).1,
              (release_all (nodes_of m (toKey id))
                 (node_core <$> DL.nodeHeap s) (DL.programHeap s)).2,
              DL._programs s,
              alter (<[toKey id := None]>) sid (geoMaps s)).
Proof.
  intros H. rewrite removeGeometry_unfold in H.
  apply bind_Ok in H as (sc & ? & H1 & H).
  apply scene_at_inv in H1 as [-> Hsc].
  assert (Hm : geoMaps s !! sid = Some (Scene.geoNodesMap sc)).
  { unfold geoMaps. by rewrite lookup_fmap, Hsc. }
  assert (Hunreg : ∀ s1 s2 nodes,
    prog_view s1
    = ((release_all nodes (node_core <$> DL.nodeHeap s) (DL.programHeap s)).1,
       (release_all nodes (node_core <$> DL.nodeHeap s) (DL.programHeap s)).2,
       DL._programs s, geoMaps s) →
    bind (upd_scene sid
            (λ sc, Scene.with_geoNodesMap
                     (<[toKey id := None]> (Scene.geoNodesMap sc)) sc))
      (λ _, upd_scene sid (Scene.with_lenVisibleCacheBin 0%nat)) s1
    = Ok (tt, s2) →
    prog_view s2
    = ((release_all nodes (node_core <$> DL.nodeHeap s) (DL.programHeap s)).1,
       (release_all nodes (node_core <$> DL.nodeHeap s) (DL.programHeap s)).2,
       DL._programs s,
       alter (<[toKey id := None]>) sid (geoMaps s))).
  { intros s1 s2 nodes Hv Hu.
    unfold upd_scene, modify, bind in Hu. injection Hu as <-.
    unfold prog_view in *. simpl. injection Hv as -> -> -> Hg.
    f_equal. unfold geoMaps in *. simpl.
    rewrite (fmap_alter_same Scene.geoNodesMap) by done.
    rewrite (fmap_alter_comm Scene.geoNodesMap _ (<[toKey id := None]>))
      by done.
    by rewrite Hg. }
  destruct (Scene.geoNodesMap sc !! toKey id) as [[nodes|]|] eqn:Hnodes.
  - right. exists (Scene.geoNodesMap sc). split; [done|].
    unfold nodes_of. rewrite Hnodes.
    apply bind_Ok in H as ([] & s1 & Hloop & H).
    apply remove_nodes_view in Hloop. by apply (Hunreg s1).
  - left. by injection H as <-.
  - destruct (Object_prototype (toKey id)) as [[[|n]|]|]; try done.
    + right. exists (Scene.geoNodesMap sc). split; [done|].
      unfold nodes_of. rewrite Hnodes. by apply (Hunreg s).
    + left. by injection H as <-.
Qed.

(** What [bindScene] does to the view: for a full compile the nodes
    registered for the scene are forgotten; otherwise nothing. *)
Lemma bindScene_view sid mode resort s s' :
  bindScene sid mode resort s = Ok (tt, s') →
  prog_view s'
  = (node_core <$> DL.nodeHeap s, DL.programHeap s, DL._programs s,
     if bool_decide (mode = Some COMPILE_SCENE)
     then alter (λ _, ∅) sid (geoMaps s) else geoMaps s).
Proof.
  intros H. unfold bindScene, _forceStateSort in H.
  remember (prog_view s) as V eqn:Hview. symmetry in Hview.
  pose proof Hview as HV.
  do 5 view_bind H Hview.
  apply bind_Ok in H as ([] & s1 & Hblock & H).
  apply (frame_apply prog_view) in H; [|solve [view_tac]]. rewrite H.
  clear H s'.
  destruct (bool_decide (mode = Some COMPILE_SCENE ∨ mode = Some COMPILE_BRANCH))
    eqn:Hrebuild.
  2: { injection Hblock as <-. rewrite Hview, <- HV.
       rewrite bool_decide_false; [done|].
       apply bool_decide_eq_false in Hrebuild. tauto. }
  do 19 view_bind Hblock Hview.
  apply bind_Ok in Hblock as ([] & s2 & Hsort & Hblock).
  apply (frame_apply prog_view) in Hsort; [|solve [view_tac]].
  rewrite Hview in Hsort. clear Hview. rename Hsort into Hview.
  destruct (bool_decide (mode = Some COMPILE_SCENE)).
  2: { injection Hblock as <-. by rewrite Hview, <- HV. }
  do 4 view_bind Hblock Hview.
  unfold upd_scene, modify in Hblock. injection Hblock as <-.
  rewrite <- HV in Hview. unfold prog_view in *. simpl.
  injection Hview as -> -> -> Hg. f_equal.
  unfold geoMaps in *. simpl.
  rewrite (fmap_alter_comm Scene.geoNodesMap _ (λ _, ∅)) by done.
  by rewrite Hg.
Qed.

(** What the SCENE_CREATED listener does to the view. *)
Lemma sceneCreated_view sid canvasId s s' :
  sceneCreated sid canvasId s = Ok (tt, s') →
  prog_view s' = prog_view s
  ∨ (geoMaps s !! sid = None
     ∧ prog_view s'
       = (node_core <$> DL.nodeHeap s, DL.programHeap s, DL._programs s,
          <[sid := ∅]> (geoMaps s))).
Proof.
  intros H. unfold sceneCreated, bind, get, modify, ret in H.
  destruct (DL._sceneStates s !! sid) eqn:Hs; [left; by injection H as <-|].
  destruct (Object_prototype sid); injection H as <-; [by left|].
  right. unfold prog_view, geoMaps. simpl.
  rewrite lookup_fmap, Hs, fmap_insert. done.
Qed.

(** The calls a client makes on the draw list, and the events it listens
    to. *)
Inductive Command :=
  | Reset
  | SceneCreated (sceneId canvasId : string)
  | BindScene (sceneId : string) (compileMode : option nat) (resort : bool)
  | SetState (c : SetterCall)
  | SetGeometry (id : JsId) (geo : Geo)
  | RemoveGeometry (sceneId : string) (id : JsId)
  | RenderFrame (params : RenderParams)
  | Pick (raster : Raster) (sceneId : string) (canvasX canvasY : Z)
         (tagSelector : option TagSelector).

Definition perform (c : Command) : Op unit :=
  match c with
  | Reset => reset
  | SceneCreated sceneId canvasId => sceneCreated sceneId canvasId
  | BindScene sceneId compileMode resort =>
      bindScene sceneId compileMode resort
  | SetState c => call_setter c
  | SetGeometry id geo => setGeometry id geo
  | RemoveGeometry sceneId id => removeGeometry sceneId id
  | RenderFrame params => renderFrame params
  | Pick raster sceneId canvasX canvasY tagSelector =>
      _ <- pick raster sceneId canvasX canvasY tagSelector ;;; ret tt
  end.

Definition is_reset (c : Command) : bool :=
  match c with
  | Reset => true
  | _ => false
  end.

(** A [bindScene] that starts a full compile. *)
Definition is_rebuild (c : Command) : bool :=
  match c with
  | BindScene _ compileMode _ => bool_decide (compileMode = Some COMPILE_SCENE)
  | _ => false
  end.

(** Which change of the view a call can make. *)
Definition may (c : Command) (lab : Label) : Prop :=
  match lab with
  | Silent => True
  | Added => ∃ id geo, c = SetGeometry id geo
  | Removed => ∃ sceneId id, c = RemoveGeometry sceneId id
  | Cleared => is_rebuild c = true
  | Created => ∃ sceneId canvasId, c = SceneCreated sceneId canvasId
  | Forgotten => c = Reset
  end.

Lemma view_change_silent s s' :
  prog_view s' = prog_view s → view_change Silent (prog_view s) (prog_view s').
Proof. intros ->. constructor. Qed.

Lemma perform_step c s s' :
  perform c s = Ok (tt, s') →
  ∃ lab, may c lab ∧ view_change lab (prog_view s) (prog_view s').
Proof.
  intros H. destruct c; simpl in H.
  - exists Forgotten. split; [done|].
    unfold reset, bind, modify in H. injection H as <-. constructor.
  - apply sceneCreated_view in H as [H|[Hnone H]].
    + exists Silent. split; [done|]. by apply view_change_silent.
    + exists Created. split; [simpl; eauto|]. rewrite H. by constructor.
  - apply bindScene_view in H.
    destruct (bool_decide (compileMode = Some COMPILE_SCENE)) eqn:Hfull.
    + exists Cleared. split; [done|]. rewrite H. constructor.
    + exists Silent. split; [done|]. by apply view_change_silent.
  - exists Silent. split; [done|]. apply view_change_silent.
    by apply (frame_view_call_setter _ _ _ _ H).
  - apply setGeometry_view in H.
    destruct (is_compile_scene (DL.compileMode s)).
    + destruct H as (h & p & heap' & cache' & sid & _ & _ & Hex & _ & Hgot & Hv).
      exists Added. split; [simpl; eauto|]. rewrite Hv.
      unfold prog_view at 1.
      replace (length (DL.nodeHeap s))
        with (length (node_core <$> DL.nodeHeap s)) by apply length_fmap.
      constructor; [done|]. unfold geoMaps. rewrite lookup_fmap.
      destruct Hex as [sc ->]. by eexists.
    + exists Silent. split; [done|]. by apply view_change_silent.
  - apply removeGeometry_view in H as [H|(m & Hm & H)].
    + exists Silent. split; [done|]. by apply view_change_silent.
    + exists Removed. split; [simpl; eauto|]. rewrite H. by constructor.
  - exists Silent. split; [done|]. apply view_change_silent.
    by apply (frame_view_renderFrame _ _ _ _ H).
  - exists Silent. split; [done|]. apply view_change_silent.
    apply bind_Ok in H as (hit & s1 & H & [= <-]).
    by apply (frame_view_pick _ _ _ _ _ _ _ _ H).
Qed.

(** *** The invariant of the program cache *)

(** What holds of the view in every reachable state: a cached program
    carries the hash it is cached under; a node's program exists and carries
    the node's state hash; a program's [refCount] counts the nodes that
    use it and have not been removed; a registered node exists, has not been
    removed, and is registered once. *)
Record cache_inv (cores : list Core) (heap : list Program.t)
    (cache : gmap string loc) (L : Listing) : Prop := {
  cache_sound : ∀ h p, cache !! h = Some p →
    ∃ pr, heap !! p = Some pr ∧ Program.stateHash pr = h;
  node_program : ∀ l c, cores !! l = Some c →
    ∃ pr, heap !! c_program c = Some pr
          ∧ Program.stateHash pr = c_stateHash c;
  refcounts : ∀ p pr, heap !! p = Some pr →
    Program.refCount pr = Z.of_nat (length (live_cores cores p));
  registered_live : ∀ sid key nodes, L sid key nodes →
    NoDup nodes
    ∧ ∀ l, l ∈ nodes → ∃ c, cores !! l = Some c ∧ c_destroyed c = false;
  registered_apart : ∀ sid key nodes sid' key' nodes',
    L sid key nodes → L sid' key' nodes' → (sid, key) ≠ (sid', key') →
    ∀ l, l ∈ nodes → l ∉ nodes'
}.

(** What holds besides as long as the cache is never emptied: the cache
    holds every program under its hash, and a node's program is the cache's
    for the node's hash. *)
Record cache_exact (cores : list Core) (heap : list Program.t)
    (cache : gmap string loc) : Prop := {
  cache_complete : ∀ p pr, heap !! p = Some pr →
    cache !! Program.stateHash pr = Some p;
  node_programs : ∀ l c, cores !! l = Some c →
    cache !! c_stateHash c = Some (c_program c)
}.

(** What holds besides as long as no full compile starts once there are
    display nodes: a node that has not been removed is registered. *)
Definition all_listed (cores : list Core) (L : Listing) : Prop :=
  ∀ l c, cores !! l = Some c → c_destroyed c = false →
    ∃ sid key nodes, L sid key nodes ∧ l ∈ nodes.

Definition view_inv (V : View) : Prop :=
  let '(cores, heap, cache, geo) := V in
  cache_inv cores heap cache (listed geo).

Definition view_exact (V : View) : Prop :=
  let '(cores, heap, cache, geo) := V in cache_exact cores heap cache.

Definition view_listed (V : View) : Prop :=
  let '(cores, heap, cache, geo) := V in all_listed cores (listed geo).

Lemma cache_inv_weaken cores heap cache (L L' : Listing) :
  (∀ sid key nodes, L' sid key nodes → L sid key nodes) →
  cache_inv cores heap cache L → cache_inv cores heap cache L'.
Proof.
  intros HL [H1 H2 H3 H4 H5]. split; eauto.
Qed.

Lemma live_cores_app cores c p :
  length (live_cores (cores ++ [c]) p)
  = (length (live_cores cores p)
     + (if decide (c_program c = p ∧ c_destroyed c = false) then 1 else 0))%nat.
Proof.
  unfold live_cores. rewrite filter_app, length_app. f_equal.
  rewrite filter_cons, filter_nil. by case_decide.
Qed.

Lemma live_cores_destroy cores : ∀ l c p,
  cores !! l = Some c → c_destroyed c = false →
  length (live_cores cores p)
  = (length (live_cores (alter destroy l cores) p)
     + (if decide (c_program c = p) then 1 else 0))%nat.
Proof.
  unfold live_cores.
  induction cores as [|c0 cores IH]; intros l c p Hl Hc; [done|].
  destruct l as [|l]; simpl in *.
  - injection Hl as ->. rewrite !filter_cons. simpl.
    repeat case_decide; simpl; try lia; exfalso; naive_solver.
  - rewrite !filter_cons.
    destruct (decide (c_program c0 = p ∧ c_destroyed c0 = false)); simpl;
      rewrite (IH l c p Hl Hc); reflexivity.
Qed.

Lemma live_cores_none cores p :
  (∀ l c, cores !! l = Some c → c_program c ≠ p) → live_cores cores p = [].
Proof.
  intros H. unfold live_cores.
  induction cores as [|c cores IH]; [done|].
  rewrite filter_cons, decide_False.
  - apply IH. intros l c' Hl. apply (H (S l)). done.
  - intros [Hp _]. by apply (H 0%nat c).
Qed.

(** A registered node exists. *)
Lemma listed_lt cores heap cache (L : Listing) sid key nodes l :
  cache_inv cores heap cache L → L sid key nodes → l ∈ nodes →
  (l < length cores)%nat.
Proof.
  intros Hinv HL Hl.
  destruct (registered_live _ _ _ _ Hinv _ _ _ HL) as [_ Hlive].
  destruct (Hlive l Hl) as (c & Hc & _). by eapply lookup_lt_Some.
Qed.

(** A program whose count changes keeps its hash. *)
Lemma lookup_alter_hash (f : Program.t → Program.t) (q : loc)
    (heap : list Program.t) (p : loc) pr :
  (∀ pr, Program.stateHash (f pr) = Program.stateHash pr) →
  heap !! p = Some pr →
  ∃ pr', alter f q heap !! p = Some pr'
         ∧ Program.stateHash pr' = Program.stateHash pr.
Proof.
  intros Hf Hp. destruct (decide (q = p)) as [->|Hne].
  - exists (f pr). by rewrite list_lookup_alter_eq, Hp.
  - exists pr. by rewrite list_lookup_alter_ne.
Qed.

Lemma lookup_alter_inv (f : Program.t → Program.t) (q : loc)
    (heap : list Program.t) (p : loc) pr' :
  (∀ pr, Program.stateHash (f pr) = Program.stateHash pr) →
  alter f q heap !! p = Some pr' →
  ∃ pr, heap !! p = Some pr
        ∧ Program.stateHash pr' = Program.stateHash pr.
Proof.
  intros Hf Hp. destruct (decide (q = p)) as [->|Hne].
  - rewrite list_lookup_alter_eq in Hp.
    destruct (heap !! p) as [pr|]; [|done]. injection Hp as <-. eauto.
  - rewrite list_lookup_alter_ne in Hp by done. eauto.
Qed.

(** Removing the first node of a registered list. *)
Lemma cache_inv_remove cores heap cache (L L' : Listing) sid key l rest c :
  cache_inv cores heap cache L →
  L sid key (l :: rest) →
  (∀ sid' key' nodes', L' sid' key' nodes' →
     (sid' = sid ∧ key' = key ∧ nodes' = rest)
     ∨ ((sid', key') ≠ (sid, key) ∧ L sid' key' nodes')) →
  cores !! l = Some c →
  cache_inv (alter destroy l cores) (alter decr (c_program c) heap) cache L'.
Proof.
  intros Hinv HL HL' Hc.
  destruct (registered_live _ _ _ _ Hinv _ _ _ HL) as [Hnd Hlive].
  apply NoDup_cons in Hnd as [Hl Hnd].
  destruct (Hlive l) as (c' & Hc' & Hd); [by left|].
  assert (c' = c) as -> by congruence.
  split.
  - intros h p Hp.
    destruct (cache_sound _ _ _ _ Hinv h p Hp) as (pr & Hpr & Hh).
    destruct (lookup_alter_hash decr (c_program c) heap p pr) as (pr' & ? & ?);
      [done..|].
    exists pr'. split; [done|]. congruence.
  - intros l' c0 Hc0.
    assert (∃ c1, cores !! l' = Some c1 ∧ c_program c0 = c_program c1
                  ∧ c_stateHash c0 = c_stateHash c1) as (c1 & Hc1 & -> & ->).
    { destruct (decide (l = l')) as [<-|Hne].
      - rewrite list_lookup_alter_eq, Hc in Hc0. injection Hc0 as <-. eauto.
      - rewrite list_lookup_alter_ne in Hc0 by done. eauto. }
    destruct (node_program _ _ _ _ Hinv l' c1 Hc1) as (pr & Hpr & Hh).
    destruct (lookup_alter_hash decr (c_program c) heap (c_program c1) pr)
      as (pr' & ? & ?);
      [done..|].
    exists pr'. split; [done|]. congruence.
  - intros p pr Hpr.
    pose proof (live_cores_destroy cores l c p Hc Hd) as Hlen.
    destruct (decide (c_program c = p)) as [Heq|Hne].
    + rewrite Heq, list_lookup_alter_eq in Hpr.
      destruct (heap !! p) as [pr0|] eqn:Hp0; [|done].
      simpl in Hpr. injection Hpr as <-. simpl.
      rewrite (refcounts _ _ _ _ Hinv p pr0 Hp0), Hlen. lia.
    + rewrite list_lookup_alter_ne in Hpr by done.
      rewrite (refcounts _ _ _ _ Hinv p pr Hpr), Hlen. f_equal. lia.
  - intros sid' key' nodes' Hn.
    assert (NoDup nodes' ∧ l ∉ nodes'
            ∧ ∀ l', l' ∈ nodes' →
                ∃ c, cores !! l' = Some c ∧ c_destroyed c = false)
      as (Hnd' & Hl' & Hlive').
    { destruct (HL' _ _ _ Hn) as [(-> & -> & ->)|[Hne Hn']].
      - split; [done|]. split; [done|]. intros l' Hin. apply Hlive.
        by right.
      - destruct (registered_live _ _ _ _ Hinv _ _ _ Hn') as [? ?].
        split; [done|]. split; [|done].
        apply (registered_apart _ _ _ _ Hinv _ _ _ _ _ _ HL Hn').
        + congruence.
        + by left. }
    split; [done|]. intros l' Hin.
    destruct (Hlive' l' Hin) as (c0 & Hc0 & Hd0). exists c0.
    split; [|done]. rewrite list_lookup_alter_ne; [done|].
    intros ->. done.
  - intros sid1 key1 nodes1 sid2 key2 nodes2 H1 H2 Hne l' Hin1 Hin2.
    destruct (HL' _ _ _ H1) as [(-> & -> & ->)|[Hne1 H1']];
      destruct (HL' _ _ _ H2) as [(-> & -> & ->)|[Hne2 H2']].
    + done.
    + apply (registered_apart _ _ _ _ Hinv _ _ _ _ _ _ HL H2' Hne l');
        [by right|done].
    + apply (registered_apart _ _ _ _ Hinv _ _ _ _ _ _ H1' HL Hne l');
        [done|by right].
    + by apply (registered_apart _ _ _ _ Hinv _ _ _ _ _ _ H1' H2' Hne l').
Qed.

(** The listing in which [sid], [key] has [nodes] left, all else as in
    [L]. *)
Definition rest_of (L : Listing) (sid key : string) (nodes : list loc)
  : Listing :=
  λ sid' key' nodes',
    (sid' = sid ∧ key' = key ∧ nodes' = nodes)
    ∨ ((sid', key') ≠ (sid, key) ∧ L sid' key' nodes').

Lemma cache_inv_rest_of cores heap cache (L : Listing) sid key nodes :
  cache_inv cores heap cache L →
  L sid key nodes ∨ nodes = [] →
  cache_inv cores heap cache (rest_of L sid key nodes).
Proof.
  intros Hinv Hnodes. destruct Hinv as [H1 H2 H3 H4 H5]. split; try done.
  - intros sid' key' nodes' [(-> & -> & ->)|[_ Hl]]; [|by eapply H4].
    destruct Hnodes as [Hl| ->]; [by eapply H4|].
    split; [constructor|]. intros l Hl. by apply elem_of_nil in Hl.
  - intros sid1 key1 nodes1 sid2 key2 nodes2 Hn1 Hn2 Hne l Hl1.
    destruct Hn1 as [(-> & -> & ->)|[Hne1 Hn1]];
      destruct Hn2 as [(-> & -> & ->)|[Hne2 Hn2]].
    + done.
    + destruct Hnodes as [Hl| ->]; [by eapply (H5 _ _ _ _ _ _ Hl Hn2)|].
      by apply elem_of_nil in Hl1.
    + destruct Hnodes as [Hl| ->]; [by eapply (H5 _ _ _ _ _ _ Hn1 Hl)|].
      apply not_elem_of_nil.
    + by eapply (H5 _ _ _ _ _ _ Hn1 Hn2).
Qed.

(** Removing the nodes of a registered list, one after the other. *)
Lemma cache_inv_release (L : Listing) cache sid key : ∀ nodes cores heap,
  cache_inv cores heap cache (rest_of L sid key nodes) →
  cache_inv (release_all nodes cores heap).1 (release_all nodes cores heap).2
    cache (rest_of L sid key []).
Proof.
  induction nodes as [|l rest IH]; intros cores heap Hinv; [done|].
  simpl.
  destruct (registered_live _ _ _ _ Hinv sid key (l :: rest)) as [_ Hlive];
    [by left|].
  destruct (Hlive l) as (c & Hc & _); [by left|]. rewrite Hc.
  apply IH.
  apply (cache_inv_remove _ _ _ (rest_of L sid key (l :: rest)) _
           sid key l rest c Hinv); [by left| |done].
  intros sid' key' nodes' [?|[? ?]]; [by left|].
  right. split; [done|]. by right.
Qed.

(** The nodes registered for an owner id are a registered list, or none. *)
Lemma nodes_of_listed geo sid key m :
  geo !! sid = Some m →
  listed geo sid key (nodes_of m key) ∨ nodes_of m key = [].
Proof.
  intros Hm. unfold nodes_of.
  destruct (m !! key) as [[nodes|]|] eqn:Hk; [|by right..].
  left. by exists m.
Qed.

Lemma listed_unregister geo sid key sid' key' nodes' :
  listed (alter (<[key := None]>) sid geo) sid' key' nodes' →
  (sid', key') ≠ (sid, key) ∧ listed geo sid' key' nodes'.
Proof.
  intros (m' & Hm' & Hn).
  destruct (decide (sid = sid')) as [<-|Hne].
  - rewrite lookup_alter_eq in Hm'.
    destruct (geo !! sid) as [m|] eqn:Hm; [|done].
    simpl in Hm'. injection Hm' as <-.
    destruct (decide (key = key')) as [<-|Hk].
    + by rewrite lookup_insert_eq in Hn.
    + rewrite lookup_insert_ne in Hn by done.
      split; [congruence|]. by exists m.
  - rewrite lookup_alter_ne in Hm' by done.
    split; [congruence|]. by exists m'.
Qed.

(** The listing after a new node [node] is registered under [sid], [key]. *)
Definition pushed (L L' : Listing) (sid key : string) (node : loc) : Prop :=
  ∀ sid' key' nodes', L' sid' key' nodes' →
    (sid' = sid ∧ key' = key
     ∧ ∃ old, nodes' = old ++ [node] ∧ (old = [] ∨ L sid key old))
    ∨ L sid' key' nodes'.

Lemma pushed_alter geo sid key node :
  pushed (listed geo) (listed (alter (push_node key node) sid geo))
    sid key node.
Proof.
  intros sid' key' nodes' (m' & Hm' & Hn).
  destruct (decide (sid = sid')) as [<-|Hne].
  - rewrite lookup_alter_eq in Hm'.
    destruct (geo !! sid) as [m|] eqn:Hm; [|done].
    simpl in Hm'. injection Hm' as <-. unfold push_node, nodes_of in Hn.
    destruct (decide (key = key')) as [<-|Hk].
    + rewrite lookup_insert_eq in Hn. injection Hn as <-.
      left. split; [done|]. split; [done|].
      destruct (m !! key) as [[old|]|] eqn:Hold.
      * exists old. split; [done|]. right. by exists m.
      * exists []. split; [done|]. by left.
      * exists []. split; [done|]. by left.
    + rewrite lookup_insert_ne in Hn by done. right. by exists m.
  - rewrite lookup_alter_ne in Hm' by done. right. by exists m'.
Qed.

Lemma cache_inv_push cores heap cache (L L' : Listing) sid key c
    cores' heap' cache' :
  cache_inv cores heap cache L →
  pushed L L' sid key (length cores) →
  c_destroyed c = false →
  cores' = cores ++ [c] →
  (∀ h p, cache' !! h = Some p →
     ∃ pr, heap' !! p = Some pr ∧ Program.stateHash pr = h) →
  (∀ l c, cores' !! l = Some c →
     ∃ pr, heap' !! c_program c = Some pr
           ∧ Program.stateHash pr = c_stateHash c) →
  (∀ p pr, heap' !! p = Some pr →
     Program.refCount pr = Z.of_nat (length (live_cores cores' p))) →
  cache_inv cores' heap' cache' L'.
Proof.
  intros Hinv HL' Hd -> H1 H2 H3. split; try done.
  - intros sid' key' nodes' Hn.
    destruct (HL' _ _ _ Hn) as [(-> & -> & old & -> & Hold)|Hn'].
    + assert (NoDup old ∧ ∀ l, l ∈ old →
                ∃ c, cores !! l = Some c ∧ c_destroyed c = false)
        as [Hnd Hlive].
      { destruct Hold as [->|Hold].
        - split; [constructor|]. intros l Hl. by apply elem_of_nil in Hl.
        - by apply (registered_live _ _ _ _ Hinv _ _ _ Hold). }
      split.
      * apply NoDup_app. split; [done|]. split; [|apply NoDup_singleton].
        intros l Hl ->%list_elem_of_singleton.
        destruct (Hlive _ Hl) as (c0 & Hc0 & _).
        apply lookup_lt_Some in Hc0. lia.
      * intros l [Hl| ->%list_elem_of_singleton]%elem_of_app.
        -- destruct (Hlive _ Hl) as (c0 & Hc0 & Hd0). exists c0.
           split; [|done]. by apply lookup_app_l_Some.
        -- exists c. split; [|done]. by rewrite list_lookup_middle.
    + destruct (registered_live _ _ _ _ Hinv _ _ _ Hn') as [Hnd Hlive].
      split; [done|]. intros l Hl.
      destruct (Hlive _ Hl) as (c0 & Hc0 & Hd0). exists c0.
      split; [|done]. by apply lookup_app_l_Some.
  - intros sid1 key1 nodes1 sid2 key2 nodes2 Hn1 Hn2 Hne l Hl1 Hl2.
    assert (Hfresh : ∀ s k n, L s k n → length cores ∉ n).
    { intros s k n Hn Hin.
      pose proof (listed_lt _ _ _ _ _ _ _ _ Hinv Hn Hin). lia. }
    destruct (HL' _ _ _ Hn1) as [(-> & -> & old1 & -> & Hold1)|Hn1'];
      destruct (HL' _ _ _ Hn2) as [(-> & -> & old2 & -> & Hold2)|Hn2'].
    + done.
    + apply elem_of_app in Hl1 as [Hl1| ->%list_elem_of_singleton].
      * destruct Hold1 as [->|Hold1]; [by apply elem_of_nil in Hl1|].
        by apply (registered_apart _ _ _ _ Hinv _ _ _ _ _ _
                    Hold1 Hn2' Hne l).
      * by apply (Hfresh _ _ _ Hn2').
    + apply elem_of_app in Hl2 as [Hl2| ->%list_elem_of_singleton].
      * destruct Hold2 as [->|Hold2]; [by apply elem_of_nil in Hl2|].
        by apply (registered_apart _ _ _ _ Hinv _ _ _ _ _ _
                    Hn1' Hold2 Hne l).
      * by apply (Hfresh _ _ _ Hn1').
    + by apply (registered_apart _ _ _ _ Hinv _ _ _ _ _ _ Hn1' Hn2' Hne l).
Qed.

(** A node added with the program [_getProgram] yields for its hash. *)
Lemma cache_inv_add cores heap cache (L L' : Listing) sid key h p
    heap' cache' :
  cache_inv cores heap cache L →
  program_got h p heap heap' cache cache' →
  pushed L L' sid key (length cores) →
  cache_inv
    (cores ++ [{| c_program := p; c_destroyed := false; c_stateHash := h |}])
    heap' cache' L'.
Proof.
  intros Hinv Hgot HL'.
  destruct Hgot as [(Hp & -> & ->)|(Hp & -> & -> & pr0 & -> & Hh & Hrc)].
  - destruct (cache_sound _ _ _ _ Hinv h p Hp) as (prh & Hprh & Hhh).
    eapply cache_inv_push
      with (c := {| c_program := p; c_destroyed := false;
                    c_stateHash := h |});
      [exact Hinv|exact HL'|reflexivity|reflexivity|..].
    + intros h' p' Hp'.
      destruct (cache_sound _ _ _ _ Hinv h' p' Hp') as (pr & Hpr & Hh).
      destruct (lookup_alter_hash incr p heap p' pr) as (pr' & ? & ?);
        [done..|].
      exists pr'. split; [done|]. congruence.
    + intros l c [Hc|[_ Hc]]%lookup_app_Some.
      * destruct (node_program _ _ _ _ Hinv l c Hc) as (pr & Hpr & Hh).
        destruct (lookup_alter_hash incr p heap (c_program c) pr)
          as (pr' & ? & ?);
          [done..|].
        exists pr'. split; [done|]. congruence.
      * destruct (l - length cores)%nat; [|done]. injection Hc as <-.
        simpl.
        destruct (lookup_alter_hash incr p heap p prh) as (pr' & ? & ?);
          [done..|].
        exists pr'. split; [done|]. congruence.
    + intros p' pr Hpr. rewrite live_cores_app. simpl.
      destruct (decide (p = p')) as [<-|Hne].
      * rewrite list_lookup_alter_eq in Hpr.
        destruct (heap !! p) as [pr0|] eqn:Hp0; [|done].
        simpl in Hpr. injection Hpr as <-. simpl.
        rewrite (refcounts _ _ _ _ Hinv p pr0 Hp0).
        rewrite decide_True by done. lia.
      * rewrite list_lookup_alter_ne in Hpr by done.
        rewrite (refcounts _ _ _ _ Hinv p' pr Hpr).
        rewrite decide_False by (intros [? _]; done). f_equal. lia.
  - assert (Hnew : ∀ pr, heap !! length heap ≠ Some pr).
    { intros pr Hpr. apply lookup_lt_Some in Hpr. lia. }
    eapply cache_inv_push
      with (c := {| c_program := length heap; c_destroyed := false;
                    c_stateHash := h |});
      [exact Hinv|exact HL'|reflexivity|reflexivity|..].
    + intros h' p'. rewrite lookup_insert. case_decide as Hc.
      * intros [= <-]. exists pr0. rewrite list_lookup_middle by done.
        by rewrite <- Hc.
      * intros Hp'.
        destruct (cache_sound _ _ _ _ Hinv h' p' Hp') as (pr & Hpr & Hh').
        exists pr. split; [|done]. by apply lookup_app_l_Some.
    + intros l c [Hc|[_ Hc]]%lookup_app_Some.
      * destruct (node_program _ _ _ _ Hinv l c Hc) as (pr & Hpr & Hh').
        exists pr. split; [|done]. by apply lookup_app_l_Some.
      * destruct (l - length cores)%nat; [|done]. injection Hc as <-.
        simpl. exists pr0. split; [|done]. by rewrite list_lookup_middle.
    + intros p' pr Hpr'. rewrite live_cores_app. simpl.
      apply lookup_app_Some in Hpr' as [Hpr|[Hge Hpr]].
      * rewrite (refcounts _ _ _ _ Hinv p' pr Hpr).
        rewrite decide_False; [f_equal; lia|].
        intros [Heq _]. by apply (Hnew pr); rewrite Heq.
      * destruct (p' - length heap)%nat eqn:Hsub; [|done].
        injection Hpr as <-. assert (p' = length heap) as -> by lia.
        rewrite decide_True by done.
        rewrite live_cores_none; [simpl; lia|].
        intros l c Hc Hprog.
        destruct (node_program _ _ _ _ Hinv l c Hc) as (pr & Hpr & _).
        rewrite Hprog in Hpr. by apply (Hnew pr).
Qed.

(** Every change of the view keeps the invariant. *)
Lemma view_change_inv lab V V' :
  view_change lab V V' → view_inv V → view_inv V'.
Proof.
  intros Hstep Hinv. destruct Hstep; simpl in *.
  - done.
  - eapply cache_inv_add; [exact Hinv|done|apply pushed_alter].
  - assert (Hrest : cache_inv cores heap cache
                      (rest_of (listed geo) sid key (nodes_of m key))).
    { apply cache_inv_rest_of; [done|]. by apply nodes_of_listed. }
    apply (cache_inv_release (listed geo)) in Hrest.
    refine (cache_inv_weaken _ _ _ _ _ _ Hrest).
    intros sid' key' nodes' [Hne Hl]%listed_unregister. by right.
  - refine (cache_inv_weaken _ _ _ _ _ _ Hinv).
    intros sid' key' nodes' (m' & Hm' & Hn).
    destruct (decide (sid = sid')) as [<-|Hne].
    + rewrite lookup_alter_eq in Hm'.
      destruct (geo !! sid); [|done].
      simpl in Hm'. injection Hm' as <-. by rewrite lookup_empty in Hn.
    + rewrite lookup_alter_ne in Hm' by done. by exists m'.
  - refine (cache_inv_weaken _ _ _ _ _ _ Hinv).
    intros sid' key' nodes' (m' & Hm' & Hn).
    rewrite lookup_insert in Hm'. case_decide.
    + injection Hm' as <-. by rewrite lookup_empty in Hn.
    + by exists m'.
  - destruct Hinv as [H1 H2 H3 H4 H5]. split; done.
Qed.

(** *** The cached scene hash *)

(** What the scene hash depends on: the hashes of the states, the soup, the
    cached hash, the compile mode, the bound scene, and the scenes' canvas
    ids; and the states registered in the scenes' state maps. *)
Definition hashes (s : DrawList) : list (option string) :=
  State.hash <$> DL.stateHeap s.

Definition canvasIds (s : DrawList) : gmap string string :=
  Scene.canvasId <$> DL._sceneStates s.

Definition stateMaps (s : DrawList) : gmap string (gmap nat (gmap string loc)) :=
  Scene.stateMap <$> DL._sceneStates s.

Definition reg_in (maps : gmap string (gmap nat (gmap string loc))) (l : loc)
  : Prop :=
  ∃ sid m ty typeMap key,
    maps !! sid = Some m ∧ m !! ty = Some typeMap ∧ typeMap !! key = Some l.

(** [x.hash] for the soup variable [x] of a state type. *)
Definition part_hash (hs : list (option string)) (soup : gmap nat loc)
    (stateType : nat) : option (option string) :=
  l ← soup !! stateType; hs !! l.

(** The value of [_getSceneHash], from what it depends on. *)
Definition scene_hash_of (hs : list (option string)) (soup : gmap nat loc)
    (bound : option string) (canvas : gmap string string) : option string :=
  sid ← bound;
  canvasId ← canvas !! sid;
  clip ← part_hash hs soup _CLIPS;
  colortrans ← part_hash hs soup _COLORTRANS;
  light ← part_hash hs soup _LIGHTS;
  morph ← part_hash hs soup _MORPH;
  tex ← part_hash hs soup _TEXTURE;
  shader ← part_hash hs soup _SHADER;
  renderer ← part_hash hs soup _RENDERER;
  geo ← part_hash hs soup _GEO;
  Some (join ";" [Some canvasId; clip; colortrans; light; morph; tex; shader;
                  renderer; geo]).

Definition scene_hash (s : DrawList) : option string :=
  scene_hash_of (hashes s) (DL.soup s) (DL._states s) (canvasIds s).

Lemma soup_hash_spec ty s :
  soup_hash ty s
  = match part_hash (hashes s) (DL.soup s) ty with
    | Some h => Ok (h, s)
    | None => Err TypeError
    end.
Proof.
  unfold soup_hash, part_hash, soup_var, state_at, hashes.
  unfold bind, gets, get, deref, ret, throw.
  destruct (DL.soup s !! ty) as [l|]; simpl; [|done].
  rewrite list_lookup_fmap. by destruct (DL.stateHeap s !! l).
Qed.

(** [_getSceneHash] reads the state and changes nothing. *)
Lemma _getSceneHash_spec s :
  _getSceneHash s
  = match scene_hash s with
    | Some h => Ok (h, s)
    | None => Err TypeError
    end.
Proof.
  unfold _getSceneHash, scene_hash, scene_hash_of, bound_states, scene_at,
    canvasIds.
  unfold bind at 1. unfold bind at 1. unfold get at 1. unfold deref at 1.
  destruct (DL._states s) as [sid|]; simpl; [|done].
  unfold bind at 1. unfold bind at 1. unfold get at 1. unfold deref at 1.
  rewrite lookup_fmap.
  destruct (DL._sceneStates s !! sid) as [sc|]; simpl; [|done].
  repeat (unfold bind at 1; rewrite soup_hash_spec;
          match goal with
          | |- context [part_hash (hashes s) (DL.soup s) ?ty] =>
              destruct (part_hash (hashes s) (DL.soup s) ty);
              simpl; [|done]
          end).
  done.
Qed.

(** The number of default states; the states beyond are created by
    [_getState]. *)
Definition first_state : nat := length default_states.

(** What holds of the hashes in every reachable state: the default states
    are there; the soup variables and the registered states exist; the
    registered states are no default states; the default renderer state has
    no hash.  During a full compile, besides: the renderer state of the
    soup has no hash, and while a scene is bound, a cached scene hash is the
    hash of the soup as it stands. *)
Record hash_inv (s : DrawList) : Prop := {
  defaults_there : (first_state ≤ length (hashes s))%nat;
  soup_there : ∀ ty l, DL.soup s !! ty = Some l → (l < length (hashes s))%nat;
  registered_there : ∀ l, reg_in (stateMaps s) l →
    (first_state ≤ l < length (hashes s))%nat;
  default_renderer : hashes s !! _DEFAULT_RENDERER_STATE = Some None;
  soup_renderer : is_compile_scene (DL.compileMode s) = true →
    ∀ l, DL.soup s !! _RENDERER = Some l → hashes s !! l = Some None;
  cached_hash : is_compile_scene (DL.compileMode s) = true →
    is_Some (DL._states s) →
    ∀ h, DL._stateHash s = Some h → no_hash (Some h) = false →
      scene_hash s = Some h
}.

(** **** Calls that change none of this *)

(** The part no drawing and no removal changes. *)
Definition hash_view (s : DrawList) :=
  (hashes s, DL.soup s, DL._stateHash s, DL.compileMode s, canvasIds s).

(** A computation is quiet when it leaves [hash_view] alone, registers no
    state, and leaves the bound scene bound or unbinds it. *)
Definition quiet {A} (m : Op A) : Prop :=
  ∀ s a s', m s = Ok (a, s') →
    hash_view s' = hash_view s
    ∧ (∀ l, reg_in (stateMaps s') l → reg_in (stateMaps s) l)
    ∧ (DL._states s' = DL._states s ∨ DL._states s' = None).

Lemma quiet_bind {A B} (m : Op A) (k : A → Op B) :
  quiet m → (∀ a, quiet (k a)) → quiet (bind m k).
Proof.
  intros Hm Hk s b s' H. apply bind_Ok in H as (a & s1 & H1 & H2).
  destruct (Hm _ _ _ H1) as (Hv1 & Hr1 & Hs1).
  destruct (Hk _ _ _ _ H2) as (Hv2 & Hr2 & Hs2).
  split; [congruence|]. split; [auto|].
  destruct Hs2 as [Hs2|Hs2]; [|by right]. rewrite Hs2. exact Hs1.
Qed.

Lemma quiet_frame {A} (m : Op A) :
  frame (λ s, (hash_view s, stateMaps s, DL._states s)) m → quiet m.
Proof.
  intros Hm s a s' H. apply Hm in H.
  pose proof (f_equal (λ x, x.1.1) H) as Hv.
  pose proof (f_equal (λ x, x.1.2) H) as Hr.
  pose proof (f_equal snd H) as Hs. simpl in Hv, Hr, Hs.
  split; [done|]. split; [by rewrite Hr|]. by left.
Qed.

Lemma quiet_for_each {A} (body : A → Op unit) xs :
  (∀ x, quiet (body x)) → quiet (for_each body xs).
Proof.
  intros Hb. induction xs as [|x xs IH]; simpl.
  - apply quiet_frame, frame_ret.
  - apply quiet_bind; auto.
Qed.

Lemma quiet_for_loop {A} (body : nat → A → Op A) start n acc :
  (∀ i a, quiet (body i a)) → quiet (for_loop body start n acc).
Proof.
  intros Hb. revert start acc.
  induction n as [|n IH]; intros start acc; simpl.
  - apply quiet_frame, frame_ret.
  - apply quiet_bind; auto.
Qed.

Lemma fmap_alter_hash (f : State.t → State.t) l (heap : list State.t) :
  (∀ st, State.hash (f st) = State.hash st) →
  State.hash <$> alter f l heap = State.hash <$> heap.
Proof.
  intros Hf. apply list_eq. intros i.
  rewrite !list_lookup_fmap, list_lookup_alter.
  case_decide; [|done]. subst. destruct (heap !! i); simpl; by rewrite ?Hf.
Qed.

Lemma quiet_upd_state l f :
  (∀ st, State.hash (f st) = State.hash st) → quiet (upd_state l f).
Proof.
  intros Hf. apply quiet_frame. unfold upd_state. apply frame_modify.
  intros s. unfold hash_view, hashes. simpl. by rewrite fmap_alter_hash.
Qed.

Lemma quiet_upd_scene sid g :
  (∀ sc, Scene.canvasId (g sc) = Scene.canvasId sc) →
  (∀ sc, Scene.stateMap (g sc) = Scene.stateMap sc) →
  quiet (upd_scene sid g).
Proof.
  intros Hc Hm. apply quiet_frame. unfold upd_scene. apply frame_modify.
  intros s. unfold hash_view, canvasIds, stateMaps. simpl.
  by rewrite !fmap_alter_same.
Qed.

Lemma quiet_modify g :
  (∀ s, (hash_view (g s), stateMaps (g s), DL._states (g s))
        = (hash_view s, stateMaps s, DL._states s)) →
  quiet (modify g).
Proof. intros Hg. by apply quiet_frame, frame_modify. Qed.

Lemma quiet_unbind : quiet (modify (DL.with__states None)).
Proof.
  intros s a s' [= <- <-]. split; [done|]. split; [done|]. by right.
Qed.

(** A type map that loses an entry. *)
Lemma quiet_unregister sid ty key :
  quiet (upd_scene sid (λ sc,
           match Scene.stateMap sc !! ty with
           | Some typeMap =>
               Scene.with_stateMap
                 (<[ty := delete key typeMap]> (Scene.stateMap sc)) sc
           | None => sc
           end)).
Proof.
  intros s a s' [= <- <-]. split; [|split; [|by left]].
  - unfold hash_view, canvasIds. simpl. rewrite fmap_alter_same; [done|].
    intros sc. by destruct (Scene.stateMap sc !! ty).
  - intros l (sid' & m & ty' & typeMap & key' & Hm & Hty & Hl).
    unfold stateMaps in *. simpl in Hm. rewrite lookup_fmap in Hm.
    destruct (decide (sid = sid')) as [<-|Hne].
    2: { rewrite lookup_alter_ne in Hm by done.
         exists sid', m, ty', typeMap, key'. by rewrite lookup_fmap. }
    rewrite lookup_alter_eq in Hm.
    destruct (DL._sceneStates s !! sid) as [sc|] eqn:Hsc; [|done].
    simpl in Hm. injection Hm as <-.
    destruct (Scene.stateMap sc !! ty) as [tm|] eqn:Htm.
    2: { exists sid, (Scene.stateMap sc), ty', typeMap, key'.
         by rewrite lookup_fmap, Hsc. }
    simpl in Hty. destruct (decide (ty = ty')) as [<-|Hty'].
    + rewrite lookup_insert_eq in Hty. injection Hty as <-.
      apply lookup_delete_Some in Hl as [_ Hl].
      exists sid, (Scene.stateMap sc), ty, tm, key'.
      by rewrite lookup_fmap, Hsc.
    + rewrite lookup_insert_ne in Hty by done.
      exists sid, (Scene.stateMap sc), ty', typeMap, key'.
      by rewrite lookup_fmap, Hsc.
Qed.

Ltac quiet_step :=
  first
    [ apply quiet_unbind
    | apply quiet_unregister
    | apply quiet_upd_state; intros ?; done
    | apply quiet_upd_scene; intros ?; simpl; first [done | by repeat case_match]
    | apply quiet_frame; solve [auto with frame]
    | apply quiet_frame; first [apply frame_ret | apply frame_throw
                               | apply frame_get | apply frame_gets
                               | apply frame_deref ]
    | apply quiet_modify; intros ?; done
    | apply quiet_bind; [|intros]
    | apply quiet_for_each; intros
    | apply quiet_for_loop; intros
    | match goal with
      | |- quiet (if ?b then _ else _) => destruct b
      | |- quiet (match ?x with _ => _ end) => destruct x
      | |- quiet (let '(_, _) := ?x in _) => destruct x
      end
    | progress unfold upd_node, upd_program, log_call, set_soup ].
Ltac quiet_tac := repeat quiet_step.

Lemma quiet_releaseState l : quiet (_releaseState l).
Proof. unfold _releaseState. quiet_tac. Qed.

Lemma quiet_count_node ty : quiet (count_node ty).
Proof. unfold count_node. quiet_tac. Qed.

Lemma quiet_releaseProgram p : quiet (_releaseProgram p).
Proof. unfold _releaseProgram. quiet_tac. Qed.

Lemma quiet_getProgram h : quiet (_getProgram h).
Proof. unfold _getProgram. quiet_tac. Qed.

Lemma quiet_removeGeometry sid id : quiet (removeGeometry sid id).
Proof.
  rewrite removeGeometry_unfold. unfold remove_node, release_node.
  repeat first [ apply quiet_releaseState | apply quiet_releaseProgram
               | quiet_step ].
Qed.

Lemma quiet_renderDrawList sid picking sel :
  quiet (_renderDrawList sid picking sel).
Proof.
  unfold _renderDrawList, renderNode, node_flags, layer_core,
    skip_unmatched_tag.
  quiet_tac.
Qed.

Lemma quiet_stateSortBins : quiet _stateSortBins.
Proof.
  unfold _stateSortBins, _createStateStateSortIDs, layer_core. quiet_tac.
Qed.

Lemma quiet_renderFrame params : quiet (renderFrame params).
Proof.
  unfold renderFrame, renderer_init, renderer_cleanup.
  repeat first [ apply quiet_renderDrawList | apply quiet_stateSortBins
               | quiet_step ].
Qed.

Lemma quiet_pick raster sid x y sel : quiet (pick raster sid x y sel).
Proof.
  unfold pick, renderer_init, renderer_cleanup.
  repeat first [ apply quiet_renderDrawList | quiet_step ].
Qed.

Lemma quiet_reset : quiet reset.
Proof. unfold reset. quiet_tac. Qed.

(** **** The invariant of the hashes *)

Lemma hash_inv_quiet s s' :
  hash_view s' = hash_view s →
  (∀ l, reg_in (stateMaps s') l → reg_in (stateMaps s) l) →
  DL._states s' = DL._states s ∨ DL._states s' = None →
  hash_inv s → hash_inv s'.
Proof.
  unfold hash_view. intros [= Hh Hsoup Hsh Hmode Hc] Hreg Hst [H1 H2 H3 H4 H5 H6].
  split; rewrite ?Hh, ?Hsoup, ?Hmode, ?Hsh; try done.
  - intros l Hl. apply H3. auto.
  - intros Hfull Hbound h Hcached Hno.
    destruct Hst as [Hst|Hst]; [|rewrite Hst in Hbound; by destruct Hbound].
    unfold scene_hash. rewrite Hh, Hsoup, Hst, Hc.
    apply H6; try done. by rewrite <- Hst.
Qed.

Lemma hash_inv_initial : hash_inv initial.
Proof.
  split; try done.
  intros l (sid & m & ty & tm & key & Hm & _). unfold stateMaps in Hm.
  simpl in Hm. by rewrite fmap_empty, lookup_empty in Hm.
Qed.

(** The SCENE_CREATED listener. *)
Lemma hash_inv_sceneCreated sid canvasId s s' :
  sceneCreated sid canvasId s = Ok (tt, s') → hash_inv s → hash_inv s'.
Proof.
  intros H Hinv. unfold sceneCreated, bind, get, modify, ret in H.
  destruct (DL._sceneStates s !! sid) eqn:Hs; [by injection H as <-|].
  destruct (Object_prototype sid); injection H as <-; [done|].
  destruct Hinv as [H1 H2 H3 H4 H5 H6]. split; try done.
  - intros l (sid' & m & ty & tm & key & Hm & Hty & Hl). apply H3.
    unfold stateMaps in Hm. simpl in Hm.
    rewrite lookup_fmap, lookup_insert in Hm. case_decide.
    + simpl in Hm. injection Hm as <-. by rewrite lookup_empty in Hty.
    + exists sid', m, ty, tm, key. unfold stateMaps.
      by rewrite lookup_fmap.
  - intros Hfull Hbound h Hcached Hno.
    pose proof (H6 Hfull Hbound h Hcached Hno) as Hh.
    unfold scene_hash, scene_hash_of in *. simpl in *.
    destruct (DL._states s) as [sid0|]; [|done]. simpl in *.
    unfold canvasIds in *. simpl. rewrite lookup_fmap in *.
    rewrite lookup_insert_ne; [done|].
    intros <-. by rewrite Hs in Hh.
Qed.

(** **** Binding a scene *)

(** A computation that writes no hash, creates no scene, registers no
    state, and points soup variables at default states only. *)
Definition rebinds {A} (m : Op A) : Prop :=
  ∀ s a s', m s = Ok (a, s') →
    hashes s' = hashes s
    ∧ canvasIds s' = canvasIds s
    ∧ (∀ l, reg_in (stateMaps s') l → reg_in (stateMaps s) l)
    ∧ (∀ ty l, DL.soup s' !! ty = Some l →
         (l < first_state)%nat ∨ DL.soup s !! ty = Some l).

Lemma rebinds_bind {A B} (m : Op A) (k : A → Op B) :
  rebinds m → (∀ a, rebinds (k a)) → rebinds (bind m k).
Proof.
  intros Hm Hk s b s' H. apply bind_Ok in H as (a & s1 & H1 & H2).
  destruct (Hm _ _ _ H1) as (Hh1 & Hc1 & Hr1 & Hs1).
  destruct (Hk _ _ _ _ H2) as (Hh2 & Hc2 & Hr2 & Hs2).
  split; [congruence|]. split; [congruence|]. split; [auto|].
  intros ty l Hl. destruct (Hs2 ty l Hl) as [?|Hl1]; [by left|]. auto.
Qed.

Lemma rebinds_modify g :
  (∀ s, hashes (g s) = hashes s ∧ canvasIds (g s) = canvasIds s
        ∧ stateMaps (g s) = stateMaps s ∧ DL.soup (g s) = DL.soup s) →
  rebinds (modify g).
Proof.
  intros Hg s a s' [= <- <-]. destruct (Hg s) as (-> & -> & -> & ->).
  repeat split; auto.
Qed.

Lemma rebinds_frame {A} (m : Op A) : frame id m → rebinds m.
Proof.
  intros Hm s a s' H. apply Hm in H. unfold id in H. subst.
  repeat split; auto.
Qed.

Lemma rebinds_set_soup ty d :
  (d < first_state)%nat → rebinds (set_soup ty d).
Proof.
  intros Hd s a s' [= <- <-]. repeat split; try done.
  intros ty' l. simpl. rewrite lookup_insert. case_decide; [|auto].
  intros [= <-]. by left.
Qed.

Lemma rebinds_upd_scene sid g :
  (∀ sc, Scene.canvasId (g sc) = Scene.canvasId sc) →
  (∀ sc, Scene.stateMap (g sc) = Scene.stateMap sc
         ∨ Scene.stateMap (g sc) = ∅) →
  rebinds (upd_scene sid g).
Proof.
  intros Hc Hm s a s' [= <- <-]. split; [done|]. split; [|split; [|auto]].
  - unfold canvasIds. simpl. by rewrite fmap_alter_same.
  - intros l (sid' & m & ty & tm & key & Hsid & Hty & Hl).
    unfold stateMaps in *. simpl in Hsid. rewrite lookup_fmap in Hsid.
    destruct (decide (sid = sid')) as [<-|Hne].
    + rewrite lookup_alter_eq in Hsid.
      destruct (DL._sceneStates s !! sid) as [sc|] eqn:Hsc; [|done].
      simpl in Hsid. injection Hsid as <-.
      destruct (Hm sc) as [Heq|Heq]; rewrite Heq in Hty.
      * exists sid, (Scene.stateMap sc), ty, tm, key.
        by rewrite lookup_fmap, Hsc.
      * by rewrite lookup_empty in Hty.
    + rewrite lookup_alter_ne in Hsid by done.
      exists sid', m, ty, tm, key. by rewrite lookup_fmap.
Qed.

Ltac rebinds_step :=
  first
    [ apply rebinds_set_soup; vm_compute; lia
    | apply rebinds_upd_scene; intros ?; simpl; auto
    | apply rebinds_frame; solve [auto with frame]
    | apply rebinds_frame; first [apply frame_ret | apply frame_throw]
    | apply rebinds_modify; intros ?; done
    | apply rebinds_bind; [|intros]
    | match goal with
      | |- rebinds (if ?b then _ else _) => destruct b
      end ].

Lemma rebinds_bindScene sid mode resort : rebinds (bindScene sid mode resort).
Proof. unfold bindScene, _forceStateSort. repeat rebinds_step. Qed.

Lemma frame_soup_set_soup ty ty' l :
  ty ≠ ty' → frame (λ s, DL.soup s !! ty) (set_soup ty' l).
Proof.
  intros Hne. unfold set_soup. apply frame_modify. intros s. simpl.
  by rewrite lookup_insert_ne.
Qed.

(** [bindScene]: the cached hash is dropped; a rebuild points the soup at
    default states; a full compile forgets the registered states. *)
Lemma bindScene_hash sid mode resort s s' :
  bindScene sid mode resort s = Ok (tt, s') →
  DL._stateHash s' = None
  ∧ DL.compileMode s' = mode
  ∧ (is_compile_scene mode = true →
     DL.soup s' !! _RENDERER = Some _DEFAULT_RENDERER_STATE).
Proof.
  intros H. unfold bindScene, _forceStateSort in H.
  do 4 (apply bind_Ok in H as (? & ? & _ & H)).
  apply bind_Ok in H as ([] & s1 & [= <-] & H).
  apply bind_Ok in H as ([] & s2 & Hblock & H).
  apply bind_Ok in H as ([] & s3 & Hnodes & H).
  apply bind_Ok in H as ([] & s4 & [= <-] & [= <-]).
  split; [|split; [done|]].
  - simpl. apply (frame_apply DL._stateHash) in Hnodes; [|solve [field_tac]].
    apply (frame_apply DL._stateHash) in Hblock; [|solve [field_tac]].
    by rewrite Hnodes, Hblock.
  - intros Hfull. unfold is_compile_scene in Hfull. simpl.
    apply (frame_apply (λ s, DL.soup s !! _RENDERER)) in Hnodes;
      [|solve [field_tac]].
    rewrite Hnodes. clear Hnodes.
    rewrite Hfull in Hblock. rewrite bool_decide_true in Hblock.
    2: { left. by apply bool_decide_eq_true in Hfull. }
    do 9 (apply bind_Ok in Hblock as (? & ? & _ & Hblock)).
    apply bind_Ok in Hblock as ([] & s5 & [= <-] & Hblock).
    apply (frame_apply (λ s, DL.soup s !! _RENDERER)) in Hblock.
    + rewrite Hblock. simpl. by rewrite lookup_insert_eq.
    + repeat first [ apply frame_soup_set_soup; done | field_step ].
Qed.

Lemma hash_inv_bindScene sid mode resort s s' :
  bindScene sid mode resort s = Ok (tt, s') → hash_inv s → hash_inv s'.
Proof.
  intros H [H1 H2 H3 H4 H5 H6].
  destruct (rebinds_bindScene _ _ _ _ _ _ H) as (Hh & Hc & Hr & Hs).
  destruct (bindScene_hash _ _ _ _ _ H) as (Hsh & Hmode & Hrenderer).
  split; rewrite ?Hh; try done.
  - intros ty l Hl. destruct (Hs ty l Hl) as [Hd|Hl']; [lia|eauto].
  - intros l Hl. apply H3. auto.
  - rewrite Hmode. intros Hfull l. rewrite (Hrenderer Hfull).
    by intros [= <-].
  - intros _ _ h Hcached. by rewrite Hsh in Hcached.
Qed.

(** **** The category setters *)

(** The state types whose hash is part of the scene hash. *)
Definition contributes (stateType : nat) : bool :=
  bool_decide (stateType ∈ [_CLIPS; _COLORTRANS; _LIGHTS; _MORPH; _TEXTURE;
                            _SHADER; _RENDERER; _GEO]).

Lemma stateMap_fmap_alter sid ty (tm : gmap string loc)
    (scenes : gmap string Scene.t) :
  Scene.stateMap
    <$> alter (λ sc, Scene.with_stateMap (<[ty := tm]> (Scene.stateMap sc)) sc)
          sid scenes
  = alter (<[ty := tm]>) sid (Scene.stateMap <$> scenes).
Proof. by apply fmap_alter_comm. Qed.

Lemma reg_in_alter_insert maps sid ty (tm : gmap string loc) l :
  reg_in (alter (<[ty := tm]>) sid maps) l →
  (∃ key, tm !! key = Some l) ∨ reg_in maps l.
Proof.
  intros (sid' & m & ty' & tm' & key & Hm & Hty & Hl).
  destruct (decide (sid = sid')) as [<-|Hne].
  - rewrite lookup_alter_eq in Hm.
    destruct (maps !! sid) as [m0|] eqn:Hm0; [|done].
    simpl in Hm. injection Hm as <-.
    destruct (decide (ty = ty')) as [<-|Hty'].
    + rewrite lookup_insert_eq in Hty. injection Hty as <-. eauto.
    + rewrite lookup_insert_ne in Hty by done. right.
      by exists sid, m0, ty', tm', key.
  - rewrite lookup_alter_ne in Hm by done. right.
    by exists sid', m, ty', tm', key.
Qed.

(** What [_getState] does to the hashes when it yields a state of the draw
    list: the state was registered, or it is new and has no hash. *)
Lemma _getState_hash ty id s l s1 :
  bind (_getState ty id) own_state s = Ok (l, s1) →
  DL.soup s1 = DL.soup s
  ∧ DL._stateHash s1 = DL._stateHash s
  ∧ DL.compileMode s1 = DL.compileMode s
  ∧ DL._states s1 = DL._states s
  ∧ canvasIds s1 = canvasIds s
  ∧ ((reg_in (stateMaps s) l
      ∧ is_compile_scene (DL.compileMode s) = false
      ∧ DL.stateHeap s1 = DL.stateHeap s
      ∧ (∀ l', reg_in (stateMaps s1) l' → reg_in (stateMaps s) l'))
     ∨ (l = length (DL.stateHeap s)
        ∧ (∃ st, DL.stateHeap s1 = DL.stateHeap s ++ [st]
                 ∧ State.hash st = None)
        ∧ (∀ l', reg_in (stateMaps s1) l' →
             reg_in (stateMaps s) l' ∨ l' = l))).
Proof.
  intros H. apply bind_Ok in H as (r & s0 & H & Hown).
  destruct r as [l0|i]; [|done]. injection Hown as -> ->.
  revert H.
  unfold _getState, bound_stateMap, scene_at, upd_scene.
  unfold bind, get, deref, modify, ret, throw.
  destruct (DL._stateMap s) as [sid|] eqn:Hmap; [simpl|done].
  destruct (DL._sceneStates s !! sid) as [sc|] eqn:Hscene; [simpl|done].
  assert (Hsc : stateMaps s !! sid = Some (Scene.stateMap sc)).
  { unfold stateMaps. by rewrite lookup_fmap, Hscene. }
  assert (Htm : ∀ key l', default ∅ (Scene.stateMap sc !! ty) !! key = Some l' →
                          reg_in (stateMaps s) l').
  { intros key l' Hl'.
    destruct (Scene.stateMap sc !! ty) as [tm|] eqn:Hty; simpl in Hl'.
    - by exists sid, (Scene.stateMap sc), ty, tm, key.
    - by rewrite lookup_empty in Hl'. }
  assert (Hc : ∀ (f : Scene.t → Scene.t) (scenes : gmap string Scene.t),
             (∀ sc, Scene.canvasId (f sc) = Scene.canvasId sc) →
             Scene.canvasId <$> alter f sid scenes = Scene.canvasId <$> scenes).
  { intros f scenes Hf. by apply fmap_alter_same. }
  destruct (is_compile_scene (DL.compileMode s)) eqn:Hmode; simpl.
  - destruct (post_incr (DL.nextStateId s)) as [stateId next]; simpl.
    destruct (truthy id) eqn:Hid; [destruct (sets_prototype (toKey id))|];
      [done|..]; intros [= <- <-]; simpl.
    all: unfold canvasIds; simpl; rewrite ?Hc by done.
    all: repeat split; try done.
    all: right; split; [done|]; split; [by eexists|].
    all: intros l'; unfold stateMaps at 1; simpl;
      rewrite !stateMap_fmap_alter;
      change (Scene.stateMap <$> DL._sceneStates s) with (stateMaps s).
    + intros [[key Hl']|Hl']%reg_in_alter_insert.
      * rewrite lookup_insert in Hl'. case_decide; [by injection Hl' as <-; right|].
        left. by eapply Htm.
      * apply reg_in_alter_insert in Hl' as [[key Hl']|Hl']; [|by left].
        left. by eapply Htm.
    + intros [[key Hl']|Hl']%reg_in_alter_insert; left; [by eapply Htm|done].
  - destruct (default ∅ (Scene.stateMap sc !! ty) !! toKey id)
      as [l1|] eqn:Hl1.
    + intros [= <- <-]. simpl.
      unfold canvasIds; simpl; rewrite ?Hc by done.
      repeat split; try done. left. split; [by eapply Htm|].
      repeat split; try done.
      intros l'. unfold stateMaps at 1. simpl.
      rewrite !stateMap_fmap_alter.
      change (Scene.stateMap <$> DL._sceneStates s) with (stateMaps s).
      intros [[key Hl']|Hl']%reg_in_alter_insert; [by eapply Htm|done].
    + destruct (Object_prototype (toKey id)) as [i|] eqn:Hp; [done|].
      destruct (post_incr (DL.nextStateId s)) as [stateId next]; simpl.
      intros [= <- <-]. simpl.
      unfold canvasIds; simpl; rewrite ?Hc by done.
      repeat split; try done.
      right; split; [done|]; split; [by eexists|].
      intros l'; unfold stateMaps at 1; simpl;
        rewrite !stateMap_fmap_alter;
        change (Scene.stateMap <$> DL._sceneStates s) with (stateMaps s).
      intros [[key Hl']|Hl']%reg_in_alter_insert.
      * rewrite lookup_insert in Hl'. case_decide; [by injection Hl' as <-; right|].
        left. by eapply Htm.
      * apply reg_in_alter_insert in Hl' as [[key Hl']|Hl']; [|by left].
        left. by eapply Htm.
Qed.

(** What a category setter does to the soup and the hashes: it points the
    soup variable of its state type at a default state, at a registered
    state, or at a new state; it writes no hash but that state's; it leaves
    the cached scene hash as it is or drops it. *)
Definition set_effect (ty : nat) (s s' : DrawList) : Prop :=
  ∃ l,
    DL.soup s' = <[ty := l]> (DL.soup s)
    ∧ DL.compileMode s' = DL.compileMode s
    ∧ DL._states s' = DL._states s
    ∧ canvasIds s' = canvasIds s
    ∧ (DL._stateHash s' = DL._stateHash s ∨ DL._stateHash s' = None)
    ∧ (((l < first_state)%nat
        ∧ hashes s' = hashes s
        ∧ stateMaps s' = stateMaps s
        ∧ (ty = _RENDERER → l = _DEFAULT_RENDERER_STATE)
        ∧ (contributes ty = true → ty ≠ _RENDERER →
           DL._stateHash s' = None))
       ∨ (reg_in (stateMaps s) l
          ∧ is_compile_scene (DL.compileMode s) = false
          ∧ length (hashes s') = length (hashes s)
          ∧ (∀ k, k ≠ l → hashes s' !! k = hashes s !! k)
          ∧ (∀ l', reg_in (stateMaps s') l' → reg_in (stateMaps s) l'))
       ∨ (l = length (hashes s)
          ∧ (∃ x, hashes s' = hashes s ++ [x] ∧ (ty = _RENDERER → x = None))
          ∧ (contributes ty = true →
             is_compile_scene (DL.compileMode s) = true →
             DL._stateHash s' = None)
          ∧ (∀ l', reg_in (stateMaps s') l' →
               reg_in (stateMaps s) l' ∨ l' = l))).

(** A reset. *)
Lemma set_effect_reset ty d s s' :
  s' = DL.with_soup (<[ty := d]> (DL.soup s)) s
  ∨ s' = DL.with__stateHash None (DL.with_soup (<[ty := d]> (DL.soup s)) s) →
  (d < first_state)%nat →
  (ty = _RENDERER → d = _DEFAULT_RENDERER_STATE) →
  (contributes ty = true → ty ≠ _RENDERER → DL._stateHash s' = None) →
  set_effect ty s s'.
Proof.
  intros Hs' Hd Hr Hc. exists d.
  destruct Hs' as [-> | ->]; simpl in *.
  - repeat split; try done; [by left|]. left. repeat split; done.
  - repeat split; try done; [by right|]. left. repeat split; done.
Qed.

(** The writes of a setter on the state [_getState] gave it. *)
Definition writes (l : loc) (s1 s' : DrawList) : Prop :=
  ∃ f, DL.stateHeap s' = alter f l (DL.stateHeap s1).

Lemma writes_refl l s : writes l s s.
Proof.
  exists (λ st, st). symmetry. apply list_eq. intros i.
  rewrite list_lookup_alter. case_decide; [|done]. subst.
  by destruct (DL.stateHeap s !! i).
Qed.

Lemma writes_upd l f s1 s :
  writes l s1 s →
  writes l s1 (DL.with_stateHeap (alter f l (DL.stateHeap s)) s).
Proof.
  intros [g Hg]. exists (f ∘ g). simpl. rewrite Hg.
  apply list_alter_alter_eq.
Qed.

(** From [_getState] and the writes that follow to the effect. *)
Lemma set_effect_got ty id s l s1 s' :
  bind (_getState ty id) own_state s = Ok (l, s1) →
  DL.soup s' = <[ty := l]> (DL.soup s1) →
  DL.compileMode s' = DL.compileMode s1 →
  DL._states s' = DL._states s1 →
  DL._sceneStates s' = DL._sceneStates s1 →
  DL._stateHash s' = DL._stateHash s1 ∨ DL._stateHash s' = None →
  writes l s1 s' →
  (ty = _RENDERER → hashes s' !! l = hashes s1 !! l) →
  (contributes ty = true → is_compile_scene (DL.compileMode s1) = true →
   DL._stateHash s' = None) →
  set_effect ty s s'.
Proof.
  intros Hg Hsoup Hmode Hstates Hscenes Hsh [f Hf] Hrend Hcontrib.
  apply _getState_hash in Hg as (Hsoup1 & Hsh1 & Hmode1 & Hst1 & Hc1 & Hcase).
  exists l. rewrite Hsoup, Hmode, Hstates, Hsoup1, Hmode1, Hst1.
  split; [done|]. split; [done|]. split; [done|].
  split; [unfold canvasIds in *; by rewrite Hscenes|].
  split; [rewrite <- Hsh1; exact Hsh|].
  right.
  assert (Hmaps : stateMaps s' = stateMaps s1).
  { unfold stateMaps. by rewrite Hscenes. }
  destruct Hcase as [(Hreg & Hfull & Hheap & Hregs)
                    |(-> & (st & Hheap & Hst) & Hregs)].
  - left. split; [done|]. split; [done|].
    unfold hashes. rewrite Hf, Hheap. split; [|split].
    + by rewrite !length_fmap, length_alter.
    + intros k Hk. by rewrite !list_lookup_fmap, list_lookup_alter_ne.
    + by rewrite Hmaps.
  - right. unfold hashes in *. split; [by rewrite length_fmap|].
    rewrite Hf, Hheap, alter_last, fmap_app in *. simpl in *.
    split; [|split].
    + eexists. split; [done|]. intros Hty.
      specialize (Hrend Hty). rewrite ?fmap_app in Hrend. simpl in Hrend.
      rewrite !list_lookup_middle in Hrend by (by rewrite length_fmap).
      injection Hrend as ->. done.
    + rewrite <- Hmode1. exact Hcontrib.
    + by rewrite Hmaps.
Qed.

Ltac set_effect_tail H Hg :=
  let Heff := fresh "Heff" in
  match type of H with
  | _ = Ok (_, ?s') => pose proof (set_effect_got _ _ _ _ _ s' Hg) as Heff
  end;
  clear Hg;
  unfold set_soup, upd_state, compiling_scene in H;
  inv_all; simpl in *;
  apply Heff;
  first
    [ reflexivity
    | left; reflexivity
    | right; reflexivity
    | unfold writes; simpl; rewrite ?list_alter_alter_eq; eexists; reflexivity
    | by (intros Hty; vm_compute in Hty)
    | intros _; unfold hashes; simpl; rewrite ?fmap_alter_hash by done;
      reflexivity
    | intros _ _; reflexivity
    | intros _ Hfull; congruence ].

Ltac set_effect_reset_tac H :=
  unfold set_soup, bind, modify in H; injection H as <-;
  eapply set_effect_reset;
  [ first [ left; reflexivity | right; reflexivity ]
  | vm_compute; lia
  | first [ by (intros Hty; vm_compute in Hty) | intros _; reflexivity ]
  | first [ by (intros Hc; vm_compute in Hc)
          | intros _ _; reflexivity
          | intros _ Hne; by destruct Hne ] ].

(** Every category setter has this effect. *)
Lemma call_setter_effect c s s' :
  call_setter c s = Ok (tt, s') → set_effect (setter_type c) s s'.
Proof.
  intros H.
  destruct c as [a|a|a|a|a|a|a|a|a|a|a|a|a|a|a|a|a|a];
    destruct a as [|id p]; unfold call_setter in H; simpl.
  all: try (destruct p as [[? ?] ?]); try (destruct p as [? ?]).
  all: unfold setClips, setColortrans, setFlags, setLayer, setFrameBuf,
         setLights, setMaterial, setMorph, setTexture, setRenderer,
         setModelTransform, setProjectionTransform, setViewTransform,
         setName, setTag, setRenderListeners, setShader, setShaderParams
         in H;
       simpl in H.
  all: try match type of H with
           | (if negb (truthy ?i) then _ else _) _ = _ =>
               destruct (truthy i); simpl in H
           end.
  all: first [ set_effect_reset_tac H
             | (apply bind_Ok in H as (l & s1 & Hg & H);
                set_effect_tail H Hg) ].
Qed.

(** The scene hash depends on the soup variables of the contributing state
    types only. *)
Lemma scene_hash_of_ext hs hs' soup soup' bound canvas :
  (∀ ty, contributes ty = true →
         part_hash hs' soup' ty = part_hash hs soup ty) →
  scene_hash_of hs' soup' bound canvas = scene_hash_of hs soup bound canvas.
Proof.
  intros H. unfold scene_hash_of.
  rewrite (H _CLIPS), (H _COLORTRANS), (H _LIGHTS), (H _MORPH), (H _TEXTURE),
    (H _SHADER), (H _RENDERER), (H _GEO) by done.
  done.
Qed.

(** A scene hash that has a value has a value for each of its parts. *)
Lemma scene_hash_of_Some hs soup bound canvas h ty :
  scene_hash_of hs soup bound canvas = Some h →
  contributes ty = true →
  is_Some (part_hash hs soup ty).
Proof.
  unfold scene_hash_of. intros H Hty.
  destruct bound as [sid|]; [|done]. simpl in H.
  destruct (canvas !! sid); [|done]. simpl in H.
  destruct (part_hash hs soup _CLIPS) eqn:H1; [|done]. simpl in H.
  destruct (part_hash hs soup _COLORTRANS) eqn:H2; [|done]. simpl in H.
  destruct (part_hash hs soup _LIGHTS) eqn:H3; [|done]. simpl in H.
  destruct (part_hash hs soup _MORPH) eqn:H4; [|done]. simpl in H.
  destruct (part_hash hs soup _TEXTURE) eqn:H5; [|done]. simpl in H.
  destruct (part_hash hs soup _SHADER) eqn:H6; [|done]. simpl in H.
  destruct (part_hash hs soup _RENDERER) eqn:H7; [|done]. simpl in H.
  destruct (part_hash hs soup _GEO) eqn:H8; [|done].
  apply bool_decide_eq_true in Hty.
  repeat (apply elem_of_cons in Hty as [->|Hty]; [by eexists|]).
  by apply elem_of_nil in Hty.
Qed.

(** The category setters keep the invariant of the hashes. *)
Lemma hash_inv_set ty s s' : set_effect ty s s' → hash_inv s → hash_inv s'.
Proof.
  intros (l & Hsoup & Hmode & Hstates & Hcanvas & Hsh & Hcase)
    [H1 H2 H3 H4 H5 H6].
  assert (Hlen : (length (hashes s) ≤ length (hashes s'))%nat).
  { destruct Hcase as [(_ & -> & _)|[(_ & _ & -> & _)|(_ & (x & -> & _) & _)]];
      rewrite ?length_app; simpl; lia. }
  assert (Hl : (l < length (hashes s'))%nat).
  { destruct Hcase as [(? & -> & _)|[(Hreg & _ & -> & _)
                                    |(-> & (x & -> & _) & _)]].
    - lia.
    - apply H3 in Hreg. lia.
    - rewrite length_app. simpl. lia. }
  assert (Hold : ∀ k, (k < length (hashes s))%nat → k ≠ l →
                      hashes s' !! k = hashes s !! k).
  { intros k Hk Hne.
    destruct Hcase as [(_ & -> & _)|[(_ & _ & _ & Hsame & _)
                                    |(_ & (x & -> & _) & _)]].
    - done.
    - by apply Hsame.
    - by apply lookup_app_l. }
  split.
  - lia.
  - intros ty' l'. rewrite Hsoup, lookup_insert. case_decide.
    + by intros [= <-].
    + intros Hl'. apply H2 in Hl'. lia.
  - intros l' Hl'.
    destruct Hcase as [(_ & _ & Hmaps & _)|[(_ & _ & _ & _ & Hregs)
                                           |(-> & _ & _ & Hregs)]].
    + rewrite Hmaps in Hl'. apply H3 in Hl'. lia.
    + apply Hregs, H3 in Hl'. lia.
    + apply Hregs in Hl' as [Hl'| ->]; [apply H3 in Hl'|]; lia.
  - destruct (decide (l = _DEFAULT_RENDERER_STATE)) as [->|Hne].
    + destruct Hcase as [(_ & -> & _)|[(Hreg & _)|(Hl0 & _)]].
      * done.
      * apply H3 in Hreg. vm_compute in Hreg. lia.
      * rewrite <- Hl0 in H1. vm_compute in H1. lia.
    + rewrite Hold; [done| |done]. vm_compute in H1. vm_compute. lia.
  - rewrite Hmode. intros Hfull lr. rewrite Hsoup, lookup_insert.
    case_decide as Hty.
    + intros [= <-].
      destruct Hcase as [(_ & -> & _ & Hd & _)|[(_ & Hf & _)
                                               |(-> & (x & -> & Hx) & _)]].
      * by rewrite (Hd Hty).
      * congruence.
      * rewrite list_lookup_middle by done. by rewrite (Hx Hty).
    + intros Hlr. pose proof (H5 Hfull lr Hlr) as Hnone.
      destruct (decide (lr = l)) as [->|Hne].
      * destruct Hcase as [(_ & -> & _)|[(_ & Hf & _)|(-> & _)]].
        -- done.
        -- congruence.
        -- apply H2 in Hlr. lia.
      * rewrite Hold; [done| |done]. by eapply H2.
  - rewrite Hmode, Hstates. intros Hfull Hbound h Hcached Hno.
    assert (Hcached0 : DL._stateHash s = Some h).
    { destruct Hsh as [Hsh|Hsh]; congruence. }
    pose proof (H6 Hfull Hbound h Hcached0 Hno) as Hh.
    rewrite <- Hh. unfold scene_hash. rewrite Hstates, Hcanvas.
    apply scene_hash_of_ext. intros ty' Hty'.
    destruct (scene_hash_of_Some _ _ _ _ _ ty' Hh Hty') as [x Hx].
    unfold part_hash in *. rewrite Hsoup, lookup_insert.
    case_decide as Hty.
    2: { destruct (DL.soup s !! ty') as [l'|] eqn:Hl'; [|done]. simpl in *.
         destruct (decide (l' = l)) as [->|Hne].
         - destruct Hcase as [(_ & -> & _)|[(_ & Hf & _)|(-> & _)]].
           + done.
           + congruence.
           + apply H2 in Hl'. lia.
         - apply Hold; [|done]. by eapply H2. }
    subst ty'. simpl.
    destruct Hcase as [(_ & Hsame & _ & Hd & Hnull)|[(_ & Hf & _)
                                                    |(_ & _ & Hnull & _)]].
    + destruct (decide (ty = _RENDERER)) as [Hr|Hr].
      * rewrite (Hd Hr), Hsame, H4.
        destruct (DL.soup s !! ty) as [lr|] eqn:Hlr; [|done]. simpl.
        rewrite Hr in Hlr. by rewrite (H5 Hfull lr Hlr).
      * rewrite (Hnull Hty' Hr) in Hcached. done.
    + congruence.
    + rewrite (Hnull Hty' Hfull) in Hcached. done.
Qed.

Lemma hash_inv_call_setter c s s' :
  call_setter c s = Ok (tt, s') → hash_inv s → hash_inv s'.
Proof. intros H. by apply (hash_inv_set _ _ _ (call_setter_effect _ _ _ H)). Qed.

(** **** Geometries *)

Ltac quiet_all :=
  repeat first [ apply quiet_getProgram | apply quiet_count_node
               | apply quiet_releaseState | quiet_step ].

(** Outside a full compile [setGeometry] writes no hash. *)
Lemma setGeometry_quiet id geo s s' :
  is_compile_scene (DL.compileMode s) = false →
  setGeometry id geo s = Ok (tt, s') →
  hash_view s' = hash_view s
  ∧ (∀ l, reg_in (stateMaps s') l → reg_in (stateMaps s) l)
  ∧ (DL._states s' = DL._states s ∨ DL._states s' = None).
Proof.
  intros Hmode H. unfold setGeometry in H.
  apply bind_Ok in H as (full & ? & [= <- <-] & H).
  rewrite Hmode in H. simpl in H. revert H.
  match goal with
  | |- ?m s = _ → _ => assert (Hq : quiet m) by quiet_all
  end.
  apply Hq.
Qed.

(** What [setGeometry] does to the soup and the hashes under a full compile,
    up to the choice of the scene hash: the geometry state is new and
    carries the geometry's hash; the scene hash is computed anew, or the
    cached one is kept, which happens only when there is one and the
    geometry state before had the same hash. *)
Definition geo_effect (s s3 : DrawList) : Prop :=
  ∃ gh,
    hashes s3 = hashes s ++ [Some gh]
    ∧ DL.soup s3 = <[_GEO := length (hashes s)]> (DL.soup s)
    ∧ DL.compileMode s3 = DL.compileMode s
    ∧ DL._states s3 = DL._states s
    ∧ canvasIds s3 = canvasIds s
    ∧ (∀ l', reg_in (stateMaps s3) l' →
         reg_in (stateMaps s) l' ∨ l' = length (hashes s))
    ∧ ((∃ h, DL._stateHash s3 = Some h ∧ scene_hash s3 = Some h)
       ∨ (DL._stateHash s3 = DL._stateHash s
          ∧ no_hash (DL._stateHash s) = false
          ∧ part_hash (hashes s) (DL.soup s) _GEO = Some (Some gh))).

Lemma set_soup_Ok ty l s a s' :
  set_soup ty l s = Ok (a, s') →
  s' = DL.with_soup (<[ty := l]> (DL.soup s)) s.
Proof. by intros [= _ <-]. Qed.

Lemma upd_state_Ok l f s a s' :
  upd_state l f s = Ok (a, s') →
  s' = DL.with_stateHeap (alter f l (DL.stateHeap s)) s.
Proof. by intros [= _ <-]. Qed.

Lemma setGeometry_effect id geo s s' :
  is_compile_scene (DL.compileMode s) = true →
  setGeometry id geo s = Ok (tt, s') →
  ∃ s3, geo_effect s s3
        ∧ hash_view s' = hash_view s3
        ∧ (∀ l, reg_in (stateMaps s') l → reg_in (stateMaps s3) l)
        ∧ (DL._states s' = DL._states s3 ∨ DL._states s' = None).
Proof.
  intros Hmode H. unfold setGeometry in H.
  apply bind_Ok in H as (full & ? & [= <- <-] & H).
  rewrite Hmode in H. simpl in H.
  apply bind_Ok in H as (old & ? & [= <- <-] & H).
  apply bind_Ok in H as (oldGeoHash & s0 & Hold & H).
  assert (Hold' : s0 = s
            ∧ ∀ gh, oldGeoHash = Some gh →
                part_hash (hashes s) (DL.soup s) _GEO = Some (Some gh)).
  { unfold part_hash, hashes.
    destruct (DL.soup s !! _GEO) as [l0|]; simpl.
    - apply bind_Ok in Hold as (st & ? & Hst & [= <- <-]).
      unfold state_at, bind, get in Hst.
      apply deref_Ok in Hst as [Hst ->]. split; [done|].
      intros gh Hgh. by rewrite list_lookup_fmap, Hst, <- Hgh.
    - injection Hold as <- <-. done. }
  destruct Hold' as [-> Hold']. clear Hold.
  apply bind_Ok in H as (l & s1 & Hg & H).
  apply _getState_hash in Hg as (Hsoup1 & Hsh1 & Hmode1 & Hst1 & Hc1 & Hcase).
  destruct Hcase as [(_ & Hf & _)|(-> & (st & Hheap & Hst) & Hregs)];
    [congruence|].
  apply bind_Ok in H as ([] & ? & ->%set_soup_Ok & H).
  apply bind_Ok in H as ([] & ? & ->%upd_state_Ok & H).
  apply bind_Ok in H as ([] & ? & ->%upd_state_Ok & H).
  apply bind_Ok in H as (? & ? & [= <- <-] & H).
  match type of H with
  | bind _ _ ?x = _ => set (s2 := x) in *
  end.
  apply bind_Ok in H as ([] & s3 & Hif & H).
  assert (Hs2 : hashes s2 = hashes s ++ [Some (geo_hash geo)]
                ∧ DL.soup s2 = <[_GEO := length (hashes s)]> (DL.soup s)
                ∧ DL.compileMode s2 = DL.compileMode s
                ∧ DL._states s2 = DL._states s
                ∧ canvasIds s2 = canvasIds s
                ∧ stateMaps s2 = stateMaps s1
                ∧ DL._stateHash s2 = DL._stateHash s).
  { unfold s2, hashes, canvasIds, stateMaps. simpl.
    rewrite Hheap, !alter_last, fmap_app, length_fmap. simpl.
    rewrite Hsoup1. repeat split; try done. }
  destruct Hs2 as (Hh2 & Hsoup2 & Hmode2 & Hst2 & Hc2 & Hm2 & Hsh2).
  exists s3. split.
  - exists (geo_hash geo).
    assert (Hs3 : hashes s3 = hashes s2 ∧ DL.soup s3 = DL.soup s2
                  ∧ DL.compileMode s3 = DL.compileMode s2
                  ∧ DL._states s3 = DL._states s2
                  ∧ canvasIds s3 = canvasIds s2
                  ∧ stateMaps s3 = stateMaps s2
                  ∧ ((∃ h, DL._stateHash s3 = Some h ∧ scene_hash s3 = Some h)
                     ∨ (DL._stateHash s3 = DL._stateHash s2
                        ∧ no_hash (DL._stateHash s2) = false
                        ∧ oldGeoHash = Some (geo_hash geo)))).
    { clearbody s2.
      destruct (no_hash (DL._stateHash s2)
                || negb (bool_decide (oldGeoHash = Some (geo_hash geo))))
        eqn:Hre.
      - apply bind_Ok in Hif as (h & ? & Hh & [= <-]).
        rewrite _getSceneHash_spec in Hh.
        destruct (scene_hash s2) as [h'|] eqn:Hsh; [|done].
        injection Hh as <- <-. repeat split; try done.
        left. exists h'. split; [done|]. exact Hsh.
      - injection Hif as <-. repeat split; try done. right.
        apply orb_false_iff in Hre as [Hno Hgeo].
        apply negb_false_iff, bool_decide_eq_true in Hgeo. done. }
    destruct Hs3 as (Hh3 & Hsoup3 & Hmode3 & Hst3 & Hc3 & Hm3 & Hsh3).
    rewrite Hh3, Hsoup3, Hmode3, Hst3, Hc3, Hm3, Hh2, Hsoup2, Hmode2, Hst2,
      Hc2, Hm2.
    repeat split; try done.
    + intros l' Hl'. unfold hashes. rewrite length_fmap. by apply Hregs.
    + destruct Hsh3 as [?|(Hsame & Hno & Hgeo)]; [by left|]. right.
      rewrite Hsame, Hsh2. rewrite Hsh2 in Hno. auto.
  - revert H.
    match goal with
    | |- ?m s3 = _ → _ => assert (Hq : quiet m) by quiet_all
    end.
    apply Hq.
Qed.

Lemma hash_inv_geo s s3 :
  geo_effect s s3 →
  is_compile_scene (DL.compileMode s) = true →
  hash_inv s →
  hash_inv s3
  ∧ (is_Some (DL._states s) →
     ∃ h, DL._stateHash s3 = Some h ∧ scene_hash s3 = Some h).
Proof.
  intros (gh & Hh & Hsoup & Hmode & Hstates & Hcanvas & Hregs & Hsh) Hfull
    [H1 H2 H3 H4 H5 H6].
  assert (Hold : ∀ k, (k < length (hashes s))%nat →
                      hashes s3 !! k = hashes s !! k).
  { intros k Hk. rewrite Hh. by apply lookup_app_l. }
  assert (Hkept : is_Some (DL._states s) →
            DL._stateHash s3 = DL._stateHash s →
            no_hash (DL._stateHash s) = false →
            part_hash (hashes s) (DL.soup s) _GEO = Some (Some gh) →
            ∃ h, DL._stateHash s3 = Some h ∧ scene_hash s3 = Some h).
  { intros Hbound Hsame Hno Hgeo.
    destruct (DL._stateHash s) as [h|] eqn:Hcached; [|done].
    exists h. split; [done|].
    rewrite <- (H6 Hfull Hbound h eq_refl Hno).
    unfold scene_hash. rewrite Hstates, Hcanvas.
    apply scene_hash_of_ext. intros ty Hty.
    destruct (decide (ty = _GEO)) as [->|Hne].
    - rewrite Hgeo. unfold part_hash.
      rewrite Hsoup, lookup_insert_eq. simpl.
      by rewrite Hh, list_lookup_middle.
    - unfold part_hash. rewrite Hsoup, lookup_insert_ne by done.
      destruct (DL.soup s !! ty) as [l|] eqn:Hl; [|done]. simpl.
      apply Hold. by eapply H2. }
  split.
  - split.
    + rewrite Hh, length_app. lia.
    + intros ty l. rewrite Hsoup, Hh, length_app, lookup_insert. simpl.
      case_decide.
      * intros [= <-]. lia.
      * intros Hl. apply H2 in Hl. lia.
    + intros l Hl. rewrite Hh, length_app. simpl.
      apply Hregs in Hl as [Hl| ->]; [apply H3 in Hl|]; lia.
    + rewrite Hold; [done|]. vm_compute in H1. vm_compute. lia.
    + intros _ l. rewrite Hsoup, lookup_insert_ne by done.
      intros Hl. rewrite Hold; [by apply H5|]. by eapply H2.
    + rewrite Hmode, Hstates. intros _ Hbound h Hcached Hno.
      destruct Hsh as [(h' & Hh' & Hhash)|(Hsame & Hno' & Hgeo)].
      * congruence.
      * destruct (Hkept Hbound Hsame Hno' Hgeo) as (h' & Hh' & Hhash).
        congruence.
  - intros Hbound.
    destruct Hsh as [?|(Hsame & Hno' & Hgeo)]; [done|]. by apply Hkept.
Qed.

(** [setGeometry] keeps the invariant of the hashes, and under a full
    compile it leaves the scene hash of the soup cached. *)
Lemma setGeometry_hash id geo s s' :
  setGeometry id geo s = Ok (tt, s') →
  hash_inv s →
  hash_inv s'
  ∧ (is_compile_scene (DL.compileMode s) = true →
     ∃ h, DL._stateHash s' = Some h ∧ _getSceneHash s' = Ok (h, s')).
Proof.
  intros H Hinv.
  destruct (is_compile_scene (DL.compileMode s)) eqn:Hmode.
  - pose proof (setGeometry_view _ _ _ _ H) as Hview. rewrite Hmode in Hview.
    destruct Hview as (h0 & p & heap' & cache' & sid & Hb & Hb' & _).
    destruct (setGeometry_effect _ _ _ _ Hmode H)
      as (s3 & Heff & Hv & Hr & Hst).
    destruct (hash_inv_geo _ _ Heff Hmode Hinv) as [Hinv3 Hhash].
    destruct Hhash as (h & Hcached & Hhash); [by rewrite Hb|].
    split; [by apply (hash_inv_quiet s3)|].
    intros _. exists h.
    pose proof Hv as Hv'. unfold hash_view in Hv'.
    injection Hv' as Hh Hsoup Hsh _ Hc.
    split; [congruence|].
    rewrite _getSceneHash_spec.
    assert (Heq : scene_hash s' = scene_hash s3).
    { unfold scene_hash. rewrite Hh, Hsoup, Hc. f_equal.
      destruct Heff as (_ & _ & _ & _ & Hst3 & _). congruence. }
    by rewrite Heq, Hhash.
  - split; [|done].
    destruct (setGeometry_quiet _ _ _ _ Hmode H) as (Hv & Hr & Hst).
    by apply (hash_inv_quiet s).
Qed.

(** Every call keeps the invariant of the hashes. *)
Lemma hash_inv_perform c s s' :
  perform c s = Ok (tt, s') → hash_inv s → hash_inv s'.
Proof.
  intros H Hinv. destruct c; simpl in H.
  - destruct (quiet_reset _ _ _ H) as (Hv & Hr & Hst).
    by apply (hash_inv_quiet s).
  - by eapply hash_inv_sceneCreated.
  - by eapply hash_inv_bindScene.
  - by eapply hash_inv_call_setter.
  - by apply (setGeometry_hash _ _ _ _ H).
  - destruct (quiet_removeGeometry _ _ _ _ _ H) as (Hv & Hr & Hst).
    by apply (hash_inv_quiet s).
  - destruct (quiet_renderFrame _ _ _ _ H) as (Hv & Hr & Hst).
    by apply (hash_inv_quiet s).
  - apply bind_Ok in H as (hit & s1 & H & [= <-]).
    destruct (quiet_pick _ _ _ _ _ _ _ _ H) as (Hv & Hr & Hst).
    by apply (hash_inv_quiet s).
Qed.

Lemma run_hash_inv cmds : ∀ s s',
  for_each perform cmds s = Ok (tt, s') → hash_inv s → hash_inv s'.
Proof.
  induction cmds as [|c cmds IH]; intros s s' H Hinv; simpl in H.
  - by injection H as <-.
  - apply bind_Ok in H as ([] & s1 & H1 & H).
    apply (IH _ _ H). by eapply hash_inv_perform.
Qed.

(** *** As long as the cache is never emptied *)

Lemma cache_exact_release cache : ∀ nodes cores heap,
  cache_exact cores heap cache →
  cache_exact (release_all nodes cores heap).1 (release_all nodes cores heap).2
    cache.
Proof.
  induction nodes as [|l rest IH]; intros cores heap Hex; [done|].
  simpl. destruct (cores !! l) as [c|] eqn:Hc; [|done].
  apply IH. destruct Hex as [H1 H2]. split.
  - intros p pr' Hp.
    destruct (lookup_alter_inv decr (c_program c) heap p pr') as (pr & ? & ->);
      [done..|].
    by apply H1.
  - intros l' c0 Hc0.
    destruct (decide (l = l')) as [<-|Hne].
    + rewrite list_lookup_alter_eq, Hc in Hc0. injection Hc0 as <-.
      exact (H2 l c Hc).
    + rewrite list_lookup_alter_ne in Hc0 by done. by apply (H2 l').
Qed.

Lemma cache_exact_add cores heap cache h p heap' cache' :
  cache_exact cores heap cache →
  program_got h p heap heap' cache cache' →
  cache_exact
    (cores ++ [{| c_program := p; c_destroyed := false; c_stateHash := h |}])
    heap' cache'.
Proof.
  intros [H1 H2] [(Hp & -> & ->)|(Hp & -> & -> & pr0 & -> & Hh & Hrc)].
  - split.
    + intros p' pr' Hp'.
      destruct (lookup_alter_inv incr p heap p' pr') as (pr & ? & ->);
        [done..|].
      by apply H1.
    + intros l c [Hc|[_ Hc]]%lookup_app_Some; [by apply (H2 l)|].
      destruct (l - length cores)%nat; [|done]. by injection Hc as <-.
  - split.
    + intros p' pr [Hpr|[Hge Hpr]]%lookup_app_Some.
      * pose proof (H1 p' pr Hpr) as Hc.
        rewrite lookup_insert_ne; [done|]. intros Heq. congruence.
      * destruct (p' - length heap)%nat eqn:Hsub; [|done].
        injection Hpr as <-. rewrite Hh, lookup_insert_eq. f_equal. lia.
    + intros l c [Hc|[_ Hc]]%lookup_app_Some.
      * pose proof (H2 l c Hc) as Hcache.
        rewrite lookup_insert_ne; [done|]. intros Heq. congruence.
      * destruct (l - length cores)%nat; [|done]. injection Hc as <-.
        simpl. by rewrite lookup_insert_eq.
Qed.

(** Every change of the view but the emptying of the cache keeps the cache
    exact. *)
Lemma view_change_exact lab V V' :
  view_change lab V V' → lab ≠ Forgotten → view_exact V → view_exact V'.
Proof.
  intros Hstep Hlab Hex. destruct Hstep; simpl in *; try done.
  - by eapply cache_exact_add.
  - by apply cache_exact_release.
Qed.

(** *** As long as no full compile starts once there are display nodes *)

(** A node that is not removed when the nodes of a list are. *)
Lemma release_all_live : ∀ nodes cores heap l c,
  (∀ n, n ∈ nodes → is_Some (cores !! n)) →
  (release_all nodes cores heap).1 !! l = Some c →
  c_destroyed c = false →
  l ∉ nodes ∧ cores !! l = Some c.
Proof.
  induction nodes as [|n rest IH]; intros cores heap l c Hex Hl Hd.
  - split; [apply not_elem_of_nil|done].
  - simpl in Hl. destruct (Hex n) as [c0 Hc0]; [by left|].
    rewrite Hc0 in Hl.
    apply IH in Hl as [Hrest Hl]; [|..|done].
    + destruct (decide (n = l)) as [->|Hne].
      * rewrite list_lookup_alter_eq, Hc0 in Hl. injection Hl as <-. done.
      * rewrite list_lookup_alter_ne in Hl by done.
        split; [|done]. by intros [->|?]%elem_of_cons.
    + intros n' Hn'. destruct (Hex n') as [c' Hc']; [by right|].
      destruct (decide (n = n')) as [->|Hne].
      * rewrite list_lookup_alter_eq, Hc'. by eexists.
      * rewrite list_lookup_alter_ne by done. by eexists.
Qed.

(** Every change of the view but the forgetting of a scene's nodes keeps
    the nodes that have not been removed registered. *)
Lemma view_change_listed lab V V' :
  view_change lab V V' → lab ≠ Cleared →
  view_inv V → view_listed V → view_listed V'.
Proof.
  intros Hstep Hlab Hinv Hall. destruct Hstep; simpl in *; try done.
  - destruct H0 as [m Hm].
    intros l c [Hc|[Hge Hc]]%lookup_app_Some Hd.
    + destruct (Hall l c Hc Hd) as (sid' & key' & nodes' & (m' & Hm' & Hn) & Hin).
      destruct (decide ((sid', key') = (sid, key))) as [[= -> ->]|Hne].
      * exists sid, key, (nodes' ++ [length cores]).
        split; [|apply elem_of_app; by left].
        exists (push_node key (length cores) m).
        rewrite lookup_alter_eq, Hm. split; [done|].
        assert (m' = m) as -> by congruence.
        unfold push_node, nodes_of. by rewrite Hn, lookup_insert_eq.
      * exists sid', key', nodes'. split; [|done].
        destruct (decide (sid = sid')) as [<-|Hs].
        -- exists (push_node key (length cores) m).
           rewrite lookup_alter_eq, Hm. split; [done|].
           assert (m' = m) as -> by congruence.
           unfold push_node. rewrite lookup_insert_ne; [done|]. congruence.
        -- exists m'. by rewrite lookup_alter_ne.
    + destruct (l - length cores)%nat eqn:Hsub; [|done].
      assert (l = length cores) as -> by lia.
      exists sid, key, (nodes_of m key ++ [length cores]).
      split; [|apply elem_of_app; right; by left].
      exists (push_node key (length cores) m).
      rewrite lookup_alter_eq, Hm. split; [done|].
      unfold push_node. by rewrite lookup_insert_eq.
  - intros l c Hc Hd.
    apply release_all_live in Hc as [Hout Hc]; [|..|done].
    2: { intros n Hn.
         destruct (nodes_of_listed geo sid key m H) as [Hl|Hnil].
         - destruct (registered_live _ _ _ _ Hinv _ _ _ Hl) as [_ Hlive].
           destruct (Hlive n Hn) as (c' & -> & _). by eexists.
         - rewrite Hnil in Hn. by apply elem_of_nil in Hn. }
    destruct (Hall l c Hc Hd) as (sid' & key' & nodes' & (m' & Hm' & Hn) & Hin).
    exists sid', key', nodes'. split; [|done].
    destruct (decide (sid = sid')) as [<-|Hs].
    + assert (m' = m) as -> by congruence.
      exists (<[key := None]> m). rewrite lookup_alter_eq, H.
      split; [done|]. rewrite lookup_insert_ne; [done|].
      intros <-. unfold nodes_of in Hout. by rewrite Hn in Hout.
    + exists m'. by rewrite lookup_alter_ne.
  - intros l c Hc Hd.
    destruct (Hall l c Hc Hd) as (sid' & key' & nodes' & (m' & Hm' & Hn) & Hin).
    exists sid', key', nodes'. split; [|done].
    exists m'. split; [|done]. rewrite lookup_insert_ne; [done|]. congruence.
Qed.

(** The changes that add no node. *)
Lemma view_change_empty lab V V' :
  view_change lab V V' → lab ≠ Added → V.1.1.1 = [] → V'.1.1.1 = [].
Proof.
  intros Hstep Hlab Hnil. destruct Hstep; simpl in *; try done.
  subst. by destruct (nodes_of m key).
Qed.

(** *** Runs *)

(** Whether a run starts no full compile once a geometry has been set;
    [built] tells whether one has been set before. *)
Fixpoint builds_once (built : bool) (cmds : list Command) : bool :=
  match cmds with
  | [] => true
  | SetGeometry _ _ :: cmds => builds_once true cmds
  | c :: cmds => negb (built && is_rebuild c) && builds_once built cmds
  end.

Lemma initial_inv : view_inv (prog_view initial).
Proof.
  unfold prog_view, initial, geoMaps. simpl. split; try done.
  - intros sid key nodes (m & Hm & _).
    by rewrite fmap_empty, lookup_empty in Hm.
  - intros sid key nodes ? ? ? (m & Hm & _).
    by rewrite fmap_empty, lookup_empty in Hm.
Qed.

Lemma initial_exact : view_exact (prog_view initial).
Proof. unfold prog_view, initial. simpl. split; done. Qed.

Lemma run_inv cmds : ∀ s s',
  for_each perform cmds s = Ok (tt, s') →
  view_inv (prog_view s) → view_inv (prog_view s').
Proof.
  induction cmds as [|c cmds IH]; intros s s' H Hinv; simpl in H.
  - by injection H as <-.
  - apply bind_Ok in H as ([] & s1 & H1 & H).
    apply perform_step in H1 as (lab & _ & Hstep).
    apply (IH _ _ H). by eapply view_change_inv.
Qed.

Lemma run_exact cmds : ∀ s s',
  for_each perform cmds s = Ok (tt, s') →
  existsb is_reset cmds = false →
  view_exact (prog_view s) → view_exact (prog_view s').
Proof.
  induction cmds as [|c cmds IH]; intros s s' H Hcmds Hex; simpl in H.
  - by injection H as <-.
  - apply bind_Ok in H as ([] & s1 & H1 & H).
    simpl in Hcmds. apply orb_false_iff in Hcmds as [Hc Hcmds].
    apply perform_step in H1 as (lab & Hmay & Hstep).
    apply (IH _ _ H Hcmds). eapply view_change_exact; [done| |done].
    intros ->. simpl in Hmay. by subst.
Qed.

Lemma run_listed cmds : ∀ built s s',
  for_each perform cmds s = Ok (tt, s') →
  builds_once built cmds = true →
  view_inv (prog_view s) →
  (if built then view_listed (prog_view s) else DL.nodeHeap s = []) →
  view_listed (prog_view s').
Proof.
  induction cmds as [|c cmds IH]; intros built s s' H Hcmds Hinv Hall;
    simpl in H.
  - injection H as <-. destruct built; [done|].
    unfold prog_view. simpl. rewrite Hall. by intros l c Hc.
  - apply bind_Ok in H as ([] & s1 & H1 & H).
    apply perform_step in H1 as (lab & Hmay & Hstep).
    pose proof (view_change_inv _ _ _ Hstep Hinv) as Hinv1.
    assert (Hlisted : view_listed (prog_view s) → lab ≠ Cleared →
                      view_listed (prog_view s1)).
    { intros Hl Hlab. by eapply view_change_listed. }
    assert (Hnone : DL.nodeHeap s = [] → view_listed (prog_view s)).
    { intros Hnil. unfold prog_view. simpl. rewrite Hnil. by intros l c0 Hc. }
    assert (Hempty : DL.nodeHeap s = [] → lab ≠ Added → DL.nodeHeap s1 = []).
    { intros Hnil Hlab.
      apply (view_change_empty _ _ _ Hstep) in Hlab.
      - unfold prog_view in Hlab. simpl in Hlab.
        by apply fmap_nil_inv in Hlab.
      - unfold prog_view. simpl. by rewrite Hnil. }
    destruct c.
    5: { apply (IH true _ _ H Hcmds Hinv1). apply Hlisted.
         - destruct built; auto.
         - intros ->. simpl in Hmay. done. }
    all: simpl in Hcmds; apply andb_true_iff in Hcmds as [Hc' Hrest];
      apply (IH built _ _ H Hrest Hinv1); destruct built;
      [ apply Hlisted; [done|]; intros ->; simpl in Hmay, Hc';
        first [ done | rewrite Hmay in Hc'; done ]
      | apply Hempty; [done|]; intros ->; simpl in Hmay;
        by destruct Hmay as (? & ? & ?) ].
Qed.

(** C1, as the code has it.  In every state reached from the freshly loaded
    module by calls and RESET events that return:
    - a program in the cache carries the state hash it is cached under;
    - the program of every display node exists and carries the node's state
      hash;
    - a program's [refCount] is the number of display nodes that were
      created with it and have not been removed by [removeGeometry]; the
      nodes that a later [bindScene] for a full compile dropped from the
      bin and from the maps count among them, for nothing releases them;
    - the nodes registered in a [geoNodesMap] exist, have not been removed,
      and are registered once.
    A [setGeometry] under a full compile creates a node whose state hash is
    the value of [_getSceneHash] for the soup as the call leaves it, cached
    in [_stateHash], and whose program is the one the cache holds for that
    hash.
    In a run without RESET the cache holds the program of every node under
    the node's hash, so that nodes with equal state hashes have the same
    program, and no two programs carry the same hash.  In a run that starts
    no full compile once a geometry has been set, every node that has not
    been removed is registered in a [geoNodesMap], so that [refCount] is the
    number of registered nodes that use the program. *)
Theorem C1_program_cache_refcounts cmds s :
  for_each perform cmds initial = Ok (tt, s) →
  (∀ h p, DL._programs s !! h = Some p →
     ∃ pr, DL.programHeap s !! p = Some pr ∧ Program.stateHash pr = h)
  ∧ (∀ l n, DL.nodeHeap s !! l = Some n →
       ∃ pr, DL.programHeap s !! Node.program n = Some pr
             ∧ Program.stateHash pr = Node.stateHash n)
  ∧ (∀ p pr, DL.programHeap s !! p = Some pr →
       Program.refCount pr = Z.of_nat (length (live_nodes s p)))
  ∧ (∀ sid key nodes, listed (geoMaps s) sid key nodes →
       NoDup nodes
       ∧ (∀ l, l ∈ nodes →
            ∃ n, DL.nodeHeap s !! l = Some n ∧ Node.destroyed n = false)
       ∧ (∀ sid' key' nodes',
            listed (geoMaps s) sid' key' nodes' →
            (sid, key) ≠ (sid', key') → ∀ l, l ∈ nodes → l ∉ nodes'))
  ∧ (∀ id geo s',
       is_compile_scene (DL.compileMode s) = true →
       setGeometry id geo s = Ok (tt, s') →
       ∃ h n, _getSceneHash s' = Ok (h, s')
              ∧ DL._stateHash s' = Some h
              ∧ length (DL.nodeHeap s') = S (length (DL.nodeHeap s))
              ∧ DL.nodeHeap s' !! length (DL.nodeHeap s) = Some n
              ∧ Node.stateHash n = h
              ∧ Node.destroyed n = false
              ∧ DL._programs s' !! h = Some (Node.program n))
  ∧ (existsb is_reset cmds = false →
       (∀ l n, DL.nodeHeap s !! l = Some n →
          DL._programs s !! Node.stateHash n = Some (Node.program n))
       ∧ (∀ l1 n1 l2 n2,
            DL.nodeHeap s !! l1 = Some n1 → DL.nodeHeap s !! l2 = Some n2 →
            Node.stateHash n1 = Node.stateHash n2 →
            Node.program n1 = Node.program n2)
       ∧ (∀ p1 pr1 p2 pr2,
            DL.programHeap s !! p1 = Some pr1 →
            DL.programHeap s !! p2 = Some pr2 →
            Program.stateHash pr1 = Program.stateHash pr2 → p1 = p2))
  ∧ (builds_once false cmds = true →
       ∀ l n, DL.nodeHeap s !! l = Some n → Node.destroyed n = false →
         ∃ sid key nodes, listed (geoMaps s) sid key nodes ∧ l ∈ nodes).
Proof.
  intros H.
  pose proof (run_inv _ _ _ H initial_inv) as Hinv.
  unfold prog_view in Hinv. simpl in Hinv.
  assert (Hcore : ∀ l n, DL.nodeHeap s !! l = Some n →
            (node_core <$> DL.nodeHeap s) !! l = Some (node_core n)).
  { intros l n Hn. by rewrite list_lookup_fmap, Hn. }
  assert (Hnode : ∀ l c, (node_core <$> DL.nodeHeap s) !! l = Some c →
            ∃ n, DL.nodeHeap s !! l = Some n ∧ c = node_core n).
  { intros l c Hc. rewrite list_lookup_fmap in Hc.
    destruct (DL.nodeHeap s !! l) as [n|]; [|done]. injection Hc as <-.
    eauto. }
  split; [exact (cache_sound _ _ _ _ Hinv)|].
  split.
  { intros l n Hn. exact (node_program _ _ _ _ Hinv l _ (Hcore l n Hn)). }
  split.
  { intros p pr Hp. rewrite live_nodes_cores.
    by apply (refcounts _ _ _ _ Hinv). }
  split.
  { intros sid key nodes Hl.
    destruct (registered_live _ _ _ _ Hinv _ _ _ Hl) as [Hnd Hlive].
    split; [done|]. split.
    - intros l Hin. destruct (Hlive l Hin) as (c & Hc & Hd).
      apply Hnode in Hc as (n & Hn & ->). eauto.
    - intros sid' key' nodes' Hl'.
      exact (registered_apart _ _ _ _ Hinv _ _ _ _ _ _ Hl Hl'). }
  split.
  { intros id geo s' Hfull Hset.
    pose proof (run_hash_inv _ _ _ H hash_inv_initial) as Hhash.
    destruct (setGeometry_hash _ _ _ _ Hset Hhash) as [_ Hcached].
    destruct (Hcached Hfull) as (h & Hsh & Hscene).
    apply setGeometry_view in Hset. rewrite Hfull in Hset.
    destruct Hset as (h0 & p & heap' & cache' & sid & _ & _ & _ & Hh0 & Hgot
                      & Hview).
    rewrite Hsh in Hh0. simpl in Hh0. subst h0.
    unfold prog_view in Hview. injection Hview as Hcores _ Hcache _.
    apply fmap_app_inv in Hcores as (nodes & last & Hnodes & Hlast & Heq).
    apply (f_equal length) in Hnodes. rewrite !length_fmap in Hnodes.
    destruct last as [|n [|? ?]]; try done.
    injection Hlast as Hp Hd Hnh.
    exists h, n. rewrite Heq, Hnodes, Hcache.
    split; [done|]. split; [done|].
    split; [rewrite length_app; simpl; lia|].
    split; [by rewrite list_lookup_middle|].
    split; [done|]. split; [done|]. rewrite <- Hp.
    destruct Hgot as [(Hhit & _ & ->)|(_ & _ & -> & _)]; [done|].
    by rewrite lookup_insert_eq. }
  split.
  - intros Hcmds.
    pose proof (run_exact _ _ _ H Hcmds initial_exact) as [Hcomplete Hprog].
    assert (Hcached : ∀ l n, DL.nodeHeap s !! l = Some n →
              DL._programs s !! Node.stateHash n = Some (Node.program n)).
    { intros l n Hn. exact (Hprog l _ (Hcore l n Hn)). }
    split; [exact Hcached|]. split.
    + intros l1 n1 l2 n2 H1 H2 Hh.
      apply Hcached in H1, H2. rewrite Hh in H1. congruence.
    + intros p1 pr1 p2 pr2 H1 H2 Hh.
      apply Hcomplete in H1, H2. rewrite Hh in H1. congruence.
  - intros Hcmds l n Hn Hd.
    pose proof (run_listed _ false _ _ H Hcmds initial_inv eq_refl) as Hall.
    exact (Hall l _ (Hcore l n Hn) Hd).
Qed.

(** Two boxes under the same states, the first then removed. *)
Definition two_boxes_one_removed : list Command :=
  [SceneCreated "scene" "canvas";
   BindScene "scene" (Some COMPILE_SCENE) false;
   SetGeometry (IdStr "geo1") box;
   SetGeometry (IdStr "geo2") box;
   RemoveGeometry "scene" (IdStr "geo1")].

Definition two_boxes_state : DrawList :=
  final_state (for_each perform two_boxes_one_removed).

(** The two boxes and a third one. *)
Definition three_boxes_state : DrawList :=
  final_state (for_each perform
                 (two_boxes_one_removed ++ [SetGeometry (IdStr "geo3") box])).

(** C1 on the two boxes: both nodes reference program 0, the only program,
    whose [refCount] is 1, the number of nodes not removed; a third box gets
    the scene hash of the soup and the program cached for it. *)
Lemma C1_program_cache_refcounts_witness :
  for_each perform two_boxes_one_removed initial = Ok (tt, two_boxes_state)
  ∧ Node.program <$> DL.nodeHeap two_boxes_state = [0%nat; 0%nat]
  ∧ Node.destroyed <$> DL.nodeHeap two_boxes_state = [true; false]
  ∧ Program.refCount <$> DL.programHeap two_boxes_state = [1]
  ∧ (∀ p pr, DL.programHeap two_boxes_state !! p = Some pr →
       Program.refCount pr = Z.of_nat (length (live_nodes two_boxes_state p)))
  ∧ (∀ p1 pr1 p2 pr2,
       DL.programHeap two_boxes_state !! p1 = Some pr1 →
       DL.programHeap two_boxes_state !! p2 = Some pr2 →
       Program.stateHash pr1 = Program.stateHash pr2 → p1 = p2)
  ∧ (∀ l n, DL.nodeHeap two_boxes_state !! l = Some n →
       Node.destroyed n = false →
       ∃ sid key nodes,
         listed (geoMaps two_boxes_state) sid key nodes ∧ l ∈ nodes)
  ∧ (∃ h n, _getSceneHash three_boxes_state = Ok (h, three_boxes_state)
            ∧ DL.nodeHeap three_boxes_state !! 2%nat = Some n
            ∧ Node.stateHash n = h
            ∧ DL._programs three_boxes_state !! h = Some (Node.program n)).
Proof.
  assert (Hrun : for_each perform two_boxes_one_removed initial
                 = Ok (tt, two_boxes_state)) by (vm_compute; reflexivity).
  split; [exact Hrun|].
  split; [vm_compute; reflexivity|].
  split; [vm_compute; reflexivity|].
  split; [vm_compute; reflexivity|].
  destruct (C1_program_cache_refcounts two_boxes_one_removed two_boxes_state
              Hrun) as (_ & _ & Hcount & _ & Hnew & Hexact & Hlisted).
  split; [exact Hcount|].
  split; [exact (proj2 (proj2 (Hexact eq_refl)))|].
  split; [exact (Hlisted eq_refl)|].
  destruct (Hnew (IdStr "geo3") box three_boxes_state)
    as (h & n & Hscene & _ & _ & Hn & Hh & _ & Hp);
    [vm_compute; reflexivity..|].
  exists h, n. split; [exact Hscene|]. split; [exact Hn|].
  split; [exact Hh | exact Hp].
Defined.

(** The scene compiled in full twice, with the same box each time. *)
Definition box_compiled_twice : list Command :=
  [SceneCreated "scene" "canvas";
   BindScene "scene" (Some COMPILE_SCENE) false;
   SetGeometry (IdStr "geo1") box;
   RenderFrame no_params;
   BindScene "scene" (Some COMPILE_SCENE) false;
   SetGeometry (IdStr "geo1") box].

Definition box_compiled_twice_state : DrawList :=
  final_state (for_each perform box_compiled_twice).

(** Two boxes with the same states, a RESET between them. *)
Definition box_reset_box : list Command :=
  [SceneCreated "scene" "canvas";
   BindScene "scene" (Some COMPILE_SCENE) false;
   SetGeometry (IdStr "geo1") box;
   Reset;
   SetGeometry (IdStr "geo2") box].

Definition box_reset_box_state : DrawList :=
  final_state (for_each perform box_reset_box).

(** C1 as stated fails.  After a second full compile of the scene the bin
    and [geoNodesMap] hold one display node, the only one that can still be
    drawn or removed, and the [refCount] of its program is 2: the node of
    the first compile was dropped without being released.  After a RESET
    between two geometries with the same state hash there are two programs
    with that hash, each used by one registered node. *)
Lemma C1_refcount_counterexample :
  (for_each perform box_compiled_twice initial
   = Ok (tt, box_compiled_twice_state)
   ∧ Program.refCount <$> DL.programHeap box_compiled_twice_state = [2]
   ∧ (Scene.lenBin <$> DL._sceneStates box_compiled_twice_state !! "scene")
     = Some 1%nat
   ∧ geoMaps box_compiled_twice_state !! "scene"
     = Some {[ "geo1" := Some [1%nat] ]}
   ∧ Node.destroyed <$> DL.nodeHeap box_compiled_twice_state
     = [false; false])
  ∧ (for_each perform box_reset_box initial = Ok (tt, box_reset_box_state)
     ∧ Node.stateHash <$> DL.nodeHeap box_reset_box_state
       = ["canvas;;f;;;;;;tfff4"; "canvas;;f;;;;;;tfff4"]
     ∧ Node.program <$> DL.nodeHeap box_reset_box_state = [0%nat; 1%nat]
     ∧ Program.stateHash <$> DL.programHeap box_reset_box_state
       = ["canvas;;f;;;;;;tfff4"; "canvas;;f;;;;;;tfff4"]
     ∧ geoMaps box_reset_box_state !! "scene"
       = Some {[ "geo1" := Some [0%nat]; "geo2" := Some [1%nat] ]}).
Proof. vm_compute. repeat split; reflexivity. Qed.

(** * Further properties of the draw list *)

(** ** The cached scene hash *)

(** X3.  In every state reached from the freshly loaded module by calls and
    RESET events that return, during a full compile and while a scene is
    bound, a scene hash cached in [_stateHash] is what [_getSceneHash]
    yields for the soup as it stands: every setter that changes a part of
    the scene hash drops the cached hash or leaves that part's hash as it
    was. *)
Theorem X3_cached_hash_is_scene_hash cmds s h :
  for_each perform cmds initial = Ok (tt, s) →
  is_compile_scene (DL.compileMode s) = true →
  is_Some (DL._states s) →
  DL._stateHash s = Some h →
  no_hash (Some h) = false →
  _getSceneHash s = Ok (h, s).
Proof.
  intros H Hfull Hbound Hcached Hno.
  pose proof (run_hash_inv _ _ _ H hash_inv_initial) as Hinv.
  rewrite _getSceneHash_spec.
  by rewrite (cached_hash _ Hinv Hfull Hbound h Hcached Hno).
Qed.

(** X3 on the two boxes. *)
Lemma X3_cached_hash_is_scene_hash_witness :
  _getSceneHash two_boxes_state
  = Ok ("canvas;;f;;;;;;tfff4", two_boxes_state).
Proof.
  apply (X3_cached_hash_is_scene_hash two_boxes_one_removed);
    vm_compute; first [reflexivity | by eexists].
Defined.

(** ** The program cache only grows *)

Definition cache_grows (heap heap' : list Program.t)
    (cache cache' : gmap string loc) : Prop :=
  (∀ h p, cache !! h = Some p → cache' !! h = Some p)
  ∧ (∀ p pr, heap !! p = Some pr →
       ∃ pr', heap' !! p = Some pr'
              ∧ Program.id pr' = Program.id pr
              ∧ Program.stateHash pr' = Program.stateHash pr).

Lemma cache_grows_refl heap cache : cache_grows heap heap cache cache.
Proof. split; eauto. Qed.

Lemma cache_grows_alter (f : Program.t → Program.t) p heap cache :
  (∀ pr, Program.id (f pr) = Program.id pr
         ∧ Program.stateHash (f pr) = Program.stateHash pr) →
  cache_grows heap (alter f p heap) cache cache.
Proof.
  intros Hf. split; [done|]. intros p' pr Hp.
  destruct (decide (p = p')) as [<-|Hne].
  - exists (f pr). rewrite list_lookup_alter_eq, Hp. split; [done|].
    apply Hf.
  - exists pr. by rewrite list_lookup_alter_ne.
Qed.

Lemma cache_grows_trans heap1 heap2 heap3 cache1 cache2 cache3 :
  cache_grows heap1 heap2 cache1 cache2 →
  cache_grows heap2 heap3 cache2 cache3 →
  cache_grows heap1 heap3 cache1 cache3.
Proof.
  intros [Hc1 Hh1] [Hc2 Hh2]. split; [eauto|].
  intros p pr Hp. destruct (Hh1 _ _ Hp) as (pr' & Hp' & Hi & Hs).
  destruct (Hh2 _ _ Hp') as (pr'' & Hp'' & Hi' & Hs').
  exists pr''. split; [done|]. split; congruence.
Qed.

Lemma cache_grows_got h p heap heap' cache cache' :
  program_got h p heap heap' cache cache' →
  cache_grows heap heap' cache cache'.
Proof.
  intros [(Hp & -> & ->)|(Hp & -> & -> & pr & -> & _)].
  - by apply cache_grows_alter.
  - split.
    + intros h' p' Hp'. rewrite lookup_insert_ne; [done|]. congruence.
    + intros p' pr' Hp'. exists pr'. split; [|done].
      by apply lookup_app_l_Some.
Qed.

Lemma cache_grows_release nodes : ∀ cores heap cache,
  cache_grows heap (release_all nodes cores heap).2 cache cache.
Proof.
  induction nodes as [|node rest IH]; intros cores heap cache; simpl.
  - apply cache_grows_refl.
  - destruct (cores !! node) as [c|]; [|apply cache_grows_refl].
    eapply cache_grows_trans; [|apply IH].
    by apply cache_grows_alter.
Qed.

Lemma view_change_grows lab V V' :
  view_change lab V V' → lab ≠ Forgotten →
  cache_grows V.1.1.2 V'.1.1.2 V.1.2 V'.1.2.
Proof.
  intros Hstep Hlab. destruct Hstep; simpl; try done.
  - apply cache_grows_refl.
  - by eapply cache_grows_got.
  - apply cache_grows_release.
  - apply cache_grows_refl.
  - apply cache_grows_refl.
Qed.

(** X1.  No call evicts a program; only the RESET event empties the cache.
    Whatever call returns, a state hash that had a program in the cache
    still has that same program, and every program that existed still
    exists with its id and its state hash. *)
Theorem X1_programs_never_evicted c s s' :
  is_reset c = false →
  perform c s = Ok (tt, s') →
  (∀ h p, DL._programs s !! h = Some p → DL._programs s' !! h = Some p)
  ∧ (∀ p pr, DL.programHeap s !! p = Some pr →
       ∃ pr', DL.programHeap s' !! p = Some pr'
              ∧ Program.id pr' = Program.id pr
              ∧ Program.stateHash pr' = Program.stateHash pr).
Proof.
  intros Hc H. apply perform_step in H as (lab & Hmay & Hstep).
  apply (view_change_grows _ _ _ Hstep).
  intros ->. simpl in Hmay. by subst.
Qed.

(** X1 on the two boxes: removing the first box leaves the program of
    their state hash cached. *)
Lemma X1_programs_never_evicted_witness :
  perform (RemoveGeometry "scene" (IdStr "geo1"))
    (final_state (for_each perform (take 4 two_boxes_one_removed)))
  = Ok (tt, two_boxes_state)
  ∧ DL._programs two_boxes_state !! "canvas;;f;;;;;;tfff4" = Some 0%nat.
Proof.
  assert (Hrun : perform (RemoveGeometry "scene" (IdStr "geo1"))
                   (final_state
                      (for_each perform (take 4 two_boxes_one_removed)))
                 = Ok (tt, two_boxes_state)) by (vm_compute; reflexivity).
  split; [exact Hrun|].
  apply (X1_programs_never_evicted
           (RemoveGeometry "scene" (IdStr "geo1")) _ _ eq_refl Hrun).
  vm_compute. reflexivity.
Defined.

(** ** Drawing changes no reference count *)

Lemma list_fmap_alter_same {A B} (g : A → B) (h : A → A) l (xs : list A) :
  (∀ x, g (h x) = g x) → g <$> alter h l xs = g <$> xs.
Proof.
  intros Hg. apply list_eq. intros i.
  rewrite !list_lookup_fmap, list_lookup_alter.
  case_decide; [|done]. subst. destruct (xs !! i); simpl; by rewrite ?Hg.
Qed.

(** The node counts of the states. *)
Definition nodeCounts (s : DrawList) : list Z :=
  State._nodeCount <$> DL.stateHeap s.

Lemma frame_counts_upd_state l h :
  (∀ st, State._nodeCount (h st) = State._nodeCount st) →
  frame nodeCounts (upd_state l h).
Proof.
  intros Hh. unfold upd_state. apply frame_modify. intros s.
  unfold nodeCounts. simpl. by apply list_fmap_alter_same.
Qed.

Ltac counts_step :=
  first
    [ apply frame_counts_upd_state; intros; done
    | field_step ].
Ltac counts_tac := repeat counts_step.

Lemma frame_counts_renderDrawList sid picking sel :
  frame nodeCounts (_renderDrawList sid picking sel).
Proof.
  unfold _renderDrawList, renderNode, node_flags, layer_core,
    skip_unmatched_tag.
  counts_tac.
Qed.

Lemma frame_counts_stateSortBins : frame nodeCounts _stateSortBins.
Proof.
  unfold _stateSortBins, _createStateStateSortIDs, layer_core. counts_tac.
Qed.

Lemma frame_counts_renderFrame params :
  frame nodeCounts (renderFrame params).
Proof.
  unfold renderFrame, renderer_init, renderer_cleanup.
  repeat first [ apply frame_counts_renderDrawList
               | apply frame_counts_stateSortBins
               | counts_step ].
Qed.

Lemma frame_counts_pick raster sid x y sel :
  frame nodeCounts (pick raster sid x y sel).
Proof.
  unfold pick, renderer_init, renderer_cleanup.
  repeat first [ apply frame_counts_renderDrawList | counts_step ].
Qed.

(** The calls that draw. *)
Definition draws (c : Command) : bool :=
  match c with
  | RenderFrame _ | Pick _ _ _ _ _ => true
  | _ => false
  end.

(** X2.  [renderFrame] and [pick] change no reference count and no
    registration: every state keeps its [_nodeCount], the programs (with
    their [refCount]) and the cache stay as they are, no display node is
    created, every display node keeps its program and its destroyed flag,
    and the nodes registered per scene and geometry id stay the same. *)
Theorem X2_drawing_keeps_counts c s s' :
  draws c = true →
  perform c s = Ok (tt, s') →
  State._nodeCount <$> DL.stateHeap s' = State._nodeCount <$> DL.stateHeap s
  ∧ DL.programHeap s' = DL.programHeap s
  ∧ DL._programs s' = DL._programs s
  ∧ length (DL.nodeHeap s') = length (DL.nodeHeap s)
  ∧ Node.program <$> DL.nodeHeap s' = Node.program <$> DL.nodeHeap s
  ∧ Node.destroyed <$> DL.nodeHeap s' = Node.destroyed <$> DL.nodeHeap s
  ∧ geoMaps s' = geoMaps s.
Proof.
  intros Hc H.
  assert (Hboth : nodeCounts s' = nodeCounts s ∧ prog_view s' = prog_view s).
  { destruct c; try done; simpl in H.
    - split; [by eapply frame_counts_renderFrame
             |by eapply frame_view_renderFrame].
    - apply bind_Ok in H as (hit & s1 & H & [= <-]).
      split; [by eapply frame_counts_pick|by eapply frame_view_pick]. }
  destruct Hboth as [Hcounts Hview].
  unfold prog_view in Hview. injection Hview as Hcores Hheap Hcache Hgeo.
  split; [exact Hcounts|]. split; [done|]. split; [done|].
  split; [|split; [|split; [|done]]].
  - apply (f_equal length) in Hcores. by rewrite !length_fmap in Hcores.
  - apply (f_equal (fmap c_program)) in Hcores.
    by rewrite <- !list_fmap_compose in Hcores.
  - apply (f_equal (fmap c_destroyed)) in Hcores.
    by rewrite <- !list_fmap_compose in Hcores.
Qed.

(** X2 on the one-box scene: a frame leaves the counts as they were. *)
Lemma X2_drawing_keeps_counts_witness :
  perform (RenderFrame no_params) one_box_state = Ok (tt, one_box_rendered)
  ∧ State._nodeCount <$> DL.stateHeap one_box_rendered
    = State._nodeCount <$> DL.stateHeap one_box_state
  ∧ DL.programHeap one_box_rendered = DL.programHeap one_box_state.
Proof.
  assert (Hrun : perform (RenderFrame no_params) one_box_state
                 = Ok (tt, one_box_rendered)) by (vm_compute; reflexivity).
  split; [exact Hrun|].
  destruct (X2_drawing_keeps_counts (RenderFrame no_params) one_box_state
              one_box_rendered eq_refl Hrun) as (H1 & H2 & _).
  split; [exact H1|exact H2].
Defined.
